(** * go-blockchain-helper: the contract-call codec of package web3

    A shallow embedding of the ABI encoder and decoder of [pkg/web3]
    ([EncodeFunctionCall], [encodeParameters], [encodeValue] and its
    per-type encoders, [DecodeFunctionResult], [decodeValue] and its
    per-type decoders) together with the helpers they call
    ([Keccak256], [ValidateAddress], [padBytes]) and the parts of Go's
    standard library they rely on ([encoding/hex], [math/big]'s
    [FillBytes], [SetBytes] and [Int64], [strings], [strconv.ParseBool]).

    Conventions.
    - A Go [string] is a Rocq [string] (a sequence of 8-bit characters);
      [[]byte] is [list byte]; [[]byte(s)] is [list_byte_of_string].
    - A [*big.Int] is a [Z].  Go's [int] and [int64] are 64 bits wide.
      Where such an integer is read from input bytes (the decoder) its
      wrap-around is written out with [wrap64].  Where it is the length
      of a slice the function holds, or a sum bounded by the length of
      the slice the function returns (the encoder's [dynamicOffset]),
      it cannot reach [2^63] in a running program and is a plain [Z].
    - A Go function returning [(T, error)] returns a [result T]:
      [Ok], [Err] with the error, or [Panic] when the Go runtime or a
      library call panics instead of returning. *)

From Stdlib Require Import ZArith NArith Lia List Bool Ascii String.
From Stdlib Require Import Strings.Byte.
Import ListNotations.

Local Open Scope Z_scope.

(** ** Results, errors and panics *)

(** The errors the codec builds with [fmt.Errorf], one constructor per
    message; the wrapping constructors carry the error wrapped by [%w]. *)
Inductive hexError : Type :=
| ErrLength                         (* encoding/hex: odd length hex string *)
| InvalidByteError (c : ascii).     (* encoding/hex: invalid byte *)

Inductive error : Type :=
| ParameterCountMismatch (expected got : nat)
    (* "parameter count mismatch: expected %d, got %d"; ArityMismatch *)
| AddressMustBeString               (* "address must be string" *)
| InvalidAddressFormat              (* "invalid address format"; InvalidAddress *)
| InvalidUintString                 (* "invalid uint string" *)
| UnsupportedUintType               (* "unsupported uint type" *)
| InvalidBoolString                 (* "invalid bool string" *)
| UnsupportedBoolType               (* "unsupported bool type" *)
| StringValueMustBeString           (* "string value must be string type" *)
| InvalidHexString                  (* "invalid hex string" *)
| BytesValueMustBeBytes             (* "bytes value must be []byte or hex string" *)
| ArrayValueMustBeSlice             (* "array value must be slice" *)
| UnsupportedType (abiType : string)        (* "unsupported type: %s" *)
| EmptyData                                 (* "empty data" *)
| InsufficientDataForType (abiType : string) (* "insufficient data for type %s" *)
| InsufficientDataForAddress        (* "insufficient data for address" *)
| InsufficientDataForUint           (* "insufficient data for uint" *)
| InsufficientDataForBool           (* "insufficient data for bool" *)
| InsufficientDataForStringOffset   (* "insufficient data for string offset" *)
| InsufficientDataForStringLength   (* "insufficient data for string length" *)
| InsufficientDataForStringContent  (* "insufficient data for string content" *)
| UnsupportedDecodeType (abiType : string)  (* "unsupported decode type: %s" *)
| HexError (e : hexError)
| FailedToDecodeSelector (e : error)        (* "failed to decode selector: %w" *)
| FailedToEncodeParameters (e : error)      (* "failed to encode parameters: %w" *)
| FailedToEncodeDynamicParameter (i : nat) (e : error)
    (* "failed to encode dynamic parameter %d: %w" *)
| FailedToEncodeStaticParameter (i : nat) (e : error)
    (* "failed to encode static parameter %d: %w" *)
| FailedToEncodeArrayElement (e : error)    (* "failed to encode array element: %w" *)
| FailedToDecodeType (abiType : string) (e : error).
    (* "failed to decode type %s: %w" *)

Inductive panic : Type :=
| BufferTooSmall          (* math/big: buffer too small to fit value *)
| SliceBoundsOutOfRange   (* runtime error: slice bounds out of range *)
| IndexOutOfRange.        (* runtime error: index out of range *)

Inductive result (A : Type) : Type :=
| Ok (a : A)
| Err (e : error)
| Panic (p : panic).

Arguments Ok {A} a.
Arguments Err {A} e.
Arguments Panic {A} p.

(** [v, err := m; if err != nil { return nil, wrap(err) }; k v] *)
Definition bindWrap {A B : Type} (m : result A) (wrap : error -> error)
  (k : A -> result B) : result B :=
  match m with
  | Ok a => k a
  | Err e => Err (wrap e)
  | Panic p => Panic p
  end.

Definition bind {A B : Type} (m : result A) (k : A -> result B) : result B :=
  bindWrap m (fun e => e) k.

Notation "x <- m ;; k" := (bind m (fun x => k))
  (at level 61, m at next level, right associativity).
Notation "x <- m 'wrapping' w ;; k" := (bindWrap m w (fun x => k))
  (at level 61, m at next level, w at next level, right associativity).

(** ** Bytes and big-endian integers *)

Definition byteZ (b : byte) : Z := Z.of_N (Byte.to_N b).

Definition byteOfZ (z : Z) : byte :=
  match Byte.of_N (Z.to_N (z mod 256)) with
  | Some b => b
  | None => x00
  end.

(** [make([]byte, n)] *)
Definition make (n : nat) : list byte := repeat x00 n.

(** [new(big.Int).SetBytes(buf)]: [buf] read as a big-endian unsigned
    integer. *)
Definition SetBytes (buf : list byte) : Z :=
  fold_left (fun acc b => acc * 256 + byteZ b) buf 0.

(** The [n] low-order base-256 digits of [z], most significant first. *)
Fixpoint bigEndian (n : nat) (z : Z) : list byte :=
  match n with
  | O => []
  | S k => bigEndian k (z / 256) ++ [byteOfZ z]
  end.

(** [x.FillBytes(buf)] with [len(buf) = n]: the absolute value of [x] as
    a zero-extended big-endian byte slice; panics when the absolute
    value does not fit. *)
Definition FillBytes (x : Z) (n : nat) : result (list byte) :=
  if 256 ^ Z.of_nat n <=? Z.abs x then Panic BufferTooSmall
  else Ok (bigEndian n (Z.abs x)).

(** [x.Int64()] for [x >= 0], and the conversions between [int] and
    [int64]: the low 64 bits read as a two's-complement integer. *)
Definition wrap64 (z : Z) : Z := (z + 2 ^ 63) mod 2 ^ 64 - 2 ^ 63.

Definition len {A : Type} (l : list A) : Z := Z.of_nat (List.length l).

(** [data[lo:hi]].  At every slice expression of the decoder a preceding
    test has established [hi <= len(data)] or one of the bounds is
    negative or [lo > hi], so the capacity of [data] never matters. *)
Definition slice (data : list byte) (lo hi : Z) : result (list byte) :=
  if (0 <=? lo) && (lo <=? hi) && (hi <=? len data)
  then Ok (firstn (Z.to_nat (hi - lo)) (skipn (Z.to_nat lo) data))
  else Panic SliceBoundsOutOfRange.

(** [data[i]] *)
Definition index (data : list byte) (i : Z) : result byte :=
  if (0 <=? i) && (i <? len data)
  then match nth_error data (Z.to_nat i) with
       | Some b => Ok b
       | None => Panic IndexOutOfRange
       end
  else Panic IndexOutOfRange.

(** ** Package [strings] *)

Definition HasPrefix (s pre : string) : bool := String.prefix pre s.

Definition HasSuffix (s suffix : string) : bool :=
  (String.length suffix <=? String.length s)%nat &&
  String.eqb
    (substring (String.length s - String.length suffix)%nat
       (String.length suffix) s)
    suffix.

Fixpoint Contains (s substr : string) : bool :=
  String.prefix substr s ||
  match s with
  | EmptyString => false
  | String _ s' => Contains s' substr
  end.

Definition TrimPrefix (s pre : string) : string :=
  if HasPrefix s pre
  then substring (String.length pre) (String.length s - String.length pre)%nat s
  else s.

Definition TrimSuffix (s suffix : string) : string :=
  if HasSuffix s suffix
  then substring 0 (String.length s - String.length suffix)%nat s
  else s.

Definition Join (elems : list string) (sep : string) : string :=
  String.concat sep elems.

(** ** Package [encoding/hex] *)

Definition hextable (n : N) : ascii :=
  match n with
  | 0 => "0" | 1 => "1" | 2 => "2" | 3 => "3" | 4 => "4" | 5 => "5"
  | 6 => "6" | 7 => "7" | 8 => "8" | 9 => "9" | 10 => "a" | 11 => "b"
  | 12 => "c" | 13 => "d" | 14 => "e" | _ => "f"
  end%N%char.

(** [reverseHexTable]: the value of a hexadecimal digit of either case. *)
Definition fromHexChar (c : ascii) : option N :=
  let n := N_of_ascii c in
  (if (48 <=? n) && (n <=? 57) then Some (n - 48)
   else if (97 <=? n) && (n <=? 102) then Some (n - 87)
   else if (65 <=? n) && (n <=? 70) then Some (n - 55)
   else None)%N.

Definition byteOfN (n : N) : byte := byteOfZ (Z.of_N n).

Fixpoint EncodeToString (src : list byte) : string :=
  match src with
  | [] => EmptyString
  | v :: rest =>
      String (hextable (Byte.to_N v / 16))
        (String (hextable (Byte.to_N v mod 16)) (EncodeToString rest))
  end%N.

(** [hex.DecodeString]: pairs of digits are decoded from the left; the
    first invalid character is reported, and an odd length is reported
    after its last character has been checked. *)
Fixpoint DecodeString (s : string) : hexError + list byte :=
  match s with
  | EmptyString => inr []
  | String p EmptyString =>
      match fromHexChar p with
      | None => inl (InvalidByteError p)
      | Some _ => inl ErrLength
      end
  | String p (String q rest) =>
      match fromHexChar p with
      | None => inl (InvalidByteError p)
      | Some a =>
          match fromHexChar q with
          | None => inl (InvalidByteError q)
          | Some b =>
              match DecodeString rest with
              | inl e => inl e
              | inr bs => inr (byteOfN (a * 16 + b) :: bs)
              end
          end
      end
  end%N.

(** ** Package [strconv] and [math/big] parsing *)

Definition ParseBool (str : string) : option bool :=
  if (String.eqb str "1" || String.eqb str "t" || String.eqb str "T"
      || String.eqb str "TRUE" || String.eqb str "true"
      || String.eqb str "True")%string then Some true
  else if (String.eqb str "0" || String.eqb str "f" || String.eqb str "F"
      || String.eqb str "FALSE" || String.eqb str "false"
      || String.eqb str "False")%string then Some false
  else None.

Definition digitValue (c : ascii) : option Z :=
  let n := N_of_ascii c in
  if ((48 <=? n) && (n <=? 57))%N then Some (Z.of_N n - 48) else None.

Fixpoint parseDigits (acc : Z) (s : string) : option Z :=
  match s with
  | EmptyString => Some acc
  | String c rest =>
      match digitValue c with
      | Some d => parseDigits (acc * 10 + d) rest
      | None => None
      end
  end.

(** [new(big.Int).SetString(s, 10)]: an optional sign followed by one or
    more decimal digits, and nothing else. *)
Definition SetString10 (s : string) : option Z :=
  match s with
  | EmptyString => None
  | String c rest =>
      if Ascii.eqb c "-" then
        match rest with
        | EmptyString => None
        | _ => option_map Z.opp (parseDigits 0 rest)
        end
      else if Ascii.eqb c "+" then
        match rest with
        | EmptyString => None
        | _ => parseDigits 0 rest
        end
      else parseDigits 0 s
  end.

(** ** The signature hash of the event module *)

Definition xorByte (a b : byte) : byte :=
  byteOfN (N.lxor (Byte.to_N a) (Byte.to_N b)).

(** [hash[i] ^= b] *)
Fixpoint xorAt (i : nat) (b : byte) (hash : list byte) : list byte :=
  match hash, i with
  | [], _ => []
  | h :: t, O => xorByte h b :: t
  | h :: t, S j => h :: xorAt j b t
  end.

(** [for i, b := range data { hash[i%32] ^= b }] from index [i] on. *)
Fixpoint keccakLoop (i : nat) (data : list byte) (hash : list byte)
  : list byte :=
  match data with
  | [] => hash
  | b :: rest => keccakLoop (S i) rest (xorAt (i mod 32) b hash)
  end.

Definition Keccak256 (data : list byte) : string :=
  EncodeToString (keccakLoop 0 data (make 32)).

(** ** Address validation (transaction.go) *)

Definition ValidateAddress (address : string) : bool :=
  if negb (HasPrefix address "0x") then false
  else if negb (String.length address =? 42)%nat then false
  else match DecodeString (substring 2 (String.length address - 2)%nat address) with
       | inl _ => false
       | inr _ => true
       end.

(** ** The ABI module: data *)

Record ABIParam : Type := { Name : string; Type_ : string }.

(** The dynamic types an [interface{}] holds in this package: the
    arguments handed to the encoder and the results of the decoder. *)
#[warnings="-register-all"]
Inductive value : Type :=
| BigInt (x : Z)                    (* *big.Int *)
| GoString (s : string)             (* string *)
| GoInt (v : Z)                     (* int *)
| GoInt64 (v : Z)                   (* int64 *)
| GoUint64 (v : Z)                  (* uint64 *)
| GoBool (b : bool)                 (* bool *)
| Bytes (bs : list byte)            (* []byte *)
| Slice (elements : list value)     (* []interface{} *)
| StringSlice (ss : list string)    (* []string *)
| Other.                            (* any other dynamic type *)

(** ** The ABI module: encoding *)

Definition createFunctionSignature (funcName : string)
  (params : list ABIParam) : string :=
  let paramTypes := map Type_ params in
  (funcName ++ "(" ++ Join paramTypes "," ++ ")")%string.

Definition isDynamicType (abiType : string) : bool :=
  Contains abiType "[]" || String.eqb abiType "string"
  || String.eqb abiType "bytes".

Definition encodeAddress (v : value) : result (list byte) :=
  match v with
  | GoString addressStr =>
      if negb (ValidateAddress addressStr) then Err InvalidAddressFormat
      else
        let addressBytes :=
          match DecodeString (TrimPrefix addressStr "0x") with
          | inr bs => bs
          | inl _ => []
          end in
        (* copy(result[12:], addressBytes) on 32 zero bytes *)
        let copied := firstn 20 addressBytes in
        Ok (make 12 ++ copied ++ make (20 - List.length copied))
  | _ => Err AddressMustBeString
  end.

Definition encodeUint (abiType : string) (v : value) : result (list byte) :=
  bigIntValue <-
    match v with
    | BigInt x => Ok x
    | GoString s =>
        match SetString10 s with
        | Some x => Ok x
        | None => Err InvalidUintString
        end
    | GoInt x => Ok x
    | GoInt64 x => Ok x
    | GoUint64 x => Ok x
    | _ => Err UnsupportedUintType
    end ;;
  FillBytes bigIntValue 32.

Definition encodeInt (abiType : string) (v : value) : result (list byte) :=
  encodeUint abiType v.

Definition encodeBool (v : value) : result (list byte) :=
  boolValue <-
    match v with
    | GoBool b => Ok b
    | GoString s =>
        match ParseBool s with
        | Some b => Ok b
        | None => Err InvalidBoolString
        end
    | _ => Err UnsupportedBoolType
    end ;;
  (* result := make([]byte, 32); if boolValue { result[31] = 1 } *)
  Ok (if boolValue : bool then make 31 ++ [x01] else make 32).

Definition padBytes (data : list byte) (blockSize : Z) : list byte :=
  let remainder := Z.rem (len data) blockSize in
  if remainder =? 0 then data
  else
    let padding := blockSize - remainder in
    (* padded := make([]byte, len(data)+padding); copy(padded, data) *)
    data ++ make (Z.to_nat padding).

Definition encodeString (v : value) : result (list byte) :=
  match v with
  | GoString str =>
      let strBytes := list_byte_of_string str in
      length <- FillBytes (len strBytes) 32 ;;
      let paddedBytes := padBytes strBytes 32 in
      Ok (length ++ paddedBytes)
  | _ => Err StringValueMustBeString
  end.

Definition encodeBytes (v : value) : result (list byte) :=
  bytes <-
    match v with
    | Bytes bs => Ok bs
    | GoString s =>
        match DecodeString (TrimPrefix s "0x") with
        | inr bs => Ok bs
        | inl _ => Err InvalidHexString
        end
    | _ => Err BytesValueMustBeBytes
    end ;;
  length <- FillBytes (len bytes) 32 ;;
  let paddedBytes := padBytes bytes 32 in
  Ok (length ++ paddedBytes).

(** The element loop of [encodeArray]. *)
Fixpoint encodeElements (encodeValue : value -> result (list byte))
  (elements : list value) (encodedElements : list byte)
  : result (list byte) :=
  match elements with
  | [] => Ok encodedElements
  | element :: rest =>
      encoded <- encodeValue element wrapping FailedToEncodeArrayElement ;;
      encodeElements encodeValue rest (encodedElements ++ encoded)
  end.

(** [encodeArray], with its call of [encodeValue] as a parameter:
    [encodeValue] and [encodeArray] call each other. *)
Definition encodeArrayWith
  (encodeValue : string -> value -> result (list byte))
  (abiType : string) (v : value) : result (list byte) :=
  let elementType := TrimSuffix abiType "[]" in
  elements <-
    match v with
    | Slice vs => Ok vs
    | StringSlice ss => Ok (map GoString ss)
    | _ => Err ArrayValueMustBeSlice
    end ;;
  length <- FillBytes (len elements) 32 ;;
  encodedElements <- encodeElements (encodeValue elementType) elements [] ;;
  Ok (length ++ encodedElements).

(** [encodeValue].  The recursion through [encodeArray] strips the
    suffix "[]" from the type, so the length of the type bounds its
    depth: [fuel] counts the calls still allowed. *)
Fixpoint encodeValueFuel (fuel : nat) (abiType : string) (v : value)
  : result (list byte) :=
  if String.eqb abiType "address" then encodeAddress v
  else if HasPrefix abiType "uint" then encodeUint abiType v
  else if HasPrefix abiType "int" then encodeInt abiType v
  else if String.eqb abiType "bool" then encodeBool v
  else if String.eqb abiType "string" then encodeString v
  else if String.eqb abiType "bytes" then encodeBytes v
  else if HasSuffix abiType "[]" then
    match fuel with
    | S fuel' => encodeArrayWith (encodeValueFuel fuel') abiType v
    | O => Err (UnsupportedType abiType)
    end
  else Err (UnsupportedType abiType).

Definition encodeValue (abiType : string) (v : value) : result (list byte) :=
  encodeValueFuel (String.length abiType) abiType v.

Definition encodeArray (abiType : string) (v : value) : result (list byte) :=
  encodeArrayWith encodeValue abiType v.

(** The loop of [encodeParameters] from parameter [i] on; [values] holds
    [values[i:]].  It yields the two buffers [encoded] (the head) and
    [dynamicData] (the tail) as they stand when the loop ends. *)
Fixpoint encodeLoop (i : nat) (params : list ABIParam) (values : list value)
  (encoded dynamicData : list byte) (dynamicOffset : Z)
  : result (list byte * list byte) :=
  match params with
  | [] => Ok (encoded, dynamicData)
  | param :: params' =>
      match values with
      | [] => Panic IndexOutOfRange
      | v :: values' =>
          if isDynamicType (Type_ param) then
            offsetBytes <- FillBytes dynamicOffset 32 ;;
            dynamicEncoded <- encodeValue (Type_ param) v
                                wrapping FailedToEncodeDynamicParameter i ;;
            encodeLoop (S i) params' values' (encoded ++ offsetBytes)
              (dynamicData ++ dynamicEncoded)
              (dynamicOffset + len dynamicEncoded)
          else
            staticEncoded <- encodeValue (Type_ param) v
                               wrapping FailedToEncodeStaticParameter i ;;
            encodeLoop (S i) params' values' (encoded ++ staticEncoded)
              dynamicData dynamicOffset
      end
  end.

(** [encodeParameters] up to its last line: the head and the tail. *)
Definition encodeHeadTail (params : list ABIParam) (values : list value)
  : result (list byte * list byte) :=
  if negb (List.length params =? List.length values)%nat
  then Err (ParameterCountMismatch (List.length params) (List.length values))
  else encodeLoop 0 params values [] [] (len params * 32).

Definition encodeParameters (params : list ABIParam) (values : list value)
  : result (list byte) :=
  ht <- encodeHeadTail params values ;;
  Ok (fst ht ++ snd ht).

Definition selectorOf (funcName : string) (params : list ABIParam) : string :=
  let signature := createFunctionSignature funcName params in
  substring 0 8 (Keccak256 (list_byte_of_string signature)).

Definition EncodeFunctionCall (funcName : string) (params : list ABIParam)
  (values : list value) : result (list byte) :=
  let selector := selectorOf funcName params in
  selectorBytes <-
    match DecodeString selector with
    | inr bs => Ok bs
    | inl e => Err (HexError e)
    end wrapping FailedToDecodeSelector ;;
  encodedParams <- encodeParameters params values
                     wrapping FailedToEncodeParameters ;;
  Ok (selectorBytes ++ encodedParams).

(** ** The ABI module: decoding *)

Definition decodeAddress (data : list byte) (offset : Z)
  : result (value * Z) :=
  if offset + 32 >? len data then Err InsufficientDataForAddress
  else
    addressBytes <- slice data (offset + 12) (offset + 32) ;;
    let address := ("0x" ++ EncodeToString addressBytes)%string in
    Ok (GoString address, offset + 32).

Definition decodeUint (data : list byte) (offset : Z) : result (value * Z) :=
  if offset + 32 >? len data then Err InsufficientDataForUint
  else
    word <- slice data offset (offset + 32) ;;
    Ok (BigInt (SetBytes word), offset + 32).

Definition decodeBool (data : list byte) (offset : Z) : result (value * Z) :=
  if offset + 32 >? len data then Err InsufficientDataForBool
  else
    b <- index data (offset + 31) ;;
    Ok (GoBool (negb (Byte.eqb b x00)), offset + 32).

Definition decodeString (data : list byte) (offset : Z)
  : result (value * Z) :=
  if offset + 32 >? len data then Err InsufficientDataForStringOffset
  else
    word <- slice data offset (offset + 32) ;;
    let stringOffset := wrap64 (SetBytes word) in
    if wrap64 (stringOffset + 32) >? len data
    then Err InsufficientDataForStringLength
    else
      lengthWord <- slice data stringOffset (wrap64 (stringOffset + 32)) ;;
      let length := wrap64 (SetBytes lengthWord) in
      if wrap64 (wrap64 (stringOffset + 32) + length) >? len data
      then Err InsufficientDataForStringContent
      else
        stringBytes <- slice data (wrap64 (stringOffset + 32))
                         (wrap64 (wrap64 (stringOffset + 32) + length)) ;;
        Ok (GoString (string_of_list_byte stringBytes), offset + 32).

Definition decodeValue (abiType : string) (data : list byte) (offset : Z)
  : result (value * Z) :=
  if String.eqb abiType "address" then decodeAddress data offset
  else if HasPrefix abiType "uint" then decodeUint data offset
  else if String.eqb abiType "bool" then decodeBool data offset
  else if String.eqb abiType "string" then decodeString data offset
  else Err (UnsupportedDecodeType abiType).

(** The loop of [DecodeFunctionResult] over the types still to read. *)
Fixpoint decodeLoop (abiTypes : list string) (data : list byte)
  (offset : Z) (results : list value) : result (list value) :=
  match abiTypes with
  | [] => Ok results
  | abiType :: rest =>
      if offset + 32 >? len data then Err (InsufficientDataForType abiType)
      else
        vo <- decodeValue abiType data offset
                wrapping FailedToDecodeType abiType ;;
        decodeLoop rest data (snd vo) (results ++ [fst vo])
  end.

Definition DecodeFunctionResult (abiTypes : list string) (data : list byte)
  : result (list value) :=
  if len data =? 0 then Err EmptyData
  else decodeLoop abiTypes data 0 [].

(** ** Vocabulary of the statements *)

(** An encoded call is the 4-byte selector, the head and the tail.  Its
    argument bytes are what follows the selector; head slot [k] is the
    32-byte word at byte [32 * k] of the argument bytes. *)
Definition argumentBytes (call : list byte) : list byte := skipn 4 call.

Definition headWord (call : list byte) (k : nat) : list byte :=
  firstn 32 (skipn (32 * k) (argumentBytes call)).


(** Lower case of an ASCII text. *)
Definition lowerChar (c : ascii) : ascii :=
  let n := N_of_ascii c in
  if ((65 <=? n) && (n <=? 90))%N then ascii_of_N (n + 32) else c.

Fixpoint lowerCase (s : string) : string :=
  match s with
  | EmptyString => EmptyString
  | String c rest => String (lowerChar c) (lowerCase rest)
  end.

(** The tags [uintN]: they start with "uint" and are not array types. *)
Definition isUintTag (t : string) : bool :=
  HasPrefix t "uint" && negb (Contains t "[]").

(** The tags [intN] and [uintN]. *)
Definition isIntegerTag (t : string) : bool :=
  HasPrefix t "uint" || HasPrefix t "int".

(** A value that matches a type of the subset both the encoder and the
    decoder support, in the dynamic type the decoder returns for it. *)
Inductive matchesType : string -> value -> Prop :=
| matches_address (s : string) :
    ValidateAddress s = true -> matchesType "address" (GoString s)
| matches_uint (t : string) (x : Z) :
    isUintTag t = true -> 0 <= x < 2 ^ 256 -> matchesType t (BigInt x)
| matches_bool (b : bool) : matchesType "bool" (GoBool b)
| matches_string (s : string) : matchesType "string" (GoString s).

Definition matchesParam (p : ABIParam) (v : value) : Prop :=
  matchesType (Type_ p) v.

(** The value the decoder returns for an encoded value: an address comes
    back in lower case, everything else as it was. *)
Definition decoded (t : string) (v : value) : value :=
  if String.eqb t "address"
  then match v with
       | GoString s => GoString (lowerCase s)
       | _ => v
       end
  else v.

Fixpoint decodedValues (params : list ABIParam) (values : list value)
  : list value :=
  match params, values with
  | p :: params', v :: values' =>
      decoded (Type_ p) v :: decodedValues params' values'
  | _, _ => []
  end.

(** The number of tail bytes of a string of [n] bytes: the length word
    and the content padded to a multiple of 32. *)
Definition stringSize (n : Z) : Z := 32 + 32 * ((n + 31) / 32).

Definition tailSize (p : ABIParam) (v : value) : Z :=
  match v with
  | GoString s =>
      if String.eqb (Type_ p) "string"
      then stringSize (len (list_byte_of_string s))
      else 0
  | _ => 0
  end.

Fixpoint tailTotal (params : list ABIParam) (values : list value) : Z :=
  match params, values with
  | p :: params', v :: values' => tailSize p v + tailTotal params' values'
  | _, _ => 0
  end.

(** The number of argument bytes of a call with these arguments. *)
Definition wireSize (params : list ABIParam) (values : list value) : Z :=
  32 * len params + tailTotal params values.

(** The loop of [encodeParameters] as a relation: [layout off params
    values words payloads] holds when the loop, entered with
    [dynamicOffset = off], appends [words] to the head, one per
    parameter, and [payloads] to the tail (an empty one for a static
    parameter). *)
Inductive layout : Z -> list ABIParam -> list value
                   -> list (list byte) -> list (list byte) -> Prop :=
| layout_nil (off : Z) (values : list value) : layout off [] values [] []
| layout_static (off : Z) (p : ABIParam) (v : value) (e : list byte)
    params values words payloads :
    isDynamicType (Type_ p) = false ->
    encodeValue (Type_ p) v = Ok e ->
    layout off params values words payloads ->
    layout off (p :: params) (v :: values) (e :: words) ([] :: payloads)
| layout_dynamic (off : Z) (p : ABIParam) (v : value) (w e : list byte)
    params values words payloads :
    isDynamicType (Type_ p) = true ->
    FillBytes off 32 = Ok w ->
    encodeValue (Type_ p) v = Ok e ->
    layout (off + len e) params values words payloads ->
    layout off (p :: params) (v :: values) (w :: words) (e :: payloads).

(** The call of the example: transfer(address,uint256). *)
Definition transferParams : list ABIParam :=
  [ {| Name := "to"; Type_ := "address" |};
    {| Name := "amount"; Type_ := "uint256" |} ].

Definition transferValues : list value :=
  [ GoString "0x0000000000000000000000000000000000000001";
    BigInt 1000000 ].

(** [ERC20_TRANSFER_SELECTOR] of erc20.go. *)
Definition ERC20_TRANSFER_SELECTOR : string := "a9059cbb".

(** A call with a static parameter between two dynamic ones. *)
Definition noteParams : list ABIParam :=
  [ {| Name := "title"; Type_ := "string" |};
    {| Name := "count"; Type_ := "uint8" |};
    {| Name := "body"; Type_ := "string" |} ].

Definition noteValues : list value :=
  [ GoString "hello"; BigInt 7; GoString "" ].

Definition noteCall : list byte :=
  Eval vm_compute in
    match EncodeFunctionCall "note" noteParams noteValues with
    | Ok call => call
    | _ => []
    end.

(** ** Vocabulary of the further properties *)

(** A length that is a whole number of 32-byte words. *)
Definition wholeWords (n : nat) : Prop := exists k : nat, n = (32 * k)%nat.

(** The error [encodeParameters] builds for parameter [i] when
    [encodeValue] fails with [e]. *)
Definition parameterError (p : ABIParam) (i : nat) (e : error) : error :=
  if isDynamicType (Type_ p)
  then FailedToEncodeDynamicParameter i e
  else FailedToEncodeStaticParameter i e.

(** The hexadecimal digits [hex.DecodeString] accepts. *)
Definition isHexDigit (c : ascii) : bool :=
  let n := N_of_ascii c in
  ((48 <=? n) && (n <=? 57) || (97 <=? n) && (n <=? 102)
   || (65 <=? n) && (n <=? 70))%N.

Fixpoint allHex (s : string) : bool :=
  match s with
  | EmptyString => true
  | String c rest => isHexDigit c && allHex rest
  end.

(** The tags [decodeValue] reads from one head word, and the tags it
    supports at all. *)
Definition isWordTag (t : string) : bool :=
  String.eqb t "address" || HasPrefix t "uint" || String.eqb t "bool".

Definition isDecodable (t : string) : bool :=
  isWordTag t || String.eqb t "string".

(** ** transaction.go: gas, fees and keys *)

Inductive gasError : Type :=
| InvalidDataFormat (e : hexError).   (* "invalid data format: %w" *)

(** [EstimateGas].  [value] is [None] for a nil pointer.  The [uint64]
    sums are bounded by [21000 + 32 * len(dataBytes)], a multiple of the
    length of a slice the function holds, and are plain integers. *)
Definition EstimateGas (to from data : string) (value : option Z)
  : gasError + Z :=
  if String.eqb data ""
     && match value with Some v => 0 <? v | None => false end
  then inr 21000
  else if negb (String.eqb data "") then
    match DecodeString (TrimPrefix data "0x") with
    | inl e => inl (InvalidDataFormat e)
    | inr dataBytes =>
        let baseGas := 21000 in
        let dataGas := len dataBytes * 16 in
        let dataGas :=
          fold_left (fun gas b => if Byte.eqb b x00 then gas + 4 else gas + 16)
            dataBytes dataGas in
        inr (baseGas + dataGas)
    end
  else inr 21000.

Definition SuggestGasPrice : Z := 20000000000.

(** [Value] and [GasPrice] are pointers: [None] is nil. *)
Record Transaction : Type := {
  To : string;
  Value : option Z;
  Gas : Z;
  GasPrice : option Z;
  Data : list byte;
  Nonce : Z
}.

Definition CreateTransaction (to : string) (value : option Z)
  (data : list byte) : Transaction :=
  let gasLimit :=
    match EstimateGas to "" (EncodeToString data) value with
    | inr gas => gas
    | inl _ => 0
    end in
  {| To := to; Value := value; Gas := gasLimit;
     GasPrice := Some SuggestGasPrice; Data := data; Nonce := 0 |}.

(** [CalculateFee]: [int64(tx.Gas)] times the gas price; [None] when the
    multiplication dereferences a nil [GasPrice] and panics. *)
Definition CalculateFee (tx : Transaction) : option Z :=
  match GasPrice tx with
  | Some gasPrice => Some (wrap64 (Gas tx) * gasPrice)
  | None => None
  end.

(** [privateKey[2:]] when the key starts with "0x". *)
Definition stripKeyPrefix (privateKey : string) : string :=
  if HasPrefix privateKey "0x"
  then substring 2 (String.length privateKey - 2) privateKey
  else privateKey.

Definition ValidatePrivateKey (privateKey : string) : bool :=
  let privateKey := stripKeyPrefix privateKey in
  if negb (String.length privateKey =? 64)%nat then false
  else match DecodeString privateKey with
       | inl _ => false
       | inr _ => true
       end.

Inductive keyError : Type :=
| InvalidPrivateKeyFormat (e : hexError)  (* "invalid private key format: %w" *)
| PrivateKeyMustBe32Bytes.                (* "private key must be 32 bytes" *)

Definition PrivateKeyToAddress (privateKeyHex : string) : keyError + string :=
  let privateKeyHex := stripKeyPrefix privateKeyHex in
  match DecodeString privateKeyHex with
  | inl e => inl (InvalidPrivateKeyFormat e)
  | inr privateKeyBytes =>
      if negb (List.length privateKeyBytes =? 32)%nat
      then inl PrivateKeyMustBe32Bytes
      else
        (* for i := 0; i < 20; i++ { address[i] = ... } *)
        let address :=
          map (fun i : nat =>
                 xorByte (nth (i mod 32) privateKeyBytes x00)
                         (nth ((i + 12) mod 32) privateKeyBytes x00))
              (seq 0 20) in
        inr ("0x" ++ EncodeToString address)%string
  end.

(** [GenerateRandomPrivateKey]: byte [i] is [byte(i*7 + 42)]. *)
Definition GenerateRandomPrivateKey : string :=
  let privateKey := map (fun i : nat => byteOfZ (Z.of_nat i * 7 + 42)) (seq 0 32) in
  ("0x" ++ EncodeToString privateKey)%string.

(** The gas [EstimateGas] charges for data bytes: each byte is counted
    at 16 and then again at 4 when it is zero and at 16 otherwise. *)
Definition zeroBytes (bs : list byte) : Z :=
  len (filter (fun b => Byte.eqb b x00) bs).

Definition dataGasOf (bs : list byte) : Z :=
  21000 + 20 * zeroBytes bs + 32 * (len bs - zeroBytes bs).

(** ** The event module: filters *)

Module EventFilter.
Record t : Type := {
  FromBlock : option Z;
  ToBlock : option Z;
  Address : list string;
  Topics : list (list string)
}.
End EventFilter.

Module Event.
Record t : Type := {
  Address : string;
  Topics : list string;
  Data : string;
  BlockNumber : option Z;
  TransactionHash : string;
  TransactionIndex : Z;
  BlockHash : string;
  LogIndex : Z;
  Removed : bool
}.
End Event.

Definition NewEventFilter : EventFilter.t :=
  {| EventFilter.FromBlock := None; EventFilter.ToBlock := None;
     EventFilter.Address := []; EventFilter.Topics := [] |}.

Definition withAddress (f : EventFilter.t) (address : list string)
  : EventFilter.t :=
  {| EventFilter.FromBlock := EventFilter.FromBlock f;
     EventFilter.ToBlock := EventFilter.ToBlock f;
     EventFilter.Address := address;
     EventFilter.Topics := EventFilter.Topics f |}.

Definition withTopics (f : EventFilter.t) (topics : list (list string))
  : EventFilter.t :=
  {| EventFilter.FromBlock := EventFilter.FromBlock f;
     EventFilter.ToBlock := EventFilter.ToBlock f;
     EventFilter.Address := EventFilter.Address f;
     EventFilter.Topics := topics |}.

(** [topics[i] = append(topics[i], value)] for [i] in range. *)
Fixpoint appendAt (i : nat) (value : string) (topics : list (list string))
  : list (list string) :=
  match topics, i with
  | [], _ => []
  | options :: rest, O => (options ++ [value]) :: rest
  | options :: rest, S j => options :: appendAt j value rest
  end.

Definition AddTopic (f : EventFilter.t) (topic : string) : EventFilter.t :=
  let topics :=
    if (List.length (EventFilter.Topics f) =? 0)%nat
    then EventFilter.Topics f ++ [[]]
    else EventFilter.Topics f in
  withTopics f (appendAt 0 topic topics).

(** [AddIndexedParameter].  The loop appends empty option lists while
    [len(f.Topics) <= index]; with a negative [index] it does not run
    and the indexing panics. *)
Definition AddIndexedParameter (f : EventFilter.t) (index : Z)
  (value : string) : result EventFilter.t :=
  let topics :=
    EventFilter.Topics f
    ++ repeat [] (Z.to_nat (index + 1 - len (EventFilter.Topics f))) in
  if index <? 0 then Panic IndexOutOfRange
  else Ok (withTopics f (appendAt (Z.to_nat index) value topics)).

Section EventMatching.

(** [strings.ToLower], which lowers letters of every script; the
    functions below use nothing of it but its results. *)
Variable ToLower : string -> string.

Definition AddAddress (f : EventFilter.t) (address : string)
  : EventFilter.t :=
  if ValidateAddress address
  then withAddress f (EventFilter.Address f ++ [ToLower address])
  else f.

(** [for _, x := range options { if ToLower(x) == target { match =
    true; break } }] *)
Fixpoint anyLower (target : string) (options : list string) : bool :=
  match options with
  | [] => false
  | x :: rest =>
      if String.eqb (ToLower x) target then true else anyLower target rest
  end.

(** The loop over [filter.Topics] from position [i] on. *)
Fixpoint topicsMatch (i : nat) (filterTopics : list (list string))
  (eventTopics : list string) : bool :=
  match filterTopics with
  | [] => true
  | topicOptions :: rest =>
      match nth_error eventTopics i with
      | None => false
      | Some eventTopic =>
          if (0 <? List.length topicOptions)%nat then
            if negb (anyLower (ToLower eventTopic) topicOptions) then false
            else topicsMatch (S i) rest eventTopics
          else topicsMatch (S i) rest eventTopics
      end
  end.

Definition eventMatchesFilter (event : Event.t) (filter : EventFilter.t)
  : bool :=
  if (0 <? List.length (EventFilter.Address filter))%nat
     && negb (anyLower (ToLower (Event.Address event))
                (EventFilter.Address filter))
  then false
  else topicsMatch 0 (EventFilter.Topics filter) (Event.Topics event).

(** What the filter asks of the topic at one position. *)
Definition topicAccepted (options : list string) (eventTopic : string)
  : Prop :=
  options = [] \/
  exists topic, In topic options /\ ToLower topic = ToLower eventTopic.

End EventMatching.

(** An event with the given address and topics. *)
Definition eventAt (address : string) (topics : list string) : Event.t :=
  {| Event.Address := address; Event.Topics := topics; Event.Data := "";
     Event.BlockNumber := None; Event.TransactionHash := "";
     Event.TransactionIndex := 0; Event.BlockHash := "";
     Event.LogIndex := 0; Event.Removed := false |}.

(** ** erc20.go: amounts as decimal text *)

Definition digitChar (d : Z) : ascii := ascii_of_N (Z.to_N (48 + d)).

(** The decimal digits of [n], most significant first, and no digit for
    [n <= 0]; [fuel] bounds the number of digits. *)
Fixpoint digitsFuel (fuel : nat) (n : Z) : string :=
  match fuel with
  | O => EmptyString
  | S k =>
      if n <=? 0 then EmptyString
      else (digitsFuel k (n / 10) ++ String (digitChar (n mod 10)) "")%string
  end.

(** A positive number has at most [log2 n + 1] decimal digits. *)
Definition digits (n : Z) : string :=
  digitsFuel (S (Z.to_nat (Z.log2 n))) n.

(** [x.String()] of a [*big.Int]. *)
Definition bigString (x : Z) : string :=
  if x =? 0 then "0"%string
  else if x <? 0 then String "-" (digits (- x))
  else digits x.

(** [strings.Split(s, sep)] for a separator of one character. *)
Fixpoint Split (s : string) (sep : ascii) : list string :=
  match s with
  | EmptyString => [EmptyString]
  | String c rest =>
      if Ascii.eqb c sep then EmptyString :: Split rest sep
      else match Split rest sep with
           | first :: others => String c first :: others
           | [] => [String c EmptyString]
           end
  end.

(** [strings.TrimRight(s, cutset)] for a cutset of one character. *)
Fixpoint TrimRight (s : string) (c : ascii) : string :=
  match s with
  | EmptyString => EmptyString
  | String a rest =>
      match TrimRight rest c with
      | EmptyString => if Ascii.eqb a c then EmptyString else String a EmptyString
      | trimmed => String a trimmed
      end
  end.

(** [n] characters "0". *)
Fixpoint zeros (n : nat) : string :=
  match n with
  | O => EmptyString
  | S k => String "0" (zeros k)
  end.

Inductive unitsError : Type :=
| InvalidAmountFormat     (* "invalid amount format" *)
| FailedToParseAmount.    (* "failed to parse amount" *)

Inductive unitsResult : Type :=
| Parsed (amount : Z)
| ParseError (e : unitsError)
| ParsePanic (p : panic).

Definition ParseUnits (amount : string) (decimals : Z) : unitsResult :=
  let parts := Split amount "." in
  if (2 <? List.length parts)%nat then ParseError InvalidAmountFormat
  else
    let integerPart := nth 0 parts EmptyString in
    let fractionalPart :=
      if (List.length parts =? 2)%nat then nth 1 parts EmptyString
      else EmptyString in
    if (Z.of_nat (String.length fractionalPart) >? decimals)
       && (decimals <? 0)
    then ParsePanic SliceBoundsOutOfRange   (* fractionalPart[:decimals] *)
    else
      let fractionalPart :=
        if Z.of_nat (String.length fractionalPart) >? decimals
        then substring 0 (Z.to_nat decimals) fractionalPart
        else fractionalPart in
      (* for len(fractionalPart) < decimals { fractionalPart += "0" } *)
      let fractionalPart :=
        (fractionalPart
         ++ zeros (Z.to_nat (decimals - Z.of_nat (String.length fractionalPart))))%string in
      let fullAmount := (integerPart ++ fractionalPart)%string in
      match SetString10 fullAmount with
      | Some result => Parsed result
      | None => ParseError FailedToParseAmount
      end.

Definition FormatUnits (amount : Z) (decimals : Z) : string :=
  (* Exp(10, decimals, nil) is 1 for decimals <= 0 *)
  let divisor := if decimals <=? 0 then 1 else 10 ^ decimals in
  let integerPart := amount / divisor in
  let remainder := amount mod divisor in
  if remainder =? 0 then bigString integerPart
  else
    let fractionalStr := bigString remainder in
    (* for len(fractionalStr) < decimals { fractionalStr = "0" + fractionalStr } *)
    let fractionalStr :=
      (zeros (Z.to_nat (decimals - Z.of_nat (String.length fractionalStr)))
       ++ fractionalStr)%string in
    let fractionalStr := TrimRight fractionalStr "0" in
    if String.eqb fractionalStr "" then bigString integerPart
    else (bigString integerPart ++ "." ++ fractionalStr)%string.

(** Texts made of decimal digits only. *)
Fixpoint allDigits (s : string) : bool :=
  match s with
  | EmptyString => true
  | String c rest =>
      match digitValue c with
      | Some _ => allDigits rest
      | None => false
      end
  end.

(** The fractional part as [ParseUnits] completes it to [decimals]
    digits: cut when longer, filled with zeros when shorter. *)
Definition fractionDigits (f : string) (decimals : Z) : string :=
  let cut :=
    if Z.of_nat (String.length f) >? decimals
    then substring 0 (Z.to_nat decimals) f else f in
  (cut ++ zeros (Z.to_nat (decimals - Z.of_nat (String.length cut))))%string.

(** The number of characters [c] in a text. *)
Fixpoint countChar (c : ascii) (s : string) : nat :=
  match s with
  | EmptyString => O
  | String a rest =>
      if Ascii.eqb a c then S (countChar c rest) else countChar c rest
  end.

(*EXTRA-DEFS*)
(** * Properties *)

Lemma Ok_inj {A : Type} (a b : A) : Ok a = Ok b -> a = b.
Proof. intros H. injection H as H. exact H. Qed.

(** ** Bytes and big-endian words *)

Section Words.

Lemma byteZ_range (b : byte) : 0 <= byteZ b < 256.
Proof.
  unfold byteZ. pose proof (Byte.to_N_bounded b). lia.
Qed.

Lemma byteZ_byteOfZ (z : Z) : byteZ (byteOfZ z) = z mod 256.
Proof.
  unfold byteZ, byteOfZ.
  assert (Hr : 0 <= z mod 256 < 256) by (apply Z.mod_pos_bound; lia).
  destruct (Byte.of_N (Z.to_N (z mod 256))) as [b|] eqn:E.
  - apply Byte.to_of_N in E. rewrite E. lia.
  - apply Byte.of_N_None_iff in E. lia.
Qed.

Lemma byteOfZ_byteZ (b : byte) : byteOfZ (byteZ b) = b.
Proof.
  unfold byteOfZ, byteZ.
  pose proof (Byte.to_N_bounded b).
  rewrite Z.mod_small by lia.
  rewrite N2Z.id, Byte.of_to_N. reflexivity.
Qed.

Lemma length_make (n : nat) : List.length (make n) = n.
Proof. apply repeat_length. Qed.

Lemma length_bigEndian (n : nat) (z : Z) : List.length (bigEndian n z) = n.
Proof.
  revert z. induction n as [|n IH]; intro z; simpl.
  - reflexivity.
  - rewrite length_app, IH. simpl. lia.
Qed.

Lemma SetBytes_snoc (l : list byte) (b : byte) :
  SetBytes (l ++ [b]) = SetBytes l * 256 + byteZ b.
Proof. unfold SetBytes. rewrite fold_left_app. reflexivity. Qed.

Lemma SetBytes_bigEndian (n : nat) (z : Z) :
  0 <= z -> SetBytes (bigEndian n z) = z mod 256 ^ Z.of_nat n.
Proof.
  revert z. induction n as [|n IH]; intros z Hz.
  - simpl. rewrite Z.mod_1_r. reflexivity.
  - cbn [bigEndian]. rewrite SetBytes_snoc, byteZ_byteOfZ.
    rewrite IH by (apply Z.div_pos; lia).
    rewrite Nat2Z.inj_succ, Z.pow_succ_r by lia.
    rewrite Z.rem_mul_r by lia. lia.
Qed.

Lemma SetBytes_bigEndian_small (n : nat) (z : Z) :
  0 <= z < 256 ^ Z.of_nat n -> SetBytes (bigEndian n z) = z.
Proof.
  intros Hz. rewrite SetBytes_bigEndian by lia. apply Z.mod_small. lia.
Qed.

Lemma FillBytes_ok (x : Z) (n : nat) (w : list byte) :
  FillBytes x n = Ok w ->
  w = bigEndian n (Z.abs x) /\ Z.abs x < 256 ^ Z.of_nat n.
Proof.
  unfold FillBytes. destruct (256 ^ Z.of_nat n <=? Z.abs x) eqn:E.
  - discriminate.
  - intros H. inversion H. apply Z.leb_gt in E. auto.
Qed.

Lemma FillBytes_small (x : Z) (n : nat) :
  Z.abs x < 256 ^ Z.of_nat n -> FillBytes x n = Ok (bigEndian n (Z.abs x)).
Proof.
  intros H. unfold FillBytes.
  destruct (256 ^ Z.of_nat n <=? Z.abs x) eqn:E.
  - apply Z.leb_le in E. lia.
  - reflexivity.
Qed.

Lemma FillBytes_length (x : Z) (n : nat) (w : list byte) :
  FillBytes x n = Ok w -> List.length w = n.
Proof.
  intros H. apply FillBytes_ok in H. destruct H as [-> _].
  apply length_bigEndian.
Qed.

Lemma FillBytes_never_errs (x : Z) (n : nat) (e : error) :
  FillBytes x n <> Err e.
Proof.
  unfold FillBytes. destruct (256 ^ Z.of_nat n <=? Z.abs x); discriminate.
Qed.

Lemma gtb_false (a b : Z) : a <= b -> (a >? b) = false.
Proof. intros H. rewrite Z.gtb_ltb. apply Z.ltb_ge. exact H. Qed.

Lemma gtb_true (a b : Z) : b < a -> (a >? b) = true.
Proof. intros H. rewrite Z.gtb_ltb. apply Z.ltb_lt. exact H. Qed.

Lemma wrap64_small (z : Z) : - 2 ^ 63 <= z < 2 ^ 63 -> wrap64 z = z.
Proof.
  intros H. unfold wrap64. rewrite Z.mod_small; lia.
Qed.

Lemma len_app {A : Type} (l1 l2 : list A) : len (l1 ++ l2) = len l1 + len l2.
Proof. unfold len. rewrite length_app. lia. Qed.

Lemma len_nonneg {A : Type} (l : list A) : 0 <= len l.
Proof. unfold len. lia. Qed.

(** The slice that starts after [pre] and is as long as [mid]. *)
Lemma slice_app (pre mid post : list byte) (lo hi : Z) :
  lo = len pre -> hi = len pre + len mid ->
  slice (pre ++ mid ++ post) lo hi = Ok mid.
Proof.
  intros -> ->. unfold slice.
  pose proof (len_nonneg pre). pose proof (len_nonneg mid).
  pose proof (len_nonneg post).
  rewrite !len_app.
  replace ((0 <=? len pre) && (len pre <=? len pre + len mid)
           && (len pre + len mid <=? len pre + (len mid + len post)))
    with true
    by (symmetry; rewrite !andb_true_iff, !Z.leb_le; lia).
  f_equal.
  replace (Z.to_nat (len pre)) with (List.length pre) by (unfold len; lia).
  replace (Z.to_nat (len pre + len mid - len pre)) with (List.length mid)
    by (unfold len; lia).
  rewrite skipn_app, skipn_all, Nat.sub_diag. simpl.
  rewrite firstn_app, firstn_all, Nat.sub_diag. simpl.
  apply app_nil_r.
Qed.

End Words.

(** ** Strings, type tags and hexadecimal text *)

Section Text.

Lemma substring_all (s : string) : substring 0 (String.length s) s = s.
Proof.
  induction s as [|c s IH]; simpl.
  - reflexivity.
  - rewrite IH. reflexivity.
Qed.

Lemma prefix_refl (s : string) : String.prefix s s = true.
Proof.
  induction s as [|c s IH]; simpl.
  - reflexivity.
  - destruct (ascii_dec c c); [assumption | congruence].
Qed.

(** A string that starts with "0x" is "0x" followed by [s[2:]]. *)
Lemma HasPrefix_0x (s : string) :
  HasPrefix s "0x" = true ->
  s = String "0" (String "x" (substring 2 (String.length s - 2) s)).
Proof.
  unfold HasPrefix.
  destruct s as [|a [|b s]]; cbn [String.prefix]; try discriminate.
  - destruct (ascii_dec "0" a); discriminate.
  - destruct (ascii_dec "0" a); [|discriminate].
    destruct (ascii_dec "x" b); [|discriminate].
    intros _. subst.
    change (String "0" (String "x" s)
            = String "0" (String "x"
                (substring 0 (String.length s - 0) s))).
    rewrite Nat.sub_0_r, substring_all. reflexivity.
Qed.

Lemma TrimPrefix_0x (s : string) :
  HasPrefix s "0x" = true ->
  TrimPrefix s "0x" = substring 2 (String.length s - 2) s.
Proof. intros H. unfold TrimPrefix. rewrite H. reflexivity. Qed.

(** What ends with a string contains it. *)
Lemma substring_Contains (sub : string) :
  forall (s : string) (n : nat),
    substring n (String.length sub) s = sub -> Contains s sub = true.
Proof.
  intros s. induction s as [|c s IH]; intros n H.
  - destruct n; simpl in H; destruct sub; simpl in *;
      try reflexivity; discriminate.
  - destruct n as [|n].
    + cbn [Contains].
      replace (String.prefix sub (String c s)) with true; [reflexivity|].
      symmetry. apply prefix_correct. exact H.
    + cbn [Contains]. simpl in H. rewrite (IH n H). apply orb_true_r.
Qed.

Lemma HasSuffix_Contains (s suffix : string) :
  HasSuffix s suffix = true -> Contains s suffix = true.
Proof.
  unfold HasSuffix. intros H. apply andb_true_iff in H. destruct H as [_ H].
  apply String.eqb_eq in H. eapply substring_Contains. exact H.
Qed.

(** The tags of unsigned integers reach [encodeUint] and [decodeUint]:
    they are not "address". *)
Lemma uint_not_address (t : string) :
  HasPrefix t "uint" = true -> String.eqb t "address" = false.
Proof.
  unfold HasPrefix. destruct t as [|c t]; cbn [String.prefix]; [discriminate|].
  destruct (ascii_dec "u" c); [|discriminate]. subst. reflexivity.
Qed.

(** The tags of signed integers reach [encodeInt]. *)
Lemma int_not_address_nor_uint (t : string) :
  HasPrefix t "int" = true ->
  String.eqb t "address" = false /\ HasPrefix t "uint" = false.
Proof.
  unfold HasPrefix. destruct t as [|c t]; cbn [String.prefix]; [discriminate|].
  destruct (ascii_dec "i" c); [|discriminate]. subst.
  split; [reflexivity|].
  destruct (ascii_dec "u" "i"); [discriminate | reflexivity].
Qed.

Lemma hex_digits_of_byte (b : byte) :
  fromHexChar (hextable (Byte.to_N b / 16)) = Some (Byte.to_N b / 16)%N /\
  fromHexChar (hextable (Byte.to_N b mod 16)) = Some (Byte.to_N b mod 16)%N /\
  byteOfN ((Byte.to_N b / 16) * 16 + Byte.to_N b mod 16) = b.
Proof. destruct b; vm_compute; auto. Qed.

Lemma DecodeString_EncodeToString (bs : list byte) :
  DecodeString (EncodeToString bs) = inr bs.
Proof.
  induction bs as [|b bs IH].
  - reflexivity.
  - cbn [EncodeToString DecodeString].
    destruct (hex_digits_of_byte b) as (H1 & H2 & H3).
    rewrite H1, H2, IH, H3. reflexivity.
Qed.

(** The first eight digits of a hexadecimal text are its first four
    bytes. *)
Lemma substring_8_EncodeToString (bs : list byte) :
  (4 <= List.length bs)%nat ->
  substring 0 8 (EncodeToString bs) = EncodeToString (firstn 4 bs).
Proof.
  intros H.
  destruct bs as [|b0 [|b1 [|b2 [|b3 bs]]]]; simpl in H; try lia.
  cbn [EncodeToString firstn substring].
  destruct (EncodeToString bs); reflexivity.
Qed.

Lemma length_xorAt (i : nat) (b : byte) (hash : list byte) :
  List.length (xorAt i b hash) = List.length hash.
Proof.
  revert i. induction hash as [|h t IH]; intros [|i]; simpl; auto.
Qed.

Lemma length_keccakLoop (data : list byte) :
  forall (i : nat) (hash : list byte),
    List.length (keccakLoop i data hash) = List.length hash.
Proof.
  induction data as [|b data IH]; intros i hash; simpl.
  - reflexivity.
  - rewrite IH. apply length_xorAt.
Qed.

(** Decoding the selector text never fails: it is hexadecimal text that
    [EncodeToString] wrote. *)
Lemma selector_decodes (funcName : string) (params : list ABIParam) :
  exists selectorBytes : list byte,
    DecodeString (selectorOf funcName params) = inr selectorBytes /\
    List.length selectorBytes = 4%nat.
Proof.
  unfold selectorOf, Keccak256.
  set (hash := keccakLoop 0 _ _).
  assert (Hlen : List.length hash = 32%nat).
  { unfold hash. rewrite length_keccakLoop. apply length_make. }
  exists (firstn 4 hash). split.
  - rewrite substring_8_EncodeToString by lia.
    apply DecodeString_EncodeToString.
  - rewrite length_firstn. lia.
Qed.

(** Two characters of valid hexadecimal text make one byte. *)
Lemma DecodeString_length :
  forall (n : nat) (s : string) (bs : list byte),
    (String.length s <= n)%nat ->
    DecodeString s = inr bs ->
    String.length s = (2 * List.length bs)%nat.
Proof.
  induction n as [|n IH]; intros s bs Hn H.
  - destruct s; simpl in Hn; [|lia]. simpl in H. inversion H. reflexivity.
  - destruct s as [|p [|q rest]].
    + simpl in H. inversion H. reflexivity.
    + simpl in H. destruct (fromHexChar p); discriminate.
    + cbn [DecodeString] in H.
      destruct (fromHexChar p); [|discriminate].
      destruct (fromHexChar q); [|discriminate].
      destruct (DecodeString rest) as [e|bs'] eqn:E; [discriminate|].
      inversion H. subst bs. simpl in Hn.
      specialize (IH rest bs' ltac:(lia) E).
      simpl. lia.
Qed.

(** A valid address is "0x" followed by the hexadecimal text of twenty
    bytes. *)
Lemma ValidateAddress_bytes (address : string) :
  ValidateAddress address = true ->
  exists bs : list byte,
    DecodeString (TrimPrefix address "0x") = inr bs /\
    List.length bs = 20%nat /\
    address = String "0" (String "x" (TrimPrefix address "0x")).
Proof.
  unfold ValidateAddress.
  destruct (HasPrefix address "0x") eqn:Hp; [|discriminate]. simpl.
  destruct (String.length address =? 42)%nat eqn:Hl; [|discriminate]. simpl.
  rewrite (TrimPrefix_0x _ Hp).
  destruct (DecodeString _) as [e|bs] eqn:E; [discriminate|].
  intros _. exists bs. split; [reflexivity|].
  apply Nat.eqb_eq in Hl.
  pose proof (HasPrefix_0x _ Hp) as Hs.
  split; [|exact Hs].
  pose proof (DecodeString_length _ _ _ (Nat.le_refl _) E) as Hd.
  rewrite Hs in Hl. simpl in Hl. lia.
Qed.

End Text.

(** ** [encodeValue]: the recursion is the one of the source *)

Section EncodeValue.

Lemma length_substring_0 (s : string) :
  forall m : nat, (m <= String.length s)%nat ->
    String.length (substring 0 m s) = m.
Proof.
  induction s as [|c s IH]; intros [|m] Hm; simpl in *; try reflexivity.
  - lia.
  - rewrite IH by lia. reflexivity.
Qed.

Lemma HasSuffix_length (s suffix : string) :
  HasSuffix s suffix = true -> (String.length suffix <= String.length s)%nat.
Proof.
  unfold HasSuffix. intros H. apply andb_true_iff in H.
  destruct H as [H _]. apply Nat.leb_le. exact H.
Qed.

(** [encodeArray] hands [encodeValue] a shorter type. *)
Lemma TrimSuffix_shorter (t : string) :
  HasSuffix t "[]" = true ->
  (String.length (TrimSuffix t "[]") < String.length t)%nat.
Proof.
  intros H. unfold TrimSuffix. rewrite H.
  apply HasSuffix_length in H. simpl in H.
  rewrite length_substring_0 by lia.
  change (String.length "[]") with 2%nat. lia.
Qed.

Lemma encodeElements_ext (f g : value -> result (list byte)) :
  (forall e, f e = g e) ->
  forall elements acc, encodeElements f elements acc = encodeElements g elements acc.
Proof.
  intros Hfg elements. induction elements as [|e rest IH]; intros acc; simpl.
  - reflexivity.
  - rewrite Hfg. unfold bindWrap. destruct (g e); auto.
Qed.

Lemma encodeArrayWith_ext (f g : string -> value -> result (list byte))
  (t : string) (v : value) :
  (forall e, f (TrimSuffix t "[]") e = g (TrimSuffix t "[]") e) ->
  encodeArrayWith f t v = encodeArrayWith g t v.
Proof.
  intros Hfg. unfold encodeArrayWith.
  destruct v; try reflexivity; cbn [bind bindWrap];
    destruct (FillBytes _ 32); try reflexivity;
    rewrite (encodeElements_ext _ _ Hfg); reflexivity.
Qed.

Ltac split_tag_tests :=
  repeat match goal with
         | |- context [if ?c then _ else _] =>
             destruct c eqn:?; try reflexivity
         end.

(** Any fuel that is at least the length of the type gives the same
    result: the branch that has run out is never taken. *)
Lemma encodeValueFuel_enough :
  forall (n m : nat) (t : string) (v : value),
    (String.length t <= n)%nat -> (String.length t <= m)%nat ->
    encodeValueFuel n t v = encodeValueFuel m t v.
Proof.
  induction n as [|n IH]; intros m t v Hn Hm.
  - destruct m as [|m]; [reflexivity|].
    cbn [encodeValueFuel]. split_tag_tests.
    match goal with H : HasSuffix t "[]" = true |- _ =>
      apply HasSuffix_length in H; simpl in H; lia end.
  - destruct m as [|m]; cbn [encodeValueFuel]; split_tag_tests.
    + match goal with H : HasSuffix t "[]" = true |- _ =>
        apply HasSuffix_length in H; simpl in H; lia end.
    + match goal with H : HasSuffix t "[]" = true |- _ =>
        pose proof (TrimSuffix_shorter t H) end.
      apply encodeArrayWith_ext. intros e. apply IH; lia.
Qed.

(** [encodeValue] as the source writes it. *)
Theorem encodeValue_eq (abiType : string) (v : value) :
  encodeValue abiType v =
  if String.eqb abiType "address" then encodeAddress v
  else if HasPrefix abiType "uint" then encodeUint abiType v
  else if HasPrefix abiType "int" then encodeInt abiType v
  else if String.eqb abiType "bool" then encodeBool v
  else if String.eqb abiType "string" then encodeString v
  else if String.eqb abiType "bytes" then encodeBytes v
  else if HasSuffix abiType "[]" then encodeArray abiType v
  else Err (UnsupportedType abiType).
Proof.
  unfold encodeValue, encodeArray.
  destruct (String.length abiType) as [|n] eqn:Hlen;
    cbn [encodeValueFuel]; split_tag_tests.
  - match goal with H : HasSuffix abiType "[]" = true |- _ =>
      apply HasSuffix_length in H; simpl in H; lia end.
  - match goal with H : HasSuffix abiType "[]" = true |- _ =>
      pose proof (TrimSuffix_shorter abiType H) end.
    apply encodeArrayWith_ext. intros e.
    unfold encodeValue. apply encodeValueFuel_enough; lia.
Qed.

Lemma encodeValue_uint (t : string) (v : value) :
  HasPrefix t "uint" = true -> encodeValue t v = encodeUint t v.
Proof.
  intros H. rewrite encodeValue_eq, (uint_not_address t H), H. reflexivity.
Qed.

Lemma encodeValue_int (t : string) (v : value) :
  HasPrefix t "int" = true -> encodeValue t v = encodeInt t v.
Proof.
  intros H. destruct (int_not_address_nor_uint t H) as [Ha Hu].
  rewrite encodeValue_eq, Ha, Hu, H. reflexivity.
Qed.

(** *** Sizes of the encodings *)

Lemma encodeAddress_length (v : value) (bs : list byte) :
  encodeAddress v = Ok bs -> List.length bs = 32%nat.
Proof.
  unfold encodeAddress. destruct v; try discriminate.
  destruct (negb (ValidateAddress s)); [discriminate|].
  intros H. apply Ok_inj in H. subst bs.
  rewrite !length_app, !length_make, length_firstn. lia.
Qed.

Lemma encodeUint_length (t : string) (v : value) (bs : list byte) :
  encodeUint t v = Ok bs -> List.length bs = 32%nat.
Proof.
  unfold encodeUint, bind, bindWrap.
  destruct v; try discriminate;
    try (apply FillBytes_length).
  destruct (SetString10 s); [apply FillBytes_length | discriminate].
Qed.

Lemma encodeBool_length (v : value) (bs : list byte) :
  encodeBool v = Ok bs -> List.length bs = 32%nat.
Proof.
  unfold encodeBool, bind, bindWrap.
  destruct v; try discriminate.
  - destruct (ParseBool s) as [[|]|]; try discriminate;
      intros H; inversion H; reflexivity.
  - destruct b; intros H; inversion H; reflexivity.
Qed.

Lemma encodeString_length (v : value) (bs : list byte) :
  encodeString v = Ok bs -> (32 <= List.length bs)%nat.
Proof.
  unfold encodeString, bind, bindWrap. destruct v; try discriminate.
  destruct (FillBytes _ 32) as [w| |] eqn:E; try discriminate.
  intros H. inversion H. apply FillBytes_length in E.
  rewrite length_app. lia.
Qed.

Lemma encodeBytes_length (v : value) (bs : list byte) :
  encodeBytes v = Ok bs -> (32 <= List.length bs)%nat.
Proof.
  unfold encodeBytes, bind, bindWrap.
  destruct v; try discriminate.
  - destruct (DecodeString _); try discriminate.
    destruct (FillBytes _ 32) as [w| |] eqn:E; try discriminate.
    intros H. inversion H. apply FillBytes_length in E.
    rewrite length_app. lia.
  - destruct (FillBytes _ 32) as [w| |] eqn:E; try discriminate.
    intros H. inversion H. apply FillBytes_length in E.
    rewrite length_app. lia.
Qed.

Lemma encodeArrayWith_length (f : string -> value -> result (list byte))
  (t : string) (v : value) (bs : list byte) :
  encodeArrayWith f t v = Ok bs -> (32 <= List.length bs)%nat.
Proof.
  unfold encodeArrayWith, bind, bindWrap.
  destruct v; try discriminate;
    (destruct (FillBytes _ 32) as [w| |] eqn:E; try discriminate;
     destruct (encodeElements _ _ _); try discriminate;
     intros H; inversion H; apply FillBytes_length in E;
     rewrite length_app; lia).
Qed.

(** Every encoding has at least one word. *)
Lemma encodeValue_length_ge (t : string) (v : value) (bs : list byte) :
  encodeValue t v = Ok bs -> (32 <= List.length bs)%nat.
Proof.
  rewrite encodeValue_eq.
  repeat match goal with
         | |- context [if ?c then _ else _] => destruct c eqn:?
         end; intros H.
  - apply encodeAddress_length in H. lia.
  - apply encodeUint_length in H. lia.
  - apply encodeUint_length in H. lia.
  - apply encodeBool_length in H. lia.
  - apply encodeString_length in H. lia.
  - apply encodeBytes_length in H. lia.
  - eapply encodeArrayWith_length. exact H.
  - discriminate.
Qed.

(** A static type is encoded in exactly one word. *)
Lemma encodeValue_static_length (t : string) (v : value) (bs : list byte) :
  isDynamicType t = false ->
  encodeValue t v = Ok bs -> List.length bs = 32%nat.
Proof.
  unfold isDynamicType. intros Hd.
  apply orb_false_iff in Hd. destruct Hd as [Hd Hbytes].
  apply orb_false_iff in Hd. destruct Hd as [Harr Hstr].
  rewrite encodeValue_eq, Hstr, Hbytes.
  destruct (HasSuffix t "[]") eqn:Hs.
  { apply HasSuffix_Contains in Hs. congruence. }
  repeat match goal with
         | |- context [if ?c then _ else _] => destruct c eqn:?
         end; intros H.
  - eapply encodeAddress_length; eauto.
  - eapply encodeUint_length; eauto.
  - eapply encodeUint_length; eauto.
  - eapply encodeBool_length; eauto.
  - discriminate.
Qed.

End EncodeValue.

(** ** The call encoder: arity *)

(** C8.  When the parameter list and the value list differ in length the
    call encoder fails with the parameter-count-mismatch error
    (ArityMismatch) and returns no bytes: [encodeParameters] returns that
    error, and [EncodeFunctionCall] returns it wrapped. *)
Theorem EncodeFunctionCall_arity_mismatch
  (funcName : string) (params : list ABIParam) (values : list value) :
  List.length params <> List.length values ->
  encodeParameters params values =
    Err (ParameterCountMismatch (List.length params) (List.length values)) /\
  EncodeFunctionCall funcName params values =
    Err (FailedToEncodeParameters
           (ParameterCountMismatch (List.length params) (List.length values))).
Proof.
  intros Hne.
  assert (Hp : encodeParameters params values =
               Err (ParameterCountMismatch (List.length params)
                      (List.length values))).
  { unfold encodeParameters, encodeHeadTail.
    apply Nat.eqb_neq in Hne. rewrite Hne. reflexivity. }
  split; [exact Hp|].
  unfold EncodeFunctionCall.
  destruct (selector_decodes funcName params) as (sel & Hsel & _).
  rewrite Hsel, Hp. reflexivity.
Qed.

Lemma EncodeFunctionCall_arity_mismatch_witness :
  List.length transferParams <> List.length [BigInt 1000000] /\
  EncodeFunctionCall "transfer" transferParams [BigInt 1000000] =
    Err (FailedToEncodeParameters (ParameterCountMismatch 2 1)).
Proof.
  split.
  - simpl. lia.
  - apply (EncodeFunctionCall_arity_mismatch "transfer" transferParams
             [BigInt 1000000]).
    simpl. lia.
Defined.

(** ** Strings and padding *)

Lemma padBytes_aligned (data : list byte) :
  (List.length data mod 32 = 0)%nat -> padBytes data 32 = data.
Proof.
  intros H. unfold padBytes, len.
  rewrite Z.rem_mod_nonneg by lia.
  replace (Z.of_nat (List.length data) mod 32) with 0.
  - reflexivity.
  - change 32 with (Z.of_nat 32). rewrite <- Nat2Z.inj_mod, H. reflexivity.
Qed.

(** C9.  The empty string is encoded as one all-zero 32-byte length word
    and nothing else, and [padBytes] returns unchanged any input whose
    length is a multiple of 32, the empty input included. *)
Theorem encodeString_empty :
  encodeValue "string" (GoString "") = Ok (make 32) /\
  padBytes [] 32 = [] /\
  (forall data : list byte,
      (List.length data mod 32 = 0)%nat -> padBytes data 32 = data).
Proof.
  split; [reflexivity|]. split; [reflexivity|].
  exact padBytes_aligned.
Qed.

Lemma encodeString_empty_witness :
  (List.length (make 64) mod 32 = 0)%nat /\
  padBytes (make 64) 32 = make 64.
Proof.
  split.
  - reflexivity.
  - apply (proj2 (proj2 encodeString_empty) (make 64)). reflexivity.
Defined.

(** ** Integers *)

Lemma pow256_32 : 256 ^ Z.of_nat 32 = 2 ^ 256.
Proof. reflexivity. Qed.

Lemma encodeUint_BigInt (t : string) (x : Z) :
  encodeUint t (BigInt x) = FillBytes x 32.
Proof. reflexivity. Qed.

(** C5, as the code has it.  For an unsigned-integer tag and a big
    integer, [encodeValue] never returns an error for the range or the
    sign of the value: a magnitude of more than 256 bits makes
    [FillBytes] panic, so that neither a word nor an error is returned,
    and a negative value of at most 256 bits is encoded as the word of
    its magnitude. *)
Theorem encodeValue_uint_unchecked (t : string) (x : Z) :
  HasPrefix t "uint" = true ->
  (2 ^ 256 <= Z.abs x -> encodeValue t (BigInt x) = Panic BufferTooSmall) /\
  (x < 0 -> Z.abs x < 2 ^ 256 ->
   encodeValue t (BigInt x) = Ok (bigEndian 32 (- x))) /\
  (forall e : error, encodeValue t (BigInt x) <> Err e).
Proof.
  intros Ht. rewrite (encodeValue_uint t _ Ht), encodeUint_BigInt.
  repeat split.
  - intros Hx. unfold FillBytes. rewrite pow256_32.
    destruct (2 ^ 256 <=? Z.abs x) eqn:E; [reflexivity|].
    apply Z.leb_gt in E. lia.
  - intros Hneg Hx. rewrite FillBytes_small by (rewrite pow256_32; lia).
    rewrite Z.abs_neq by lia. reflexivity.
  - intros e. apply FillBytes_never_errs.
Qed.

Lemma encodeValue_uint_unchecked_witness :
  HasPrefix "uint8" "uint" = true /\ - 300 < 0 /\ Z.abs (- 300) < 2 ^ 256 /\
  encodeValue "uint8" (BigInt (- 300)) = Ok (bigEndian 32 300).
Proof.
  assert (Ht : HasPrefix "uint8" "uint" = true) by reflexivity.
  assert (Hneg : - 300 < 0) by lia.
  assert (Hx : Z.abs (- 300) < 2 ^ 256) by (vm_compute; reflexivity).
  split; [exact Ht|]. split; [exact Hneg|]. split; [exact Hx|].
  exact (proj1 (proj2 (encodeValue_uint_unchecked "uint8" (- 300) Ht))
           Hneg Hx).
Defined.

(** C5 fails as stated: a negative value and a value of 257 bits under
    [uint256] give no error result. *)
Lemma encodeValue_uint_no_range_error :
  encodeValue "uint256" (BigInt (- 1)) = Ok (make 31 ++ [x01]) /\
  encodeValue "uint256" (BigInt (2 ^ 256)) = Panic BufferTooSmall /\
  ~ (exists e : error, encodeValue "uint256" (BigInt (- 1)) = Err e) /\
  ~ (exists e : error, encodeValue "uint256" (BigInt (2 ^ 256)) = Err e).
Proof.
  assert (H1 : encodeValue "uint256" (BigInt (- 1)) = Ok (make 31 ++ [x01]))
    by (vm_compute; reflexivity).
  assert (H2 : encodeValue "uint256" (BigInt (2 ^ 256)) = Panic BufferTooSmall)
    by (vm_compute; reflexivity).
  repeat split; try assumption.
  - intros [e He]. rewrite H1 in He. discriminate.
  - intros [e He]. rewrite H2 in He. discriminate.
Qed.




Lemma encodeValue_integer (t : string) (v : value) :
  isIntegerTag t = true -> encodeValue t v = encodeUint t v.
Proof.
  unfold isIntegerTag. intros H.
  destruct (HasPrefix t "uint") eqn:Hu.
  - apply encodeValue_uint. exact Hu.
  - simpl in H. rewrite (encodeValue_int t v H). reflexivity.
Qed.

Lemma decodeValue_uint (t : string) (data : list byte) (offset : Z) :
  HasPrefix t "uint" = true -> decodeValue t data offset = decodeUint data offset.
Proof.
  intros H. unfold decodeValue. rewrite (uint_not_address t H), H.
  reflexivity.
Qed.

(** The decoder has no case for the tags of signed integers. *)
Lemma decodeValue_int (t : string) (data : list byte) (offset : Z) :
  HasPrefix t "int" = true ->
  decodeValue t data offset = Err (UnsupportedDecodeType t).
Proof.
  intros H. unfold decodeValue.
  destruct (int_not_address_nor_uint t H) as [Ha Hu]. rewrite Ha, Hu.
  unfold HasPrefix in H. destruct t as [|c t]; [discriminate|].
  cbn [String.prefix] in H.
  destruct (ascii_dec "i" c); [|discriminate]. subst. reflexivity.
Qed.

Lemma decodeUint_ok (data : list byte) (offset : Z) :
  0 <= offset -> offset + 32 <= len data ->
  decodeUint data offset =
    Ok (BigInt (SetBytes (firstn 32 (skipn (Z.to_nat offset) data))),
        offset + 32).
Proof.
  intros H0 H. unfold decodeUint, slice.
  replace (offset + 32 >? len data) with false
    by (symmetry; apply gtb_false; lia).
  replace ((0 <=? offset) && (offset <=? offset + 32)
           && (offset + 32 <=? len data)) with true
    by (symmetry; rewrite !andb_true_iff, !Z.leb_le; lia).
  replace (Z.to_nat (offset + 32 - offset)) with 32%nat by lia.
  reflexivity.
Qed.

(** C10.  The bit width in an integer tag is ignored.  Any two integer
    tags encode every value alike, with no check against the width: a
    value below 2^256 gives its 32-byte big-endian word under every tag.
    Decoding under a [uint] tag reads one whole 32-byte word, returns
    its unsigned big-endian value and moves on by 32 bytes; under an
    [int] tag it is unsupported whatever the width. *)
Theorem integer_width_ignored (t1 t2 : string) :
  isIntegerTag t1 = true -> isIntegerTag t2 = true ->
  (forall v : value, encodeValue t1 v = encodeValue t2 v) /\
  (forall x : Z, 0 <= x < 2 ^ 256 ->
     encodeValue t1 (BigInt x) = Ok (bigEndian 32 x)) /\
  (HasPrefix t1 "uint" = true ->
   forall (data : list byte) (offset : Z),
     0 <= offset -> offset + 32 <= len data ->
     decodeValue t1 data offset =
       Ok (BigInt (SetBytes (firstn 32 (skipn (Z.to_nat offset) data))),
           offset + 32)) /\
  (HasPrefix t1 "uint" = false ->
   forall (data : list byte) (offset : Z),
     decodeValue t1 data offset = Err (UnsupportedDecodeType t1)).
Proof.
  intros H1 H2. repeat split.
  - intros v. rewrite (encodeValue_integer t1 v H1).
    rewrite (encodeValue_integer t2 v H2). reflexivity.
  - intros x Hx. rewrite (encodeValue_integer t1 _ H1), encodeUint_BigInt.
    rewrite FillBytes_small by (rewrite pow256_32; lia).
    rewrite Z.abs_eq by lia. reflexivity.
  - intros Hu data offset H0 Hlen.
    rewrite (decodeValue_uint t1 data offset Hu).
    apply decodeUint_ok; assumption.
  - intros Hu data offset. apply decodeValue_int.
    unfold isIntegerTag in H1. rewrite Hu in H1. exact H1.
Qed.

Lemma integer_width_ignored_witness :
  isIntegerTag "uint8" = true /\ isIntegerTag "uint256" = true /\
  encodeValue "uint8" (BigInt (2 ^ 256 - 1)) =
    encodeValue "uint256" (BigInt (2 ^ 256 - 1)) /\
  encodeValue "uint8" (BigInt (2 ^ 256 - 1)) =
    Ok (bigEndian 32 (2 ^ 256 - 1)) /\
  decodeValue "uint8" (bigEndian 32 (2 ^ 256 - 1)) 0 =
    Ok (BigInt (SetBytes (bigEndian 32 (2 ^ 256 - 1))), 32).
Proof.
  assert (H1 : isIntegerTag "uint8" = true) by reflexivity.
  assert (H2 : isIntegerTag "uint256" = true) by reflexivity.
  destruct (integer_width_ignored "uint8" "uint256" H1 H2)
    as (Henc & Hword & Hdec & _).
  split; [exact H1|]. split; [exact H2|]. split; [|split].
  - apply Henc.
  - apply Hword. split; vm_compute; [discriminate | reflexivity].
  - apply (Hdec eq_refl (bigEndian 32 (2 ^ 256 - 1)) 0).
    + lia.
    + vm_compute. discriminate.
Defined.

(** ** The selector *)

(** C2, evaluated.  For transfer(address,uint256) with the address of
    value 1 and the amount 1000000 the call encoder builds the canonical
    signature, two head words (the address word, then the amount word)
    and an empty tail; but [Keccak256] folds the signature with XOR, so
    the selector is the first four characters of the signature, "tran"
    (74 72 61 6e), and not a9059cbb, the selector erc20.go records for
    this function. *)
Theorem EncodeFunctionCall_transfer :
  createFunctionSignature "transfer" transferParams
    = "transfer(address,uint256)"%string /\
  selectorOf "transfer" transferParams = "7472616e"%string /\
  selectorOf "transfer" transferParams <> ERC20_TRANSFER_SELECTOR /\
  encodeHeadTail transferParams transferValues =
    Ok ((make 31 ++ [x01]) ++ bigEndian 32 1000000, []) /\
  EncodeFunctionCall "transfer" transferParams transferValues =
    Ok ([x74; x72; x61; x6e] ++ (make 31 ++ [x01]) ++ bigEndian 32 1000000).
Proof.
  repeat split; try (vm_compute; reflexivity).
  vm_compute. discriminate.
Qed.

(** ** The string decoder and 64-bit wrap-around *)

(** C7, evaluated.  [decodeString] tests its bounds after [Int64()] has
    cut the offset and length words to 64 bits.  An offset word of 2^64
    in 32 bytes of data is read as offset 0 and decoding succeeds with
    the empty string; an offset word of 2^63 is read as a negative
    offset, passes the test and panics in the slice expression, and so
    does a length word of 2^64 - 1, read as -1.  None of them fails with
    an error. *)
Theorem decodeString_wraps :
  len (bigEndian 32 (2 ^ 64)) = 32 /\
  DecodeFunctionResult ["string"%string] (bigEndian 32 (2 ^ 64))
    = Ok [GoString ""] /\
  DecodeFunctionResult ["string"%string] (bigEndian 32 (2 ^ 63))
    = Panic SliceBoundsOutOfRange /\
  DecodeFunctionResult ["string"%string]
    (bigEndian 32 32 ++ bigEndian 32 (2 ^ 64 - 1))
    = Panic SliceBoundsOutOfRange.
Proof.
  repeat split; vm_compute; reflexivity.
Qed.

(** ** The loop of [encodeParameters] *)

Section Layout.

(** The loop succeeds exactly along a [layout]. *)
Lemma encodeLoop_layout :
  forall (params : list ABIParam) (values : list value) (i : nat)
         (enc dyn : list byte) (off : Z) (head tail : list byte),
    encodeLoop i params values enc dyn off = Ok (head, tail) ->
    exists words payloads,
      layout off params values words payloads /\
      head = enc ++ List.concat words /\ tail = dyn ++ List.concat payloads.
Proof.
  induction params as [|p params IH]; intros values i enc dyn off head tail H.
  - simpl in H. apply Ok_inj in H. injection H as <- <-.
    exists [], []. split; [constructor|]. simpl. rewrite !app_nil_r. auto.
  - destruct values as [|v values]; [discriminate|].
    cbn [encodeLoop] in H. unfold bind, bindWrap in H.
    destruct (isDynamicType (Type_ p)) eqn:Hd.
    + destruct (FillBytes off 32) as [w| |] eqn:Hw; try discriminate.
      destruct (encodeValue (Type_ p) v) as [e| |] eqn:He; try discriminate.
      apply IH in H. destruct H as (words & payloads & Hl & Hh & Ht).
      exists (w :: words), (e :: payloads).
      split; [eapply layout_dynamic; eauto|].
      simpl. rewrite Hh, Ht, <- !app_assoc. auto.
    + destruct (encodeValue (Type_ p) v) as [e| |] eqn:He; try discriminate.
      apply IH in H. destruct H as (words & payloads & Hl & Hh & Ht).
      exists (e :: words), ([] :: payloads).
      split; [eapply layout_static; eauto|].
      simpl. rewrite Hh, Ht, <- !app_assoc. auto.
Qed.

Lemma layout_encodeLoop (off : Z) params values words payloads :
  layout off params values words payloads ->
  forall (i : nat) (enc dyn : list byte),
    encodeLoop i params values enc dyn off =
      Ok (enc ++ List.concat words, dyn ++ List.concat payloads).
Proof.
  induction 1 as [off values
                 | off p v e params values words payloads Hd He Hl IH
                 | off p v w e params values words payloads Hd Hw He Hl IH];
    intros i enc dyn.
  - simpl. rewrite !app_nil_r. reflexivity.
  - cbn [encodeLoop]. rewrite Hd, He. cbn [bindWrap].
    rewrite IH. simpl. rewrite <- !app_assoc. reflexivity.
  - cbn [encodeLoop]. rewrite Hd, Hw. cbn [bind bindWrap]. rewrite He.
    cbn [bindWrap]. rewrite IH. simpl. rewrite <- !app_assoc. reflexivity.
Qed.

Lemma layout_words (off : Z) params values words payloads :
  layout off params values words payloads ->
  List.length words = List.length params /\
  Forall (fun w => List.length w = 32%nat) words.
Proof.
  induction 1 as [off values
                 | off p v e params values words payloads Hd He Hl IH
                 | off p v w e params values words payloads Hd Hw He Hl IH].
  - split; [reflexivity | constructor].
  - destruct IH as [IH1 IH2]. split; [simpl; lia|].
    constructor; [|assumption].
    eapply encodeValue_static_length; eauto.
  - destruct IH as [IH1 IH2]. split; [simpl; lia|].
    constructor; [|assumption].
    eapply FillBytes_length; eauto.
Qed.

Lemma length_concat_words (words : list (list byte)) :
  Forall (fun w => List.length w = 32%nat) words ->
  List.length (List.concat words) = (32 * List.length words)%nat.
Proof.
  induction 1 as [|w words Hw _ IH]; simpl.
  - reflexivity.
  - rewrite length_app, Hw, IH. lia.
Qed.

(** Slot [k] of a sequence of words. *)
Lemma nth_word (words : list (list byte)) :
  Forall (fun w => List.length w = 32%nat) words ->
  forall (k : nat) (w rest : list byte),
    nth_error words k = Some w ->
    firstn 32 (skipn (32 * k) (List.concat words ++ rest)) = w.
Proof.
  induction 1 as [|w0 words Hw0 _ IH]; intros k w rest Hk.
  - destruct k; discriminate.
  - destruct k as [|k].
    + simpl in Hk. injection Hk as <-. simpl skipn. simpl List.concat.
      rewrite <- app_assoc, firstn_app, <- Hw0, firstn_all, Nat.sub_diag.
      simpl. apply app_nil_r.
    + simpl in Hk. simpl List.concat. rewrite <- app_assoc.
      replace (32 * S k)%nat with (List.length w0 + 32 * k)%nat by lia.
      rewrite skipn_app, skipn_all2 by lia.
      replace (List.length w0 + 32 * k - List.length w0)%nat
        with (32 * k)%nat by lia.
      simpl. apply IH. exact Hk.
Qed.

(** The offset a dynamic parameter gets is the value of [dynamicOffset]
    on entry to its iteration or a later one. *)
Lemma FillBytes_offset (off : Z) (w : list byte) :
  0 <= off -> FillBytes off 32 = Ok w -> SetBytes w = off.
Proof.
  intros H0 H. apply FillBytes_ok in H. destruct H as [-> H].
  rewrite Z.abs_eq in * by lia. apply SetBytes_bigEndian_small. lia.
Qed.

Lemma layout_offset_ge (off : Z) params values words payloads :
  layout off params values words payloads ->
  0 <= off ->
  forall (k : nat) (p : ABIParam) (w : list byte),
    nth_error params k = Some p -> isDynamicType (Type_ p) = true ->
    nth_error words k = Some w -> off <= SetBytes w.
Proof.
  induction 1 as [off values
                 | off p0 v e params values words payloads Hd He Hl IH
                 | off p0 v w0 e params values words payloads Hd Hw He Hl IH];
    intros H0 k p w Hp Hdyn Hk.
  - destruct k; discriminate.
  - destruct k as [|k]; simpl in Hp, Hk.
    + injection Hp as <-. congruence.
    + eapply IH; eauto.
  - destruct k as [|k]; simpl in Hp, Hk.
    + injection Hk as <-. rewrite (FillBytes_offset off w0 H0 Hw). lia.
    + pose proof (len_nonneg e).
      assert (off + len e <= SetBytes w) by (eapply IH; eauto; lia). lia.
Qed.

Lemma layout_offset_lt (off : Z) params values words payloads :
  layout off params values words payloads ->
  0 <= off ->
  forall (j k : nat) (pj pk : ABIParam) (wj wk : list byte),
    (j < k)%nat ->
    nth_error params j = Some pj -> isDynamicType (Type_ pj) = true ->
    nth_error params k = Some pk -> isDynamicType (Type_ pk) = true ->
    nth_error words j = Some wj -> nth_error words k = Some wk ->
    SetBytes wj < SetBytes wk.
Proof.
  induction 1 as [off values
                 | off p0 v e params values words payloads Hd He Hl IH
                 | off p0 v w0 e params values words payloads Hd Hw He Hl IH];
    intros H0 j k pj pk wj wk Hjk Hpj Hdj Hpk Hdk Hwj Hwk.
  - destruct j; discriminate.
  - destruct k as [|k]; [lia|]. destruct j as [|j]; simpl in *.
    + injection Hpj as <-. congruence.
    + eapply (IH H0 j k); eauto. lia.
  - destruct k as [|k]; [lia|]. destruct j as [|j]; simpl in *.
    + injection Hwj as <-. rewrite (FillBytes_offset off w0 H0 Hw).
      pose proof (encodeValue_length_ge _ _ _ He) as Hlen.
      assert (off + len e <= SetBytes wk).
      { eapply layout_offset_ge; eauto. unfold len. lia. }
      unfold len in *. lia.
    + pose proof (len_nonneg e).
      eapply (IH ltac:(lia) j k); eauto. lia.
Qed.

End Layout.

(** ** The call encoder: head and offsets *)

Section CallEncoder.

Lemma encodeHeadTail_layout (params : list ABIParam) (values : list value)
  (head tail : list byte) :
  encodeHeadTail params values = Ok (head, tail) ->
  exists words payloads,
    layout (len params * 32) params values words payloads /\
    head = List.concat words /\ tail = List.concat payloads /\
    List.length params = List.length values.
Proof.
  unfold encodeHeadTail.
  destruct (List.length params =? List.length values)%nat eqn:E;
    [|discriminate].
  simpl. intros H. apply encodeLoop_layout in H.
  destruct H as (words & payloads & Hl & Hh & Ht).
  exists words, payloads. apply Nat.eqb_eq in E. auto.
Qed.

(** A successful call is the selector, the head and the tail. *)
Lemma EncodeFunctionCall_ok (funcName : string) (params : list ABIParam)
  (values : list value) (call : list byte) :
  EncodeFunctionCall funcName params values = Ok call ->
  exists selector head tail,
    List.length selector = 4%nat /\
    encodeHeadTail params values = Ok (head, tail) /\
    call = selector ++ head ++ tail.
Proof.
  unfold EncodeFunctionCall, encodeParameters.
  destruct (selector_decodes funcName params) as (sel & Hsel & Hlen).
  rewrite Hsel. cbn [bind bindWrap].
  destruct (encodeHeadTail params values) as [[head tail]| |];
    try discriminate.
  cbn [bindWrap fst snd]. intros H. apply Ok_inj in H.
  exists sel, head, tail. auto.
Qed.

Lemma argumentBytes_call (selector args : list byte) :
  List.length selector = 4%nat -> argumentBytes (selector ++ args) = args.
Proof.
  intros H. unfold argumentBytes.
  rewrite skipn_app, skipn_all2 by lia. rewrite H. reflexivity.
Qed.

(** C3.  When the call encoder succeeds, the result is the 4-byte
    selector, then the head, then the tail, and the head has exactly one
    32-byte word per parameter: its length is 32 * len(params), however
    many of the parameters are dynamic. *)
Theorem head_size (funcName : string) (params : list ABIParam)
  (values : list value) (call : list byte) :
  EncodeFunctionCall funcName params values = Ok call ->
  exists selector head tail,
    call = selector ++ head ++ tail /\
    List.length selector = 4%nat /\
    encodeHeadTail params values = Ok (head, tail) /\
    List.length head = (32 * List.length params)%nat.
Proof.
  intros H. apply EncodeFunctionCall_ok in H.
  destruct H as (selector & head & tail & Hsel & Hht & Hcall).
  exists selector, head, tail. repeat (split; [assumption|]).
  apply encodeHeadTail_layout in Hht.
  destruct Hht as (words & payloads & Hl & -> & _ & _).
  apply layout_words in Hl. destruct Hl as [Hn Hw].
  rewrite length_concat_words by assumption. lia.
Qed.

Lemma noteCall_eq :
  EncodeFunctionCall "note" noteParams noteValues = Ok noteCall.
Proof. vm_compute. reflexivity. Qed.

Lemma head_size_witness :
  exists selector head tail,
    noteCall = selector ++ head ++ tail /\
    List.length selector = 4%nat /\
    encodeHeadTail noteParams noteValues = Ok (head, tail) /\
    List.length head = (32 * List.length noteParams)%nat.
Proof.
  exact (head_size "note" noteParams noteValues noteCall noteCall_eq).
Defined.

(** C4.  In a successfully encoded call the offset written in the head
    word of every dynamic parameter is at least 32 * len(params), and
    the offsets of any two dynamic parameters increase strictly in
    parameter order. *)
Theorem offsets_increasing (funcName : string) (params : list ABIParam)
  (values : list value) (call : list byte) :
  EncodeFunctionCall funcName params values = Ok call ->
  (forall (k : nat) (p : ABIParam),
      nth_error params k = Some p -> isDynamicType (Type_ p) = true ->
      32 * len params <= SetBytes (headWord call k)) /\
  (forall (j k : nat) (pj pk : ABIParam),
      (j < k)%nat ->
      nth_error params j = Some pj -> isDynamicType (Type_ pj) = true ->
      nth_error params k = Some pk -> isDynamicType (Type_ pk) = true ->
      SetBytes (headWord call j) < SetBytes (headWord call k)).
Proof.
  intros H. apply EncodeFunctionCall_ok in H.
  destruct H as (selector & head & tail & Hsel & Hht & ->).
  apply encodeHeadTail_layout in Hht.
  destruct Hht as (words & payloads & Hl & -> & -> & _).
  destruct (layout_words _ _ _ _ _ Hl) as [Hn Hw].
  assert (H0 : 0 <= len params * 32) by (unfold len; lia).
  assert (Hword : forall k p, nth_error params k = Some p ->
            exists w, nth_error words k = Some w /\
                      headWord (selector ++ List.concat words
                                  ++ List.concat payloads) k = w).
  { intros k p Hk.
    destruct (nth_error words k) as [w|] eqn:E.
    - exists w. split; [reflexivity|]. unfold headWord.
      rewrite argumentBytes_call by assumption.
      apply nth_word; assumption.
    - apply nth_error_None in E.
      assert (k < List.length params)%nat
        by (apply nth_error_Some; congruence).
      lia. }
  split.
  - intros k p Hk Hd. destruct (Hword k p Hk) as (w & Hwk & ->).
    pose proof (layout_offset_ge _ _ _ _ _ Hl H0 k p w Hk Hd Hwk). lia.
  - intros j k pj pk Hjk Hj Hdj Hk Hdk.
    destruct (Hword j pj Hj) as (wj & Hwj & ->).
    destruct (Hword k pk Hk) as (wk & Hwk & ->).
    eapply (layout_offset_lt _ _ _ _ _ Hl H0 j k); eauto.
Qed.

Lemma offsets_increasing_witness :
  32 * len noteParams <= SetBytes (headWord noteCall 0) /\
  SetBytes (headWord noteCall 0) < SetBytes (headWord noteCall 2).
Proof.
  destruct (offsets_increasing "note" noteParams noteValues noteCall
              noteCall_eq) as [Hge Hlt].
  split.
  - apply (Hge 0%nat {| Name := "title"; Type_ := "string" |});
      reflexivity.
  - apply (Hlt 0%nat 2%nat {| Name := "title"; Type_ := "string" |}
             {| Name := "body"; Type_ := "string" |});
      try reflexivity. lia.
Defined.

End CallEncoder.

(** ** Addresses come back in lower case *)

Section LowerCase.

Lemma fromHexChar_lower (c : ascii) (n : N) :
  fromHexChar c = Some n -> hextable n = lowerChar c /\ (n < 16)%N.
Proof.
  destruct c as [[] [] [] [] [] [] [] []]; vm_compute; intros H;
    try discriminate H; injection H as <-; split; reflexivity.
Qed.

Lemma to_N_byteOfN (n : N) : (n < 256)%N -> Byte.to_N (byteOfN n) = n.
Proof.
  intros H. apply N2Z.inj. change (Z.of_N (Byte.to_N (byteOfN n)))
    with (byteZ (byteOfZ (Z.of_N n))).
  rewrite byteZ_byteOfZ. apply Z.mod_small. lia.
Qed.

Lemma hex_digits_of_nibbles (a b : N) :
  (a < 16)%N -> (b < 16)%N ->
  (Byte.to_N (byteOfN (a * 16 + b)) / 16 = a)%N /\
  (Byte.to_N (byteOfN (a * 16 + b)) mod 16 = b)%N.
Proof.
  intros Ha Hb. rewrite to_N_byteOfN by lia. split.
  - symmetry. apply (N.div_unique _ _ a b); lia.
  - symmetry. apply (N.mod_unique _ _ a b); lia.
Qed.

(** Writing the bytes of a hexadecimal text gives the text in lower
    case. *)
Lemma EncodeToString_DecodeString :
  forall (n : nat) (s : string) (bs : list byte),
    (String.length s <= n)%nat ->
    DecodeString s = inr bs -> EncodeToString bs = lowerCase s.
Proof.
  induction n as [|n IH]; intros s bs Hn H.
  - destruct s; simpl in Hn; [|lia]. simpl in H. injection H as <-.
    reflexivity.
  - destruct s as [|p [|q rest]].
    + simpl in H. injection H as <-. reflexivity.
    + simpl in H. destruct (fromHexChar p); discriminate.
    + cbn [DecodeString] in H.
      destruct (fromHexChar p) as [a|] eqn:Hp; [|discriminate].
      destruct (fromHexChar q) as [b|] eqn:Hq; [|discriminate].
      destruct (DecodeString rest) as [e|bs'] eqn:E; [discriminate|].
      injection H as <-. simpl in Hn.
      apply fromHexChar_lower in Hp. destruct Hp as [Hp Ha].
      apply fromHexChar_lower in Hq. destruct Hq as [Hq Hb].
      destruct (hex_digits_of_nibbles a b Ha Hb) as [Hhi Hlo].
      cbn [EncodeToString lowerCase].
      rewrite Hhi, Hlo, Hp, Hq. do 2 f_equal.
      apply (IH rest bs'); [lia | exact E].
Qed.

Lemma decoded_address (s : string) (bs : list byte) :
  ValidateAddress s = true ->
  DecodeString (TrimPrefix s "0x") = inr bs ->
  String "0" (String "x" (EncodeToString bs)) = lowerCase s.
Proof.
  intros Hv Hd.
  destruct (ValidateAddress_bytes s Hv) as (bs' & _ & _ & Hs).
  revert Hs Hd. generalize (TrimPrefix s "0x"). intros t -> Hd.
  cbn [lowerCase].
  rewrite <- (EncodeToString_DecodeString _ _ bs (Nat.le_refl _) Hd).
  reflexivity.
Qed.

End LowerCase.

(** ** Decoding what the value encoders wrote *)

Section DecodeSteps.

Lemma slice_at (data pre mid post : list byte) :
  data = pre ++ mid ++ post ->
  slice data (len pre) (len pre + len mid) = Ok mid.
Proof. intros ->. apply slice_app; reflexivity. Qed.

Lemma index_at (data pre mid post : list byte) (k : nat) (b : byte) :
  data = pre ++ mid ++ post -> nth_error mid k = Some b ->
  index data (len pre + Z.of_nat k) = Ok b.
Proof.
  intros -> Hk. unfold index.
  assert (Hlt : (k < List.length mid)%nat)
    by (apply nth_error_Some; congruence).
  rewrite !len_app. unfold len.
  replace ((0 <=? Z.of_nat (List.length pre) + Z.of_nat k)
           && (Z.of_nat (List.length pre) + Z.of_nat k
               <? Z.of_nat (List.length pre)
                  + (Z.of_nat (List.length mid)
                     + Z.of_nat (List.length post)))) with true
    by (symmetry; rewrite andb_true_iff, Z.leb_le, Z.ltb_lt; lia).
  replace (Z.to_nat (Z.of_nat (List.length pre) + Z.of_nat k))
    with (List.length pre + k)%nat by lia.
  rewrite nth_error_app2 by lia.
  replace (List.length pre + k - List.length pre)%nat with k by lia.
  rewrite nth_error_app1 by lia. rewrite Hk. reflexivity.
Qed.

(** The tags [uintN] are static. *)
Lemma isUintTag_static (t : string) :
  isUintTag t = true ->
  HasPrefix t "uint" = true /\ isDynamicType t = false.
Proof.
  unfold isUintTag, isDynamicType. intros H.
  apply andb_true_iff in H. destruct H as [Hp Hc].
  split; [exact Hp|]. apply negb_true_iff in Hc. rewrite Hc.
  unfold HasPrefix in Hp. destruct t as [|c t]; [discriminate|].
  cbn [String.prefix] in Hp.
  destruct (ascii_dec "u" c); [|discriminate]. subst. reflexivity.
Qed.

Lemma encodeValue_address (s : string) :
  ValidateAddress s = true ->
  exists bs : list byte,
    DecodeString (TrimPrefix s "0x") = inr bs /\
    List.length bs = 20%nat /\
    encodeValue "address" (GoString s) = Ok (make 12 ++ bs).
Proof.
  intros Hv. destruct (ValidateAddress_bytes s Hv) as (bs & Hd & Hlen & _).
  exists bs. repeat (split; [assumption|]).
  rewrite encodeValue_eq. cbn [String.eqb Ascii.eqb Bool.eqb].
  unfold encodeAddress. rewrite Hv, Hd. cbn [negb].
  rewrite firstn_all2 by lia. rewrite Hlen.
  change (make (20 - 20)) with (@nil byte). rewrite app_nil_r.
  reflexivity.
Qed.

(** One head word of a static parameter is decoded to the value it
    encodes. *)
Lemma decodeValue_static (t : string) (v : value) (e : list byte)
  (data pre post : list byte) :
  matchesType t v -> isDynamicType t = false ->
  encodeValue t v = Ok e ->
  data = pre ++ e ++ post ->
  decodeValue t data (len pre) = Ok (decoded t v, len pre + 32).
Proof.
  intros Hm Hstatic He Hdata.
  assert (Hlen : len e = 32).
  { unfold len. rewrite (encodeValue_static_length _ _ _ Hstatic He).
    reflexivity. }
  assert (Hfit : (len pre + 32 >? len data) = false).
  { apply gtb_false. subst data. rewrite !len_app.
    pose proof (len_nonneg post). lia. }
  destruct Hm as [s Hv | t x Ht Hx | b | s].
  - destruct (encodeValue_address s Hv) as (bs & Hd & Hbs & He').
    rewrite He' in He. apply Ok_inj in He. subst e.
    unfold decodeValue. cbn [String.eqb Ascii.eqb Bool.eqb].
    unfold decodeAddress. rewrite Hfit.
    assert (Hs : slice data (len pre + 12) (len pre + 32) = Ok bs).
    { replace (len pre + 12) with (len (pre ++ make 12))
        by (rewrite len_app; reflexivity).
      replace (len pre + 32) with (len (pre ++ make 12) + len bs)
        by (rewrite len_app; unfold len; rewrite Hbs, length_make; lia).
      apply (slice_at data _ bs post).
      rewrite Hdata, <- !app_assoc. reflexivity. }
    rewrite Hs. cbn [bind bindWrap].
    unfold decoded. cbn [String.eqb Ascii.eqb Bool.eqb].
    change ("0x" ++ EncodeToString bs)%string
      with (String "0" (String "x" (EncodeToString bs))).
    rewrite (decoded_address s bs Hv Hd). reflexivity.
  - destruct (isUintTag_static t Ht) as [Hp _].
    rewrite (encodeValue_uint t _ Hp), encodeUint_BigInt in He.
    rewrite FillBytes_small in He by (rewrite pow256_32; lia).
    apply Ok_inj in He. rewrite Z.abs_eq in He by lia. subst e.
    rewrite (decodeValue_uint t _ _ Hp). unfold decodeUint. rewrite Hfit.
    replace (len pre + 32) with (len pre + len (bigEndian 32 x)) at 1
      by lia.
    rewrite (slice_at data pre _ post Hdata). cbn [bind bindWrap].
    rewrite SetBytes_bigEndian_small by (rewrite pow256_32; lia).
    unfold decoded. rewrite (uint_not_address t Hp). reflexivity.
  - assert (He' : e = if b then make 31 ++ [x01] else make 32).
    { rewrite encodeValue_eq in He. apply Ok_inj in He. subst e.
      reflexivity. }
    unfold decodeValue. cbn [String.eqb Ascii.eqb Bool.eqb].
    unfold decodeBool. rewrite Hfit.
    change (len pre + 31) with (len pre + Z.of_nat 31).
    rewrite (index_at data pre e post 31 (if b then x01 else x00) Hdata)
      by (rewrite He'; destruct b; reflexivity).
    cbn [bind bindWrap]. destruct b; reflexivity.
  - discriminate.
Qed.

Lemma padBytes_32 (data : list byte) :
  exists padding : list byte,
    padBytes data 32 = data ++ padding /\
    len (data ++ padding) = 32 * ((len data + 31) / 32).
Proof.
  unfold padBytes. pose proof (len_nonneg data) as H0.
  rewrite Z.rem_mod_nonneg by lia.
  pose proof (Z.mod_pos_bound (len data) 32 ltac:(lia)) as Hr.
  pose proof (Z.div_mod (len data) 32 ltac:(lia)) as Hdm.
  destruct (len data mod 32 =? 0) eqn:E.
  - exists []. split; [rewrite app_nil_r; reflexivity|].
    rewrite app_nil_r. apply Z.eqb_eq in E.
    replace (len data + 31) with (31 + (len data / 32) * 32) by lia.
    rewrite Z.div_add by lia. change (31 / 32) with 0. lia.
  - exists (make (Z.to_nat (32 - len data mod 32))).
    split; [reflexivity|]. apply Z.eqb_neq in E.
    rewrite len_app. unfold len at 2. rewrite length_make.
    replace (len data + 31)
      with ((len data mod 32 - 1) + (len data / 32 + 1) * 32) by lia.
    rewrite Z.div_add by lia.
    rewrite (Z.div_small (len data mod 32 - 1) 32) by lia. lia.
Qed.

Lemma stringSize_ge (n : Z) : 0 <= n -> 32 + n <= stringSize n.
Proof.
  intros H. unfold stringSize.
  pose proof (Z.div_mod (n + 31) 32 ltac:(lia)).
  pose proof (Z.mod_pos_bound (n + 31) 32 ltac:(lia)). lia.
Qed.

Lemma encodeValue_string_eq (v : value) :
  encodeValue "string" v = encodeString v.
Proof. rewrite encodeValue_eq. reflexivity. Qed.

(** A string is encoded as its length word and its padded bytes. *)
Lemma encodeValue_string (s : string) (e : list byte) :
  encodeValue "string" (GoString s) = Ok e ->
  exists lengthWord padding : list byte,
    FillBytes (len (list_byte_of_string s)) 32 = Ok lengthWord /\
    e = lengthWord ++ list_byte_of_string s ++ padding /\
    len e = stringSize (len (list_byte_of_string s)).
Proof.
  rewrite encodeValue_string_eq.
  unfold encodeString, bind, bindWrap.
  destruct (FillBytes _ 32) as [lw| |] eqn:Hlw; try discriminate.
  intros H. apply Ok_inj in H.
  destruct (padBytes_32 (list_byte_of_string s)) as (padding & Hpad & Hlen).
  exists lw, padding. split; [reflexivity|].
  rewrite Hpad in H. split; [congruence|].
  subst e. rewrite len_app, Hlen. unfold stringSize.
  unfold len at 1. rewrite (FillBytes_length _ _ _ Hlw). reflexivity.
Qed.

(** The head word of a string is followed to its length word and its
    content. *)
Lemma decodeString_at (data hpre w hpost tpre lengthWord content tpost
                       : list byte) :
  data = hpre ++ w ++ hpost ->
  data = tpre ++ lengthWord ++ content ++ tpost ->
  FillBytes (len tpre) 32 = Ok w ->
  FillBytes (len content) 32 = Ok lengthWord ->
  len data < 2 ^ 63 ->
  decodeString data (len hpre) =
    Ok (GoString (string_of_list_byte content), len hpre + 32).
Proof.
  intros Hh Ht Hw Hlw Hsmall.
  pose proof (len_nonneg hpre). pose proof (len_nonneg hpost).
  pose proof (len_nonneg tpre). pose proof (len_nonneg tpost).
  pose proof (len_nonneg content).
  assert (Hwlen : len w = 32)
    by (unfold len; rewrite (FillBytes_length _ _ _ Hw); reflexivity).
  assert (Hlwlen : len lengthWord = 32)
    by (unfold len; rewrite (FillBytes_length _ _ _ Hlw); reflexivity).
  assert (Hd1 : len data = len hpre + 32 + len hpost)
    by (rewrite Hh, !len_app; lia).
  assert (Hd2 : len data = len tpre + 32 + len content + len tpost)
    by (rewrite Ht, !len_app; lia).
  assert (H63 : 2 ^ 63 = 9223372036854775808) by reflexivity.
  unfold decodeString.
  rewrite gtb_false by lia.
  replace (len hpre + 32) with (len hpre + len w) at 1 by lia.
  rewrite (slice_at data hpre w hpost Hh). cbn [bind bindWrap].
  rewrite (FillBytes_offset (len tpre) w ltac:(lia) Hw).
  rewrite (wrap64_small (len tpre)) by lia.
  rewrite (wrap64_small (len tpre + 32)) by lia.
  rewrite gtb_false by lia.
  replace (len tpre + 32) with (len tpre + len lengthWord) at 1 by lia.
  rewrite (slice_at data tpre lengthWord (content ++ tpost) Ht).
  cbn [bind bindWrap].
  rewrite (FillBytes_offset (len content) lengthWord ltac:(lia) Hlw).
  rewrite (wrap64_small (len content)) by lia.
  rewrite (wrap64_small (len tpre + 32 + len content)) by lia.
  rewrite gtb_false by lia.
  replace (len tpre + 32) with (len (tpre ++ lengthWord))
    by (rewrite len_app; lia).
  rewrite (slice_at data (tpre ++ lengthWord) content tpost)
    by (rewrite Ht, <- !app_assoc; reflexivity).
  reflexivity.
Qed.

End DecodeSteps.

(** ** Round trip *)

Section RoundTrip.

Lemma two_pow_63 : 2 ^ 63 = 9223372036854775808.
Proof. reflexivity. Qed.

Lemma decodeValue_string (data : list byte) (offset : Z) :
  decodeValue "string" data offset = decodeString data offset.
Proof. reflexivity. Qed.

(** Decoding along a [layout]: the head cursor has passed [hpre], the
    tail already holds [tpre]. *)
Lemma decodeLoop_layout (off : Z) params values words payloads :
  layout off params values words payloads ->
  Forall2 matchesParam params values ->
  forall (hpre tpre data : list byte) (results : list value),
    data = hpre ++ List.concat words ++ tpre ++ List.concat payloads ->
    off = len hpre + len (List.concat words) + len tpre ->
    len data < 2 ^ 63 ->
    decodeLoop (map Type_ params) data (len hpre) results =
      Ok (results ++ decodedValues params values).
Proof.
  induction 1 as [off values
                 | off p v e params values words payloads Hd He Hl IH
                 | off p v w e params values words payloads Hd Hw He Hl IH];
    intros HF hpre tpre data results Hdata Hoff Hsmall.
  - simpl. rewrite app_nil_r. reflexivity.
  - inversion HF as [|p' v' ps' vs' Hm HF']; subst p' v' ps' vs'.
    assert (Hlen : len e = 32).
    { unfold len. rewrite (encodeValue_static_length _ _ _ Hd He).
      reflexivity. }
    cbn [List.concat] in Hdata. rewrite <- app_assoc in Hdata.
    change ([] ++ List.concat payloads) with (List.concat payloads) in Hdata.
    cbn [map decodeLoop].
    rewrite gtb_false.
    2:{ rewrite Hdata, !len_app.
        pose proof (len_nonneg (List.concat words)).
        pose proof (len_nonneg tpre).
        pose proof (len_nonneg (List.concat payloads)). lia. }
    rewrite (decodeValue_static _ _ _ _ _ _ Hm Hd He Hdata).
    cbn [bindWrap fst snd].
    replace (len hpre + 32) with (len (hpre ++ e))
      by (rewrite len_app; lia).
    rewrite (IH HF' (hpre ++ e) tpre data).
    + cbn [decodedValues]. rewrite <- app_assoc. reflexivity.
    + rewrite Hdata, <- !app_assoc. reflexivity.
    + rewrite Hoff. cbn [List.concat]. rewrite !len_app. lia.
    + exact Hsmall.
  - inversion HF as [|p' v' ps' vs' Hm HF']; subst p' v' ps' vs'.
    unfold matchesParam in Hm.
    assert (Hstr : Type_ p = "string"%string /\ exists s, v = GoString s).
    { inversion Hm as [s Hv Ht | t x Ht Hx Heq | b Ht | s Ht];
        try (rewrite <- Ht in Hd; discriminate).
      - destruct (isUintTag_static _ Ht) as [_ Hs]. congruence.
      - split; [reflexivity | eauto]. }
    destruct Hstr as [Ht [s ->]]. rewrite Ht in *.
    destruct (encodeValue_string s e He) as (lw & padding & Hlw & -> & _).
    cbn [List.concat] in Hdata.
    assert (Hwlen : len w = 32)
      by (unfold len; rewrite (FillBytes_length _ _ _ Hw); reflexivity).
    cbn [map decodeLoop]. rewrite Ht.
    rewrite gtb_false.
    2:{ rewrite Hdata, !len_app.
        pose proof (len_nonneg (List.concat words)).
        pose proof (len_nonneg tpre).
        pose proof (len_nonneg lw).
        pose proof (len_nonneg (list_byte_of_string s)).
        pose proof (len_nonneg padding).
        pose proof (len_nonneg (List.concat payloads)). lia. }
    rewrite decodeValue_string.
    rewrite (decodeString_at data hpre w
               (List.concat words ++ tpre
                ++ (lw ++ list_byte_of_string s ++ padding)
                ++ List.concat payloads)
               (hpre ++ w ++ List.concat words ++ tpre)
               lw (list_byte_of_string s)
               (padding ++ List.concat payloads)).
    + cbn [bindWrap fst snd]. rewrite string_of_list_byte_of_string.
      replace (len hpre + 32) with (len (hpre ++ w))
        by (rewrite len_app; lia).
      rewrite (IH HF' (hpre ++ w)
                 (tpre ++ lw ++ list_byte_of_string s ++ padding) data).
      * cbn [decodedValues]. rewrite Ht. unfold decoded.
        cbn [String.eqb Ascii.eqb Bool.eqb]. rewrite <- app_assoc.
        reflexivity.
      * rewrite Hdata, <- !app_assoc. reflexivity.
      * rewrite Hoff. cbn [List.concat]. rewrite !len_app. lia.
      * exact Hsmall.
    + rewrite Hdata, <- !app_assoc. reflexivity.
    + rewrite Hdata, <- !app_assoc. reflexivity.
    + replace (len (hpre ++ w ++ List.concat words ++ tpre)) with off;
        [exact Hw|].
      rewrite Hoff. cbn [List.concat]. rewrite !len_app. lia.
    + exact Hlw.
    + exact Hsmall.
Qed.

Lemma stringSize_nonneg (n : Z) : 0 <= n -> 0 <= stringSize n.
Proof. intros H. pose proof (stringSize_ge n H). lia. Qed.

Lemma tailSize_nonneg (p : ABIParam) (v : value) : 0 <= tailSize p v.
Proof.
  unfold tailSize. destruct v; try lia.
  destruct (String.eqb (Type_ p) "string"); [|lia].
  apply stringSize_nonneg, len_nonneg.
Qed.

Lemma tailTotal_nonneg (params : list ABIParam) :
  forall values : list value, 0 <= tailTotal params values.
Proof.
  induction params as [|p params IH]; intros [|v values]; simpl; try lia.
  pose proof (tailSize_nonneg p v). specialize (IH values). lia.
Qed.

Lemma encodeValue_string_ok (s : string) :
  len (list_byte_of_string s) < 2 ^ 256 ->
  exists e, encodeValue "string" (GoString s) = Ok e.
Proof.
  intros H. rewrite encodeValue_string_eq.
  unfold encodeString.
  rewrite FillBytes_small.
  - cbn [bind bindWrap]. eauto.
  - rewrite pow256_32. pose proof (len_nonneg (list_byte_of_string s)).
    rewrite Z.abs_eq; lia.
Qed.

(** With matching values that are not too large the loop of
    [encodeParameters] runs to its end. *)
Lemma layout_total (params : list ABIParam) (values : list value) :
  Forall2 matchesParam params values ->
  forall off : Z,
    0 <= off -> off + tailTotal params values < 2 ^ 256 ->
    exists words payloads,
      layout off params values words payloads /\
      len (List.concat payloads) = tailTotal params values.
Proof.
  induction 1 as [|p v params values Hm HF IH]; intros off H0 Hfit.
  - exists [], []. split; [constructor | reflexivity].
  - cbn [tailTotal] in Hfit.
    pose proof (tailTotal_nonneg params values) as Hrest.
    pose proof (tailSize_nonneg p v) as Hthis.
    unfold matchesParam in Hm. remember (Type_ p) as t eqn:Ht.
    destruct Hm as [s Hv | t x Htag Hx | b | s].
    + (* address *)
      destruct (encodeValue_address s Hv) as (bs & _ & _ & He).
      assert (Hsize : tailSize p (GoString s) = 0)
        by (unfold tailSize; rewrite <- Ht; reflexivity).
      destruct (IH off H0) as (words & payloads & Hl & Hlen); [lia|].
      exists ((make 12 ++ bs) :: words), ([] :: payloads). split.
      * apply layout_static; [rewrite <- Ht; reflexivity | | exact Hl].
        rewrite <- Ht. exact He.
      * cbn [List.concat tailTotal]. rewrite len_app, Hlen, Hsize.
        reflexivity.
    + (* uintN *)
      destruct (isUintTag_static _ Htag) as [Hp Hs].
      assert (Hsize : tailSize p (BigInt x) = 0) by reflexivity.
      destruct (IH off H0) as (words & payloads & Hl & Hlen); [lia|].
      exists (bigEndian 32 x :: words), ([] :: payloads). split.
      * apply layout_static; [rewrite <- Ht; exact Hs | | exact Hl].
        rewrite <- Ht.
        rewrite (encodeValue_uint _ _ Hp), encodeUint_BigInt.
        rewrite FillBytes_small by (rewrite pow256_32; lia).
        rewrite Z.abs_eq by lia. reflexivity.
      * cbn [List.concat tailTotal]. rewrite len_app, Hlen, Hsize.
        reflexivity.
    + (* bool *)
      assert (Hsize : tailSize p (GoBool b) = 0) by reflexivity.
      destruct (IH off H0) as (words & payloads & Hl & Hlen); [lia|].
      exists ((if b then make 31 ++ [x01] else make 32) :: words),
             ([] :: payloads). split.
      * apply layout_static; [rewrite <- Ht; reflexivity | | exact Hl].
        rewrite <- Ht. rewrite encodeValue_eq. reflexivity.
      * cbn [List.concat tailTotal]. rewrite len_app, Hlen, Hsize.
        reflexivity.
    + (* string *)
      assert (Hsize : tailSize p (GoString s)
                      = stringSize (len (list_byte_of_string s)))
        by (unfold tailSize; rewrite <- Ht; reflexivity).
      pose proof (stringSize_ge _ (len_nonneg (list_byte_of_string s)))
        as Hge.
      destruct (encodeValue_string_ok s ltac:(lia)) as [e He].
      destruct (encodeValue_string s e He) as (lw & padding & _ & _ & Helen).
      pose proof (len_nonneg e) as He0.
      destruct (IH (off + len e)) as (words & payloads & Hl & Hlen);
        [lia | lia |].
      exists (bigEndian 32 off :: words), (e :: payloads). split.
      * apply layout_dynamic; [rewrite <- Ht; reflexivity | | | exact Hl].
        -- rewrite FillBytes_small by (rewrite pow256_32, Z.abs_eq; lia).
           rewrite Z.abs_eq by lia. reflexivity.
        -- rewrite <- Ht. exact He.
      * cbn [List.concat tailTotal]. rewrite len_app, Hlen. lia.
Qed.

Lemma Forall2_matches_length (params : list ABIParam) (values : list value) :
  Forall2 matchesParam params values ->
  List.length params = List.length values.
Proof. induction 1; simpl; congruence. Qed.

(** C1, as the code has it.  For every non-empty parameter list made of
    the types address, uintN, bool and string, and every matching value
    list whose encoding stays below 2^63 bytes, the call encoder
    succeeds, and decoding the argument bytes of the call (what follows
    the 4-byte selector) with the same types returns the original
    values, each address in lower-case hexadecimal. *)
Theorem round_trip (funcName : string) (params : list ABIParam)
  (values : list value) :
  params <> [] ->
  Forall2 matchesParam params values ->
  wireSize params values < 2 ^ 63 ->
  exists call : list byte,
    EncodeFunctionCall funcName params values = Ok call /\
    len (argumentBytes call) = wireSize params values /\
    DecodeFunctionResult (map Type_ params) (argumentBytes call) =
      Ok (decodedValues params values).
Proof.
  intros Hne HF Hsize. unfold wireSize in Hsize.
  pose proof (tailTotal_nonneg params values) as Htail.
  pose proof (len_nonneg params) as Hlen0.
  assert (H63 : 2 ^ 63 < 2 ^ 256) by reflexivity.
  destruct (layout_total params values HF (len params * 32))
    as (words & payloads & Hl & Hpay); [lia | lia |].
  destruct (layout_words _ _ _ _ _ Hl) as [Hn Hw].
  assert (Hhead : len (List.concat words) = len params * 32).
  { unfold len. rewrite (length_concat_words _ Hw), Hn. lia. }
  destruct (selector_decodes funcName params) as (sel & Hsel & Hsel4).
  exists (sel ++ List.concat words ++ List.concat payloads).
  assert (Hargs : argumentBytes
                    (sel ++ List.concat words ++ List.concat payloads)
                  = List.concat words ++ List.concat payloads)
    by (apply argumentBytes_call; exact Hsel4).
  rewrite Hargs. split; [|split].
  - unfold EncodeFunctionCall, encodeParameters, encodeHeadTail.
    rewrite Hsel, (Forall2_matches_length _ _ HF), Nat.eqb_refl.
    cbn [negb bind bindWrap].
    rewrite (layout_encodeLoop _ _ _ _ _ Hl). reflexivity.
  - unfold wireSize. rewrite len_app, Hhead, Hpay. lia.
  - unfold DecodeFunctionResult.
    assert (Hpos : 0 < len params).
    { destruct params; [congruence|]. unfold len. simpl. lia. }
    replace (len (List.concat words ++ List.concat payloads) =? 0)
      with false
      by (symmetry; apply Z.eqb_neq; rewrite len_app, Hhead, Hpay; lia).
    apply (decodeLoop_layout _ _ _ _ _ Hl HF [] []
             (List.concat words ++ List.concat payloads) []).
    + reflexivity.
    + change (len (@nil byte)) with 0. lia.
    + rewrite len_app, Hhead, Hpay. lia.
Qed.

Lemma round_trip_witness :
  noteParams <> [] /\
  Forall2 matchesParam noteParams noteValues /\
  wireSize noteParams noteValues < 2 ^ 63 /\
  exists call : list byte,
    EncodeFunctionCall "note" noteParams noteValues = Ok call /\
    len (argumentBytes call) = wireSize noteParams noteValues /\
    DecodeFunctionResult (map Type_ noteParams) (argumentBytes call) =
      Ok (decodedValues noteParams noteValues).
Proof.
  assert (Hne : noteParams <> []) by discriminate.
  assert (HF : Forall2 matchesParam noteParams noteValues).
  { apply Forall2_cons; [exact (matches_string "hello")|].
    apply Forall2_cons.
    - apply (matches_uint "uint8" 7); [reflexivity|].
      split; [lia | vm_compute; reflexivity].
    - apply Forall2_cons; [exact (matches_string "") | apply Forall2_nil]. }
  assert (Hsize : wireSize noteParams noteValues < 2 ^ 63)
    by (vm_compute; reflexivity).
  split; [exact Hne|]. split; [exact HF|]. split; [exact Hsize|].
  exact (round_trip "note" noteParams noteValues Hne HF Hsize).
Defined.

(** When no address is written with a capital digit the decoded values
    are the original ones. *)
Lemma decodedValues_same (params : list ABIParam) (values : list value) :
  Forall2 matchesParam params values ->
  (forall s : string, In (GoString s) values -> lowerCase s = s) ->
  decodedValues params values = values.
Proof.
  induction 1 as [|p v params values Hm HF IH]; intros Hlow.
  - reflexivity.
  - cbn [decodedValues]. rewrite IH by (intros s Hs; apply Hlow; right; exact Hs).
    f_equal. unfold decoded.
    destruct (String.eqb (Type_ p) "address"); [|reflexivity].
    destruct v; try reflexivity.
    rewrite Hlow by (left; reflexivity). reflexivity.
Qed.

(** C1 fails as stated.  A call without parameters has no argument
    bytes, and the decoder rejects empty data; and an address written
    with capital hexadecimal digits comes back in lower case. *)
Lemma round_trip_fails :
  (exists call : list byte,
      EncodeFunctionCall "totalSupply" [] [] = Ok call /\
      DecodeFunctionResult [] (argumentBytes call) = Err EmptyData) /\
  (exists call : list byte,
      EncodeFunctionCall "balanceOf"
        [ {| Name := "owner"; Type_ := "address" |} ]
        [ GoString "0x00000000000000000000000000000000000000AB" ] = Ok call /\
      DecodeFunctionResult ["address"%string] (argumentBytes call) =
        Ok [ GoString "0x00000000000000000000000000000000000000ab" ] /\
      DecodeFunctionResult ["address"%string] (argumentBytes call) <>
        Ok [ GoString "0x00000000000000000000000000000000000000AB" ]).
Proof.
  split.
  - eexists. split; vm_compute; reflexivity.
  - eexists. split; [vm_compute; reflexivity|].
    split; [vm_compute; reflexivity|].
    vm_compute. discriminate.
Qed.

End RoundTrip.

(** ** The string decoder inside the 64-bit range *)

Section StringBounds.

Lemma SetBytes_nonneg (buf : list byte) : 0 <= SetBytes buf.
Proof.
  unfold SetBytes.
  assert (H : forall acc, 0 <= acc ->
            0 <= fold_left (fun a b => a * 256 + byteZ b) buf acc).
  { induction buf as [|b buf IH]; intros acc Hacc; simpl.
    - exact Hacc.
    - apply IH. pose proof (byteZ_range b). lia. }
  apply H. lia.
Qed.

Lemma slice_ok (data : list byte) (lo hi : Z) :
  0 <= lo -> lo <= hi -> hi <= len data ->
  slice data lo hi =
    Ok (firstn (Z.to_nat (hi - lo)) (skipn (Z.to_nat lo) data)).
Proof.
  intros H0 H1 H2. unfold slice.
  replace ((0 <=? lo) && (lo <=? hi) && (hi <=? len data)) with true
    by (symmetry; rewrite !andb_true_iff, !Z.leb_le; lia).
  reflexivity.
Qed.

(** As long as the offset word, the length word and their sums stay
    below 2^63, [decodeString] does what C7 says: it fails with an
    insufficient-data error exactly when the length word or the content
    would end beyond the data, and otherwise returns the content. *)
Lemma decodeString_in_range (data : list byte) (offset : Z) :
  0 <= offset -> offset + 32 <= len data -> len data < 2 ^ 63 ->
  let stringOffset :=
    SetBytes (firstn 32 (skipn (Z.to_nat offset) data)) in
  let length :=
    SetBytes (firstn 32 (skipn (Z.to_nat stringOffset) data)) in
  stringOffset + 32 < 2 ^ 63 ->
  (len data < stringOffset + 32 ->
   decodeString data offset = Err InsufficientDataForStringLength) /\
  (stringOffset + 32 <= len data ->
   stringOffset + 32 + length < 2 ^ 63 ->
   (len data < stringOffset + 32 + length ->
    decodeString data offset = Err InsufficientDataForStringContent) /\
   (stringOffset + 32 + length <= len data ->
    decodeString data offset =
      Ok (GoString
            (string_of_list_byte
               (firstn (Z.to_nat length)
                  (skipn (Z.to_nat (stringOffset + 32)) data))),
          offset + 32))).
Proof.
  intros H0 Hfit Hsmall stringOffset length Hso.
  pose proof two_pow_63 as H63.
  assert (Hso0 : 0 <= stringOffset) by apply SetBytes_nonneg.
  assert (Hlen0 : 0 <= length) by apply SetBytes_nonneg.
  assert (Hstart : decodeString data offset =
            if wrap64 (stringOffset + 32) >? len data
            then Err InsufficientDataForStringLength
            else
              lengthWord <- slice data stringOffset
                              (wrap64 (stringOffset + 32)) ;;
              let length := wrap64 (SetBytes lengthWord) in
              if wrap64 (wrap64 (stringOffset + 32) + length) >? len data
              then Err InsufficientDataForStringContent
              else
                stringBytes <- slice data (wrap64 (stringOffset + 32))
                                 (wrap64 (wrap64 (stringOffset + 32)
                                          + length)) ;;
                Ok (GoString (string_of_list_byte stringBytes),
                    offset + 32)).
  { unfold decodeString. rewrite gtb_false by lia.
    rewrite slice_ok by lia.
    replace (Z.to_nat (offset + 32 - offset)) with 32%nat by lia.
    cbn [bind bindWrap]. fold stringOffset.
    rewrite (wrap64_small stringOffset) by lia. reflexivity. }
  rewrite Hstart. rewrite (wrap64_small (stringOffset + 32)) by lia.
  split.
  - intros Hout. rewrite gtb_true by lia. reflexivity.
  - intros Hin Hsum. rewrite gtb_false by lia.
    rewrite slice_ok by lia.
    replace (Z.to_nat (stringOffset + 32 - stringOffset)) with 32%nat
      by lia.
    cbn [bind bindWrap]. fold length.
    rewrite (wrap64_small length) by lia.
    rewrite (wrap64_small (stringOffset + 32 + length)) by lia.
    split.
    + intros Hout. rewrite gtb_true by lia. reflexivity.
    + intros Hok. rewrite gtb_false by lia.
      rewrite slice_ok by lia. cbn [bind bindWrap].
      replace (Z.to_nat (stringOffset + 32 + length - (stringOffset + 32)))
        with (Z.to_nat length) by lia.
      reflexivity.
Qed.

End StringBounds.

(** * Further properties of the codec *)

(** ** Padding and the size of encodings *)

Section Sizes.

Lemma padBytes_padding (data : list byte) (blockSize : Z) :
  0 < blockSize ->
  exists k : nat,
    padBytes data blockSize = data ++ make k /\
    Z.of_nat k < blockSize /\
    (len data + Z.of_nat k) mod blockSize = 0 /\
    (len data mod blockSize = 0 -> k = 0%nat).
Proof.
  intros Hb. unfold padBytes. pose proof (len_nonneg data) as H0.
  rewrite Z.rem_mod_nonneg by lia.
  pose proof (Z.mod_pos_bound (len data) blockSize Hb) as Hr.
  pose proof (Z.div_mod (len data) blockSize ltac:(lia)) as Hdm.
  destruct (len data mod blockSize =? 0) eqn:E.
  - exists 0%nat. apply Z.eqb_eq in E.
    split; [symmetry; apply app_nil_r|]. split; [lia|].
    split; [rewrite Z.add_0_r; exact E | reflexivity].
  - apply Z.eqb_neq in E.
    exists (Z.to_nat (blockSize - len data mod blockSize)).
    split; [reflexivity|]. rewrite Z2Nat.id by lia.
    split; [lia|]. split; [|intros; lia].
    replace (len data + (blockSize - len data mod blockSize))
      with ((len data / blockSize + 1) * blockSize) by lia.
    apply Z_mod_mult.
Qed.

(** X1.  [padBytes] appends fewer than [blockSize] zero bytes, as many as
    bring the length to a multiple of [blockSize], and none when the
    length is one already. *)
Theorem padBytes_spec (data : list byte) (blockSize : Z) :
  0 < blockSize ->
  exists k : nat,
    padBytes data blockSize = data ++ make k /\
    Z.of_nat k < blockSize /\
    (len data + Z.of_nat k) mod blockSize = 0 /\
    (len data mod blockSize = 0 -> k = 0%nat).
Proof. exact (padBytes_padding data blockSize). Qed.

Lemma padBytes_spec_witness :
  0 < 32 /\
  exists k : nat,
    padBytes [x68; x69] 32 = [x68; x69] ++ make k /\
    Z.of_nat k < 32 /\
    (len [x68; x69] + Z.of_nat k) mod 32 = 0 /\
    (len [x68; x69] mod 32 = 0 -> k = 0%nat).
Proof.
  assert (H : 0 < 32) by lia.
  split; [exact H|]. exact (padBytes_spec [x68; x69] 32 H).
Defined.

Lemma wholeWords_32 : wholeWords 32.
Proof. exists 1%nat. reflexivity. Qed.

Lemma wholeWords_add (a b : nat) :
  wholeWords a -> wholeWords b -> wholeWords (a + b).
Proof. intros [j ->] [k ->]. exists (j + k)%nat. lia. Qed.

Lemma wholeWords_padBytes (data : list byte) :
  wholeWords (List.length (padBytes data 32)).
Proof.
  destruct (padBytes_32 data) as (padding & -> & Hlen).
  unfold len in Hlen.
  exists (Z.to_nat ((Z.of_nat (List.length data) + 31) / 32)).
  assert (0 <= (Z.of_nat (List.length data) + 31) / 32)
    by (apply Z.div_pos; lia).
  lia.
Qed.

Lemma wholeWords_length_word (x : Z) (w rest : list byte) :
  FillBytes x 32 = Ok w -> wholeWords (List.length rest) ->
  wholeWords (List.length (w ++ rest)).
Proof.
  intros Hw Hrest. rewrite length_app, (FillBytes_length _ _ _ Hw).
  apply wholeWords_add; [apply wholeWords_32 | exact Hrest].
Qed.

Lemma encodeElements_wholeWords (f : value -> result (list byte)) :
  (forall v e, f v = Ok e -> wholeWords (List.length e)) ->
  forall (elements : list value) (acc out : list byte),
    wholeWords (List.length acc) ->
    encodeElements f elements acc = Ok out ->
    wholeWords (List.length out).
Proof.
  intros Hf elements.
  induction elements as [|v rest IH]; intros acc out Hacc H; simpl in H.
  - apply Ok_inj in H. subst out. exact Hacc.
  - unfold bindWrap in H. destruct (f v) as [e| |] eqn:E; try discriminate.
    apply (IH _ _ ltac:(rewrite length_app; apply wholeWords_add;
                        [exact Hacc | exact (Hf _ _ E)]) H).
Qed.

Lemma encodeArrayWith_wholeWords
  (f : string -> value -> result (list byte)) (t : string) (v : value)
  (out : list byte) :
  (forall v e, f (TrimSuffix t "[]") v = Ok e -> wholeWords (List.length e)) ->
  encodeArrayWith f t v = Ok out -> wholeWords (List.length out).
Proof.
  intros Hf. unfold encodeArrayWith, bind, bindWrap.
  assert (H0 : wholeWords (@List.length byte [])) by (exists 0%nat; reflexivity).
  destruct v; try discriminate;
    (destruct (FillBytes _ 32) as [w| |] eqn:Hw; try discriminate;
     destruct (encodeElements _ _ _) as [els| |] eqn:He; try discriminate;
     intros H; apply Ok_inj in H; subst out;
     apply (wholeWords_length_word _ _ _ Hw);
     exact (encodeElements_wholeWords _ Hf _ _ _ H0 He)).
Qed.

Lemma encodeValueFuel_wholeWords :
  forall (n : nat) (t : string) (v : value) (e : list byte),
    encodeValueFuel n t v = Ok e -> wholeWords (List.length e).
Proof.
  assert (Hstr : forall v e, encodeString v = Ok e ->
                             wholeWords (List.length e)).
  { intros v e. unfold encodeString, bind, bindWrap.
    destruct v; try discriminate.
    destruct (FillBytes _ 32) as [w| |] eqn:Hw; try discriminate.
    intros H. apply Ok_inj in H. subst e.
    apply (wholeWords_length_word _ _ _ Hw), wholeWords_padBytes. }
  assert (Hbytes : forall v e, encodeBytes v = Ok e ->
                               wholeWords (List.length e)).
  { intros v e. unfold encodeBytes, bind, bindWrap.
    destruct v; try discriminate.
    - destruct (DecodeString _); try discriminate.
      destruct (FillBytes _ 32) as [w| |] eqn:Hw; try discriminate.
      intros H. apply Ok_inj in H. subst e.
      apply (wholeWords_length_word _ _ _ Hw), wholeWords_padBytes.
    - destruct (FillBytes _ 32) as [w| |] eqn:Hw; try discriminate.
      intros H. apply Ok_inj in H. subst e.
      apply (wholeWords_length_word _ _ _ Hw), wholeWords_padBytes. }
  assert (Hone : forall e : list byte,
             List.length e = 32%nat -> wholeWords (List.length e)).
  { intros e ->. apply wholeWords_32. }
  induction n as [|n IH]; intros t v e H; cbn [encodeValueFuel] in H;
    repeat match type of H with
           | context [if ?c then _ else _] => destruct c eqn:?
           end;
    try discriminate;
    try (apply Hone; eapply encodeAddress_length; eassumption);
    try (apply Hone; eapply encodeUint_length; eassumption);
    try (apply Hone; eapply encodeBool_length; eassumption);
    try (eapply Hstr; eassumption);
    try (eapply Hbytes; eassumption).
  eapply encodeArrayWith_wholeWords; [|exact H].
  intros v' e' H'. exact (IH _ _ _ H').
Qed.

Lemma encodeValue_wholeWords (t : string) (v : value) (e : list byte) :
  encodeValue t v = Ok e -> exists k : nat, List.length e = (32 * k)%nat.
Proof. apply encodeValueFuel_wholeWords. Qed.

(** X2.  Every encoding of a value is a whole number of 32-byte words. *)
Theorem encodeValue_whole_words (t : string) (v : value) (e : list byte) :
  encodeValue t v = Ok e -> exists k : nat, List.length e = (32 * k)%nat.
Proof. exact (encodeValue_wholeWords t v e). Qed.

Lemma encodeValue_whole_words_witness :
  encodeValue "string[]" (StringSlice ["ab"; "c"]%string)
  = Ok (bigEndian 32 2
        ++ (bigEndian 32 2 ++ [x61; x62] ++ make 30)
        ++ (bigEndian 32 1 ++ [x63] ++ make 31)) /\
  exists k : nat,
    List.length (bigEndian 32 2
                 ++ (bigEndian 32 2 ++ [x61; x62] ++ make 30)
                 ++ (bigEndian 32 1 ++ [x63] ++ make 31)) = (32 * k)%nat.
Proof.
  assert (H : encodeValue "string[]" (StringSlice ["ab"; "c"]%string)
              = Ok (bigEndian 32 2
                    ++ (bigEndian 32 2 ++ [x61; x62] ++ make 30)
                    ++ (bigEndian 32 1 ++ [x63] ++ make 31)))
    by (vm_compute; reflexivity).
  split; [exact H|].
  exact (encodeValue_whole_words _ _ _ H).
Defined.

Lemma layout_wholeWords (off : Z) params values words payloads :
  layout off params values words payloads ->
  wholeWords (List.length (List.concat words)) /\
  wholeWords (List.length (List.concat payloads)).
Proof.
  induction 1 as [off values
                 | off p v e params values words payloads Hd He Hl IH
                 | off p v w e params values words payloads Hd Hw He Hl IH];
    simpl; rewrite ?length_app.
  - split; exists 0%nat; reflexivity.
  - destruct IH as [IHw IHp]. split; [|exact IHp].
    apply wholeWords_add; [|exact IHw].
    apply (encodeValue_wholeWords _ _ _ He).
  - destruct IH as [IHw IHp]. split.
    + apply wholeWords_add; [|exact IHw].
      rewrite (FillBytes_length _ _ _ Hw). apply wholeWords_32.
    + apply wholeWords_add; [|exact IHp].
      apply (encodeValue_wholeWords _ _ _ He).
Qed.

(** X3.  An encoded call is the 4-byte selector followed by a whole number
    of 32-byte words. *)
Theorem call_whole_words (funcName : string) (params : list ABIParam)
  (values : list value) (call : list byte) :
  EncodeFunctionCall funcName params values = Ok call ->
  exists k : nat, List.length call = (4 + 32 * k)%nat.
Proof.
  intros H. apply EncodeFunctionCall_ok in H.
  destruct H as (selector & head & tail & Hsel & Hht & ->).
  apply encodeHeadTail_layout in Hht.
  destruct Hht as (words & payloads & Hl & -> & -> & _).
  destruct (layout_wholeWords _ _ _ _ _ Hl) as [[j Hj] [k Hk]].
  exists (j + k)%nat. rewrite !length_app, Hsel, Hj, Hk. lia.
Qed.

Lemma call_whole_words_witness :
  exists k : nat, List.length noteCall = (4 + 32 * k)%nat.
Proof.
  exact (call_whole_words "note" noteParams noteValues noteCall noteCall_eq).
Defined.

End Sizes.

(** ** Where the call encoder puts the values *)

Section Placement.

Lemma concat_firstn_skipn (l : list (list byte)) (k : nat) (e : list byte) :
  nth_error l k = Some e ->
  List.concat l =
    List.concat (firstn k l) ++ e ++ List.concat (skipn (S k) l).
Proof.
  revert k. induction l as [|x l IH]; intros [|k] H; simpl in H;
    try discriminate.
  - injection H as <-. reflexivity.
  - simpl. rewrite (IH k H), <- app_assoc. reflexivity.
Qed.

(** Along a [layout], slot [k] holds the encoding of a static value, or
    the offset at which the payload of a dynamic value starts. *)
Lemma layout_slot (off : Z) params values words payloads :
  layout off params values words payloads ->
  0 <= off ->
  forall (k : nat) (p : ABIParam) (v : value),
    nth_error params k = Some p -> nth_error values k = Some v ->
    exists w e,
      nth_error words k = Some w /\
      encodeValue (Type_ p) v = Ok e /\
      if isDynamicType (Type_ p)
      then nth_error payloads k = Some e /\
           SetBytes w = off + len (List.concat (firstn k payloads))
      else w = e.
Proof.
  induction 1 as [off values
                 | off p0 v0 e0 params values words payloads Hd He Hl IH
                 | off p0 v0 w0 e0 params values words payloads Hd Hw He Hl IH];
    intros H0 k p v Hp Hv.
  - destruct k; discriminate.
  - destruct k as [|k]; simpl in Hp, Hv.
    + injection Hp as <-. injection Hv as <-.
      exists e0, e0. rewrite Hd. auto.
    + destruct (IH H0 k p v Hp Hv) as (w & e & Hw & Hev & Hslot).
      exists w, e. split; [exact Hw|]. split; [exact Hev|].
      destruct (isDynamicType (Type_ p)); [|exact Hslot].
      simpl. exact Hslot.
  - destruct k as [|k]; simpl in Hp, Hv.
    + injection Hp as <-. injection Hv as <-.
      exists w0, e0. rewrite Hd. split; [reflexivity|]. split; [exact He|].
      split; [reflexivity|].
      simpl. rewrite (FillBytes_offset off w0 H0 Hw).
      change (len (@nil byte)) with 0. lia.
    + pose proof (len_nonneg e0).
      destruct (IH ltac:(lia) k p v Hp Hv) as (w & e & Hwk & Hev & Hslot).
      exists w, e. split; [exact Hwk|]. split; [exact Hev|].
      destruct (isDynamicType (Type_ p)); [|exact Hslot].
      destruct Hslot as [Hpay Hoff]. split; [exact Hpay|].
      simpl. rewrite len_app, Hoff. lia.
Qed.

(** X4.  In an encoded call the head word of a static parameter is the
    encoding of its value, and the head word of a dynamic parameter is
    the offset, counted from the start of the argument bytes, at which
    the encoding of its value stands in the tail. *)
Theorem call_placement (funcName : string) (params : list ABIParam)
  (values : list value) (call : list byte) :
  EncodeFunctionCall funcName params values = Ok call ->
  forall (k : nat) (p : ABIParam) (v : value),
    nth_error params k = Some p -> nth_error values k = Some v ->
    exists e : list byte,
      encodeValue (Type_ p) v = Ok e /\
      if isDynamicType (Type_ p)
      then firstn (List.length e)
             (skipn (Z.to_nat (SetBytes (headWord call k)))
                (argumentBytes call)) = e
      else headWord call k = e.
Proof.
  intros H k p v Hp Hv. apply EncodeFunctionCall_ok in H.
  destruct H as (selector & head & tail & Hsel & Hht & ->).
  apply encodeHeadTail_layout in Hht.
  destruct Hht as (words & payloads & Hl & -> & -> & _).
  destruct (layout_words _ _ _ _ _ Hl) as [Hn Hw].
  assert (H0 : 0 <= len params * 32) by (unfold len; lia).
  destruct (layout_slot _ _ _ _ _ Hl H0 k p v Hp Hv)
    as (w & e & Hwk & He & Hslot).
  assert (Hword : headWord (selector ++ List.concat words
                              ++ List.concat payloads) k = w).
  { unfold headWord. rewrite argumentBytes_call by assumption.
    apply nth_word; assumption. }
  exists e. split; [exact He|].
  destruct (isDynamicType (Type_ p)).
  - destruct Hslot as [Hpay Hoff].
    rewrite Hword, Hoff, argumentBytes_call by assumption.
    rewrite (concat_firstn_skipn payloads k e Hpay).
    replace (Z.to_nat (len params * 32
                       + len (List.concat (firstn k payloads))))
      with (List.length (List.concat words
                         ++ List.concat (firstn k payloads)))
      by (rewrite length_app, (length_concat_words _ Hw), Hn;
          unfold len; lia).
    rewrite app_assoc, skipn_app, skipn_all, Nat.sub_diag. simpl.
    rewrite firstn_app, firstn_all, Nat.sub_diag. simpl.
    apply app_nil_r.
  - rewrite Hword. exact Hslot.
Qed.

Lemma call_placement_witness :
  exists e : list byte,
    encodeValue "string" (GoString "hello") = Ok e /\
    firstn (List.length e)
      (skipn (Z.to_nat (SetBytes (headWord noteCall 0)))
         (argumentBytes noteCall)) = e.
Proof.
  exact (call_placement "note" noteParams noteValues noteCall noteCall_eq
           0%nat {| Name := "title"; Type_ := "string" |}
           (GoString "hello") eq_refl eq_refl).
Defined.

Lemma encodeLoop_error :
  forall (params : list ABIParam) (values : list value) (i : nat)
         (enc dyn : list byte) (off : Z) (err : error),
    encodeLoop i params values enc dyn off = Err err ->
    exists (k : nat) (p : ABIParam) (v : value) (e : error),
      nth_error params k = Some p /\ nth_error values k = Some v /\
      encodeValue (Type_ p) v = Err e /\
      err = parameterError p (i + k) e /\
      forall (j : nat) (pj : ABIParam) (vj : value),
        (j < k)%nat ->
        nth_error params j = Some pj -> nth_error values j = Some vj ->
        exists ej, encodeValue (Type_ pj) vj = Ok ej.
Proof.
  induction params as [|p params IH]; intros values i enc dyn off err H.
  - discriminate.
  - destruct values as [|v values]; [discriminate|].
    cbn [encodeLoop] in H. unfold bind, bindWrap in H.
    assert (Hstep : forall e0 enc' dyn' off',
              encodeValue (Type_ p) v = Ok e0 ->
              encodeLoop (S i) params values enc' dyn' off' = Err err ->
              exists k p' v' e,
                nth_error (p :: params) k = Some p' /\
                nth_error (v :: values) k = Some v' /\
                encodeValue (Type_ p') v' = Err e /\
                err = parameterError p' (i + k) e /\
                forall j pj vj, (j < k)%nat ->
                  nth_error (p :: params) j = Some pj ->
                  nth_error (v :: values) j = Some vj ->
                  exists ej, encodeValue (Type_ pj) vj = Ok ej).
    { intros e0 enc' dyn' off' He0 Hrest.
      destruct (IH _ _ _ _ _ _ Hrest) as (k & p' & v' & e & Hp & Hv & He
                                          & Herr & Hbefore).
      exists (S k), p', v', e. repeat (split; [assumption|]).
      split; [rewrite Herr; f_equal; lia|].
      intros [|j] pj vj Hj Hpj Hvj; simpl in Hpj, Hvj.
      - injection Hpj as <-. injection Hvj as <-. eauto.
      - apply (Hbefore j pj vj); [lia | assumption | assumption]. }
    assert (Hhere : forall e,
              encodeValue (Type_ p) v = Err e ->
              err = parameterError p i e ->
              exists k p' v' e',
                nth_error (p :: params) k = Some p' /\
                nth_error (v :: values) k = Some v' /\
                encodeValue (Type_ p') v' = Err e' /\
                err = parameterError p' (i + k) e' /\
                forall j pj vj, (j < k)%nat ->
                  nth_error (p :: params) j = Some pj ->
                  nth_error (v :: values) j = Some vj ->
                  exists ej, encodeValue (Type_ pj) vj = Ok ej).
    { intros e He Herr. exists 0%nat, p, v, e.
      repeat (split; [reflexivity || assumption|]).
      split; [rewrite Nat.add_0_r; exact Herr|].
      intros j pj vj Hj. lia. }
    unfold parameterError in Hhere.
    destruct (isDynamicType (Type_ p)) eqn:Hd.
    + destruct (FillBytes off 32) as [w| |] eqn:Hw; try discriminate.
      * destruct (encodeValue (Type_ p) v) as [e0|e|] eqn:He;
          try discriminate.
        -- eapply Hstep; [reflexivity | exact H].
        -- injection H as <-. eapply Hhere; reflexivity.
      * exfalso. exact (FillBytes_never_errs _ _ _ Hw).
    + destruct (encodeValue (Type_ p) v) as [e0|e|] eqn:He;
        try discriminate.
      * eapply Hstep; [reflexivity | exact H].
      * injection H as <-. eapply Hhere; reflexivity.
Qed.

(** X5.  Every error of [encodeParameters] is the count mismatch or names
    the first parameter whose value [encodeValue] rejects: it carries
    the index of that parameter and the error of [encodeValue], and all
    values before it are encodable. *)
Theorem encodeParameters_error (params : list ABIParam)
  (values : list value) (err : error) :
  encodeParameters params values = Err err ->
  (List.length params <> List.length values /\
   err = ParameterCountMismatch (List.length params) (List.length values))
  \/
  exists (k : nat) (p : ABIParam) (v : value) (e : error),
    nth_error params k = Some p /\ nth_error values k = Some v /\
    encodeValue (Type_ p) v = Err e /\
    err = parameterError p k e /\
    forall (j : nat) (pj : ABIParam) (vj : value),
      (j < k)%nat ->
      nth_error params j = Some pj -> nth_error values j = Some vj ->
      exists ej, encodeValue (Type_ pj) vj = Ok ej.
Proof.
  unfold encodeParameters, encodeHeadTail, bind, bindWrap.
  destruct (List.length params =? List.length values)%nat eqn:E;
    cbn [negb].
  - intros H. right.
    destruct (encodeLoop 0 params values [] [] (len params * 32))
      as [ht|e|] eqn:Hloop; try discriminate.
    injection H as <-.
    exact (encodeLoop_error _ _ _ _ _ _ _ Hloop).
  - intros H. injection H as <-. left.
    apply Nat.eqb_neq in E. auto.
Qed.

Lemma encodeParameters_error_witness :
  encodeParameters transferParams
    [ GoString "0x0000000000000000000000000000000000000001";
      GoBool true ]
  = Err (FailedToEncodeStaticParameter 1 UnsupportedUintType) /\
  ((List.length transferParams <> 2%nat /\
    FailedToEncodeStaticParameter 1 UnsupportedUintType
    = ParameterCountMismatch (List.length transferParams) 2)
   \/
   exists (k : nat) (p : ABIParam) (v : value) (e : error),
     nth_error transferParams k = Some p /\
     nth_error [ GoString "0x0000000000000000000000000000000000000001";
                 GoBool true ] k = Some v /\
     encodeValue (Type_ p) v = Err e /\
     FailedToEncodeStaticParameter 1 UnsupportedUintType
     = parameterError p k e /\
     forall (j : nat) (pj : ABIParam) (vj : value),
       (j < k)%nat ->
       nth_error transferParams j = Some pj ->
       nth_error [ GoString "0x0000000000000000000000000000000000000001";
                   GoBool true ] j = Some vj ->
       exists ej, encodeValue (Type_ pj) vj = Ok ej).
Proof.
  assert (H : encodeParameters transferParams
                [ GoString "0x0000000000000000000000000000000000000001";
                  GoBool true ]
              = Err (FailedToEncodeStaticParameter 1 UnsupportedUintType))
    by (vm_compute; reflexivity).
  split; [exact H|].
  exact (encodeParameters_error _ _ _ H).
Defined.

End Placement.

(** ** Addresses *)

Section Addresses.

Lemma isHexDigit_fromHexChar (c : ascii) :
  isHexDigit c = true <-> fromHexChar c <> None.
Proof.
  destruct c as [[] [] [] [] [] [] [] []]; vm_compute;
    split; intros H; congruence.
Qed.

Lemma length_EncodeToString (bs : list byte) :
  String.length (EncodeToString bs) = (2 * List.length bs)%nat.
Proof.
  induction bs as [|b bs IH]; simpl.
  - reflexivity.
  - rewrite IH. lia.
Qed.

(** [hex.DecodeString] succeeds exactly on texts of even length made of
    hexadecimal digits. *)
Lemma DecodeString_ok_iff :
  forall (n : nat) (s : string),
    (String.length s <= n)%nat ->
    ((exists bs, DecodeString s = inr bs) <->
     Nat.even (String.length s) = true /\ allHex s = true).
Proof.
  induction n as [|n IH]; intros s Hn.
  - destruct s; simpl in Hn; [|lia]. simpl. split; eauto.
  - destruct s as [|p [|q rest]].
    + simpl. split; eauto.
    + simpl. split.
      * intros [bs H]. destruct (fromHexChar p); discriminate.
      * intros [H _]. discriminate.
    + simpl in Hn. specialize (IH rest ltac:(lia)).
      cbn [DecodeString String.length Nat.even allHex].
      pose proof (isHexDigit_fromHexChar p) as Hp.
      pose proof (isHexDigit_fromHexChar q) as Hq.
      destruct (fromHexChar p) as [a|].
      2:{ split; [intros [bs H]; discriminate|].
          intros [_ H]. apply andb_true_iff in H. destruct H as [H _].
          apply Hp in H. congruence. }
      destruct (fromHexChar q) as [b|].
      2:{ split; [intros [bs H]; discriminate|].
          intros [_ H]. apply andb_true_iff in H. destruct H as [_ H].
          apply andb_true_iff in H. destruct H as [H _].
          apply Hq in H. congruence. }
      assert (Hpt : isHexDigit p = true) by (apply Hp; discriminate).
      assert (Hqt : isHexDigit q = true) by (apply Hq; discriminate).
      rewrite Hpt, Hqt. cbn [andb].
      destruct (DecodeString rest) as [e|bs'].
      * split; [intros [bs H]; discriminate|].
        intros H. apply IH in H. destruct H as [bs H]. discriminate.
      * split; [intros _; apply IH; eauto | eauto].
Qed.

Lemma HasPrefix_0x_cons (s : string) :
  HasPrefix (String "0" (String "x" s)) "0x" = true.
Proof. unfold HasPrefix. destruct s; reflexivity. Qed.

Lemma ValidateAddress_shape (address : string) :
  ValidateAddress address = true <->
  exists digits : string,
    address = String "0" (String "x" digits) /\
    String.length digits = 40%nat /\ allHex digits = true.
Proof.
  split.
  - intros Hv.
    destruct (ValidateAddress_bytes address Hv) as (bs & Hd & Hlen & Hs).
    exists (TrimPrefix address "0x"). split; [exact Hs|].
    pose proof (DecodeString_length _ _ _ (Nat.le_refl _) Hd) as Hl.
    split; [lia|].
    apply (DecodeString_ok_iff _ _ (Nat.le_refl _)). eauto.
  - intros (digits & -> & Hlen & Hhex).
    unfold ValidateAddress. rewrite HasPrefix_0x_cons.
    cbn [negb String.length]. rewrite Hlen. cbn [Nat.eqb negb].
    change (substring 2 (42 - 2) (String "0" (String "x" digits)))
      with (substring 0 40 digits).
    rewrite <- Hlen, substring_all.
    destruct (proj2 (DecodeString_ok_iff _ digits (Nat.le_refl _)))
      as [bs Hbs].
    + rewrite Hlen. split; [reflexivity | exact Hhex].
    + rewrite Hbs. reflexivity.
Qed.

(** X6.  [ValidateAddress] accepts exactly "0x" followed by forty
    hexadecimal digits of either case. *)
Theorem ValidateAddress_iff (address : string) :
  ValidateAddress address = true <->
  exists digits : string,
    address = String "0" (String "x" digits) /\
    String.length digits = 40%nat /\ allHex digits = true.
Proof. exact (ValidateAddress_shape address). Qed.

(** X7.  [encodeValue] for the type address: a value that is not a string is
    rejected, a string that [ValidateAddress] rejects is rejected and
    never padded, and a valid address gives twelve zero bytes followed
    by its twenty bytes. *)
Theorem encodeValue_address_cases (v : value) :
  match v with
  | GoString s =>
      if ValidateAddress s
      then exists bs : list byte,
             DecodeString (TrimPrefix s "0x") = inr bs /\
             List.length bs = 20%nat /\
             encodeValue "address" v = Ok (make 12 ++ bs)
      else encodeValue "address" v = Err InvalidAddressFormat
  | _ => encodeValue "address" v = Err AddressMustBeString
  end.
Proof.
  destruct v; try (rewrite encodeValue_eq; reflexivity).
  destruct (ValidateAddress s) eqn:Hv.
  - exact (encodeValue_address s Hv).
  - rewrite encodeValue_eq. cbn [String.eqb Ascii.eqb Bool.eqb].
    unfold encodeAddress. rewrite Hv. reflexivity.
Qed.

Lemma ValidateAddress_EncodeToString (bs : list byte) :
  List.length bs = 20%nat ->
  ValidateAddress (String "0" (String "x" (EncodeToString bs))) = true.
Proof.
  intros Hlen. apply ValidateAddress_shape.
  exists (EncodeToString bs). split; [reflexivity|].
  split; [rewrite length_EncodeToString; lia|].
  apply (DecodeString_ok_iff _ _ (Nat.le_refl _)).
  exists bs. apply DecodeString_EncodeToString.
Qed.

Lemma TrimPrefix_0x_cons (s : string) :
  TrimPrefix (String "0" (String "x" s)) "0x" = s.
Proof.
  unfold TrimPrefix. rewrite HasPrefix_0x_cons.
  change (substring (String.length "0x")
            (String.length (String "0" (String "x" s)) - String.length "0x")
            (String "0" (String "x" s)))
    with (substring 0 (String.length s - 0) s).
  rewrite Nat.sub_0_r. apply substring_all.
Qed.

(** X8.  [decodeAddress] reads the last twenty bytes of the word at [offset]
    and ignores the first twelve; the text it returns is an address
    [ValidateAddress] accepts, and encoding it again gives the word with
    its first twelve bytes set to zero. *)
Theorem decodeAddress_valid (data : list byte) (offset : Z) :
  0 <= offset -> offset + 32 <= len data ->
  exists (address : string) (bs : list byte),
    slice data (offset + 12) (offset + 32) = Ok bs /\
    decodeValue "address" data offset = Ok (GoString address, offset + 32) /\
    ValidateAddress address = true /\
    encodeValue "address" (GoString address) = Ok (make 12 ++ bs).
Proof.
  intros H0 Hfit.
  set (bs := firstn (Z.to_nat (offset + 32 - (offset + 12)))
               (skipn (Z.to_nat (offset + 12)) data)).
  assert (Hs : slice data (offset + 12) (offset + 32) = Ok bs)
    by (apply slice_ok; lia).
  assert (Hlen : List.length bs = 20%nat).
  { unfold bs. rewrite length_firstn, length_skipn. unfold len in Hfit. lia. }
  exists (String "0" (String "x" (EncodeToString bs))), bs.
  split; [exact Hs|].
  pose proof (ValidateAddress_EncodeToString bs Hlen) as Hv.
  split; [|split; [exact Hv|]].
  - unfold decodeValue. cbn [String.eqb Ascii.eqb Bool.eqb].
    unfold decodeAddress. rewrite gtb_false by lia. rewrite Hs.
    reflexivity.
  - destruct (encodeValue_address _ Hv) as (bs' & Hd & _ & He).
    rewrite TrimPrefix_0x_cons, DecodeString_EncodeToString in Hd.
    injection Hd as <-. exact He.
Qed.

Lemma decodeAddress_valid_witness :
  0 <= 0 /\ 0 + 32 <= len (repeat xff 32) /\
  exists (address : string) (bs : list byte),
    slice (repeat xff 32) (0 + 12) (0 + 32) = Ok bs /\
    decodeValue "address" (repeat xff 32) 0 = Ok (GoString address, 0 + 32) /\
    ValidateAddress address = true /\
    encodeValue "address" (GoString address) = Ok (make 12 ++ bs).
Proof.
  assert (H0 : 0 <= 0) by lia.
  assert (H1 : 0 + 32 <= len (repeat xff 32)) by (vm_compute; discriminate).
  split; [exact H0|]. split; [exact H1|].
  exact (decodeAddress_valid (repeat xff 32) 0 H0 H1).
Defined.

End Addresses.

(** ** Byte strings and arrays *)

Section BytesAndArrays.

Lemma hextable_not_x (n : N) : hextable n <> "x"%char.
Proof.
  unfold hextable. destruct n as [|p]; [discriminate|].
  do 4 (try destruct p as [p|p|]); discriminate.
Qed.

Lemma EncodeToString_no_0x (bs : list byte) :
  HasPrefix (EncodeToString bs) "0x" = false.
Proof.
  unfold HasPrefix. destruct bs as [|b bs]; [reflexivity|].
  cbn [EncodeToString String.prefix].
  destruct (ascii_dec "0" (hextable (Byte.to_N b / 16))); [|reflexivity].
  destruct (ascii_dec "x" (hextable (Byte.to_N b mod 16))) as [E|];
    [|reflexivity].
  exfalso. exact (hextable_not_x _ (eq_sym E)).
Qed.

Lemma encodeValue_bytes_eq (v : value) :
  encodeValue "bytes" v = encodeBytes v.
Proof. rewrite encodeValue_eq. reflexivity. Qed.

(** X9.  A byte string is encoded as the word of its length, the bytes, and
    fewer than 32 zero bytes that complete the last word. *)
Theorem encodeValue_bytes_layout (bs : list byte) :
  len bs < 2 ^ 256 ->
  exists k : nat,
    encodeValue "bytes" (Bytes bs)
    = Ok (bigEndian 32 (len bs) ++ bs ++ make k) /\
    (k < 32)%nat /\ ((List.length bs + k) mod 32 = 0)%nat.
Proof.
  intros Hlen. rewrite encodeValue_bytes_eq.
  unfold encodeBytes. cbn [bind bindWrap].
  pose proof (len_nonneg bs) as H0.
  rewrite FillBytes_small by (rewrite pow256_32, Z.abs_eq; lia).
  cbn [bindWrap]. rewrite Z.abs_eq by lia.
  destruct (padBytes_padding bs 32 ltac:(lia)) as (k & Hpad & Hk & Hmod & _).
  exists k. rewrite Hpad. split; [reflexivity|]. split; [lia|].
  unfold len in Hmod.
  apply Nat2Z.inj. rewrite Nat2Z.inj_mod, Nat2Z.inj_add. exact Hmod.
Qed.

Lemma encodeValue_bytes_layout_witness :
  len [x01; x02; x03] < 2 ^ 256 /\
  exists k : nat,
    encodeValue "bytes" (Bytes [x01; x02; x03])
    = Ok (bigEndian 32 (len [x01; x02; x03]) ++ [x01; x02; x03] ++ make k) /\
    (k < 32)%nat /\ ((List.length [x01; x02; x03] + k) mod 32 = 0)%nat.
Proof.
  assert (H : len [x01; x02; x03] < 2 ^ 256) by (vm_compute; reflexivity).
  split; [exact H|]. exact (encodeValue_bytes_layout [x01; x02; x03] H).
Defined.


(** X11.  A text that is not hexadecimal is rejected for the type bytes. *)
Theorem encodeValue_bytes_invalid (s : string) :
  (Nat.even (String.length (TrimPrefix s "0x")) = false \/
   allHex (TrimPrefix s "0x") = false) ->
  encodeValue "bytes" (GoString s) = Err InvalidHexString.
Proof.
  intros H. rewrite encodeValue_bytes_eq. unfold encodeBytes.
  destruct (DecodeString (TrimPrefix s "0x")) as [e|bs] eqn:E;
    [reflexivity|].
  exfalso.
  destruct (proj1 (DecodeString_ok_iff _ _ (Nat.le_refl _))
              (ex_intro _ bs E)) as [Heven Hhex].
  destruct H; congruence.
Qed.

Lemma encodeValue_bytes_invalid_witness :
  (Nat.even (String.length (TrimPrefix "0xabc" "0x")) = false \/
   allHex (TrimPrefix "0xabc" "0x") = false) /\
  encodeValue "bytes" (GoString "0xabc") = Err InvalidHexString.
Proof.
  assert (H : Nat.even (String.length (TrimPrefix "0xabc" "0x")) = false \/
              allHex (TrimPrefix "0xabc" "0x") = false)
    by (left; reflexivity).
  split; [exact H|]. exact (encodeValue_bytes_invalid "0xabc" H).
Defined.





(** X13.  Integer arrays cannot be encoded: a tag that starts with "uint" or
    "int" reaches [encodeUint] even when it ends with "[]", and
    [encodeUint] rejects every slice. *)
Theorem encodeValue_integer_array (t : string) :
  isIntegerTag t = true ->
  (forall elements : list value,
      encodeValue t (Slice elements) = Err UnsupportedUintType) /\
  (forall ss : list string,
      encodeValue t (StringSlice ss) = Err UnsupportedUintType).
Proof.
  intros H. split; intros x; rewrite (encodeValue_integer t _ H);
    reflexivity.
Qed.

Lemma encodeValue_integer_array_witness :
  isIntegerTag "uint256[]" = true /\ HasSuffix "uint256[]" "[]" = true /\
  encodeValue "uint256[]" (Slice [BigInt 1; BigInt 2])
  = Err UnsupportedUintType.
Proof.
  assert (H : isIntegerTag "uint256[]" = true) by reflexivity.
  split; [exact H|]. split; [reflexivity|].
  exact (proj1 (encodeValue_integer_array "uint256[]" H)
           [BigInt 1; BigInt 2]).
Defined.

End BytesAndArrays.

(** ** The result decoder *)

Section Decoder.

Lemma slice_extend (data extra : list byte) (lo hi : Z) (x : list byte) :
  slice data lo hi = Ok x -> slice (data ++ extra) lo hi = Ok x.
Proof.
  unfold slice.
  destruct ((0 <=? lo) && (lo <=? hi) && (hi <=? len data)) eqn:E;
    [|discriminate].
  apply andb_true_iff in E. destruct E as [E E3].
  apply andb_true_iff in E. destruct E as [E1 E2].
  apply Z.leb_le in E1, E2, E3.
  intros H. apply Ok_inj in H. subst x.
  pose proof (len_nonneg extra) as Hx.
  replace ((0 <=? lo) && (lo <=? hi) && (hi <=? len (data ++ extra)))
    with true
    by (symmetry; rewrite !andb_true_iff, !Z.leb_le, len_app; lia).
  f_equal. unfold len in E3.
  rewrite skipn_app, firstn_app, length_skipn.
  replace (Z.to_nat (hi - lo) - (List.length data - Z.to_nat lo))%nat
    with 0%nat by lia.
  simpl. apply app_nil_r.
Qed.

Lemma index_extend (data extra : list byte) (i : Z) (b : byte) :
  index data i = Ok b -> index (data ++ extra) i = Ok b.
Proof.
  unfold index.
  destruct ((0 <=? i) && (i <? len data)) eqn:E; [|discriminate].
  apply andb_true_iff in E. destruct E as [E1 E2].
  apply Z.leb_le in E1. apply Z.ltb_lt in E2.
  pose proof (len_nonneg extra) as Hx.
  replace ((0 <=? i) && (i <? len (data ++ extra))) with true
    by (symmetry; rewrite andb_true_iff, Z.leb_le, Z.ltb_lt, len_app; lia).
  unfold len in E2. rewrite nth_error_app1 by lia. auto.
Qed.

Lemma gtb_extend (a : Z) (data extra : list byte) :
  (a >? len data) = false -> (a >? len (data ++ extra)) = false.
Proof.
  intros H. rewrite Z.gtb_ltb in H. apply Z.ltb_ge in H.
  apply gtb_false. rewrite len_app. pose proof (len_nonneg extra). lia.
Qed.

Ltac extend_step H :=
  match type of H with
  | (if ?a >? len ?d then _ else _) = Ok _ =>
      let E := fresh "E" in
      destruct (a >? len d) eqn:E; [discriminate H|];
      rewrite (gtb_extend _ _ _ E)
  | bindWrap (slice ?d ?lo ?hi) _ _ = Ok _ =>
      let E := fresh "E" in
      destruct (slice d lo hi) as [?x| |] eqn:E; try discriminate H;
      rewrite (slice_extend _ _ _ _ _ E); cbn [bindWrap] in H |- *
  | bindWrap (index ?d ?i) _ _ = Ok _ =>
      let E := fresh "E" in
      destruct (index d i) as [?x| |] eqn:E; try discriminate H;
      rewrite (index_extend _ _ _ _ E); cbn [bindWrap] in H |- *
  end.

Lemma decodeValue_extend (t : string) (data extra : list byte) (offset : Z)
  (r : value * Z) :
  decodeValue t data offset = Ok r ->
  decodeValue t (data ++ extra) offset = Ok r.
Proof.
  unfold decodeValue.
  repeat match goal with
         | |- context [if ?c then _ else _] =>
             match c with
             | String.eqb _ _ => destruct c
             | HasPrefix _ _ => destruct c
             end
         end;
    try discriminate;
    unfold decodeAddress, decodeUint, decodeBool, decodeString, bind;
    intros H; repeat extend_step H; exact H.
Qed.

Lemma decodeLoop_extend (extra : list byte) :
  forall (types : list string) (data : list byte) (offset : Z)
         (results out : list value),
    decodeLoop types data offset results = Ok out ->
    decodeLoop types (data ++ extra) offset results = Ok out.
Proof.
  induction types as [|t types IH]; intros data offset results out H.
  - exact H.
  - cbn [decodeLoop] in H |- *.
    destruct (offset + 32 >? len data) eqn:E; [discriminate|].
    rewrite (gtb_extend _ _ _ E).
    unfold bindWrap in H |- *.
    destruct (decodeValue t data offset) as [r| |] eqn:Hr; try discriminate.
    rewrite (decodeValue_extend _ _ _ _ _ Hr). apply IH. exact H.
Qed.

(** X14.  Bytes after the encoded values are ignored: what decodes from
    [data] decodes to the same values from [data] followed by anything. *)
Theorem DecodeFunctionResult_trailing (types : list string)
  (data extra : list byte) (values : list value) :
  DecodeFunctionResult types data = Ok values ->
  DecodeFunctionResult types (data ++ extra) = Ok values.
Proof.
  unfold DecodeFunctionResult.
  destruct (len data =? 0) eqn:E; [discriminate|].
  apply Z.eqb_neq in E.
  replace (len (data ++ extra) =? 0) with false
    by (symmetry; apply Z.eqb_neq; rewrite len_app;
        pose proof (len_nonneg data); pose proof (len_nonneg extra); lia).
  apply decodeLoop_extend.
Qed.

Lemma DecodeFunctionResult_trailing_witness :
  DecodeFunctionResult ["uint256"; "bool"]%string
    (bigEndian 32 7 ++ bigEndian 32 1) = Ok [BigInt 7; GoBool true] /\
  DecodeFunctionResult ["uint256"; "bool"]%string
    ((bigEndian 32 7 ++ bigEndian 32 1) ++ [xff; xff; xff])
  = Ok [BigInt 7; GoBool true].
Proof.
  assert (H : DecodeFunctionResult ["uint256"; "bool"]%string
                (bigEndian 32 7 ++ bigEndian 32 1)
              = Ok [BigInt 7; GoBool true]) by (vm_compute; reflexivity).
  split; [exact H|].
  exact (DecodeFunctionResult_trailing _ _ [xff; xff; xff] _ H).
Defined.

Lemma decodeValue_word (t : string) (data : list byte) (offset : Z) :
  isWordTag t = true -> 0 <= offset -> offset + 32 <= len data ->
  exists v : value, decodeValue t data offset = Ok (v, offset + 32).
Proof.
  intros Ht H0 Hfit. unfold isWordTag in Ht. unfold decodeValue.
  destruct (String.eqb t "address").
  { unfold decodeAddress. rewrite gtb_false by lia.
    rewrite slice_ok by lia. cbn [bind bindWrap]. eauto. }
  destruct (HasPrefix t "uint").
  { rewrite decodeUint_ok by lia. eauto. }
  destruct (String.eqb t "bool"); [|discriminate].
  unfold decodeBool, index. rewrite gtb_false by lia.
  replace ((0 <=? offset + 31) && (offset + 31 <? len data)) with true
    by (symmetry; rewrite andb_true_iff, Z.leb_le, Z.ltb_lt; lia).
  destruct (nth_error data (Z.to_nat (offset + 31))) as [b|] eqn:E.
  - cbn [bind bindWrap]. eauto.
  - apply nth_error_None in E. unfold len in Hfit. lia.
Qed.

Lemma decodeLoop_words (data : list byte) :
  forall (types : list string) (offset : Z) (results : list value),
    Forall (fun t => isWordTag t = true) types ->
    0 <= offset <= len data ->
    (offset + 32 * len types <= len data ->
     exists values,
       decodeLoop types data offset results = Ok (results ++ values) /\
       List.length values = List.length types) /\
    (len data < offset + 32 * len types ->
     exists (k : nat) (t : string),
       nth_error types k = Some t /\
       offset + 32 * Z.of_nat k <= len data < offset + 32 * Z.of_nat k + 32 /\
       decodeLoop types data offset results
       = Err (InsufficientDataForType t)).
Proof.
  induction types as [|t types IH]; intros offset results HF H0.
  - split.
    + intros _. exists []. rewrite app_nil_r. auto.
    + change (len (@nil string)) with 0. lia.
  - inversion HF as [|t' ts' Ht HF']; subst.
    assert (Hlen : len (t :: types) = 1 + len types)
      by (unfold len; simpl List.length; lia).
    pose proof (len_nonneg types) as Hn.
    cbn [decodeLoop]. rewrite Hlen.
    destruct (Z_le_gt_dec (offset + 32) (len data)) as [Hfit|Hshort].
    + rewrite gtb_false by lia.
      destruct (decodeValue_word t data offset Ht ltac:(lia) Hfit) as [v Hv].
      rewrite Hv. cbn [bindWrap fst snd].
      destruct (IH (offset + 32) (results ++ [v]) HF' ltac:(lia))
        as [IHok IHerr].
      split.
      * intros Hall. destruct (IHok ltac:(lia)) as (values & Hd & Hl).
        exists (v :: values). rewrite Hd, <- app_assoc.
        split; [reflexivity | simpl; lia].
      * intros Hless. destruct (IHerr ltac:(lia)) as (k & tk & Hk & Hb & Hd).
        exists (S k), tk. split; [exact Hk|]. split; [lia | exact Hd].
    + rewrite gtb_true by lia. split; [lia|].
      intros _. exists 0%nat, t. split; [reflexivity|].
      split; [lia | reflexivity].
Qed.

(** X15.  For types that are read from one head word each (address, uintN,
    bool) the decoder succeeds exactly when the data holds one 32-byte
    word per type, and returns one value per type; on shorter data it
    fails with the insufficient-data error of the first type whose word
    is incomplete. *)
Theorem DecodeFunctionResult_words (types : list string) (data : list byte) :
  Forall (fun t => isWordTag t = true) types ->
  data <> [] ->
  (32 * len types <= len data ->
   exists values,
     DecodeFunctionResult types data = Ok values /\
     List.length values = List.length types) /\
  (len data < 32 * len types ->
   exists (k : nat) (t : string),
     nth_error types k = Some t /\
     32 * Z.of_nat k <= len data < 32 * Z.of_nat k + 32 /\
     DecodeFunctionResult types data = Err (InsufficientDataForType t)).
Proof.
  intros HF Hne. unfold DecodeFunctionResult.
  replace (len data =? 0) with false
    by (symmetry; apply Z.eqb_neq; destruct data; [congruence|];
        unfold len; simpl; lia).
  pose proof (len_nonneg data) as H0.
  destruct (decodeLoop_words data types 0 [] HF ltac:(lia)) as [Hok Herr].
  split.
  - intros H. destruct (Hok ltac:(lia)) as (values & Hd & Hl).
    exists values. auto.
  - intros H. destruct (Herr ltac:(lia)) as (k & t & Hk & Hb & Hd).
    exists k, t. split; [exact Hk|]. split; [lia | exact Hd].
Qed.

Lemma DecodeFunctionResult_words_witness :
  Forall (fun t => isWordTag t = true) ["address"; "uint256"]%string /\
  make 40 <> [] /\ len (make 40) < 32 * len ["address"; "uint256"]%string /\
  exists (k : nat) (t : string),
    nth_error ["address"; "uint256"]%string k = Some t /\
    32 * Z.of_nat k <= len (make 40) < 32 * Z.of_nat k + 32 /\
    DecodeFunctionResult ["address"; "uint256"]%string (make 40)
    = Err (InsufficientDataForType t).
Proof.
  assert (HF : Forall (fun t => isWordTag t = true)
                 ["address"; "uint256"]%string)
    by (apply Forall_cons; [reflexivity|];
        apply Forall_cons; [reflexivity | apply Forall_nil]).
  assert (Hne : make 40 <> []) by discriminate.
  assert (Hlt : len (make 40) < 32 * len ["address"; "uint256"]%string)
    by (vm_compute; reflexivity).
  split; [exact HF|]. split; [exact Hne|]. split; [exact Hlt|].
  exact (proj2 (DecodeFunctionResult_words _ (make 40) HF Hne) Hlt).
Defined.

(** X16.  What the encoder writes for a type the decoder does not support
    (bytes, intN, arrays that are not integer arrays) cannot be decoded
    again: the decoder fails at that type with the unsupported-type
    error. *)
Theorem undecodable_types (p : ABIParam) (params : list ABIParam)
  (v : value) (values : list value) (args : list byte) :
  encodeParameters (p :: params) (v :: values) = Ok args ->
  isDecodable (Type_ p) = false ->
  DecodeFunctionResult (map Type_ (p :: params)) args
  = Err (FailedToDecodeType (Type_ p) (UnsupportedDecodeType (Type_ p))).
Proof.
  intros He Hd. unfold encodeParameters, bind, bindWrap in He.
  destruct (encodeHeadTail (p :: params) (v :: values))
    as [[head tail]| |] eqn:Hht; try discriminate.
  cbn [fst snd] in He. apply Ok_inj in He. subst args.
  apply encodeHeadTail_layout in Hht.
  destruct Hht as (words & payloads & Hl & -> & -> & _).
  destruct (layout_words _ _ _ _ _ Hl) as [Hn Hw].
  assert (Hlen : 32 <= len (List.concat words ++ List.concat payloads)).
  { rewrite len_app. unfold len at 1.
    rewrite (length_concat_words _ Hw), Hn.
    pose proof (len_nonneg (List.concat payloads)). simpl List.length. lia. }
  unfold DecodeFunctionResult.
  replace (len (List.concat words ++ List.concat payloads) =? 0) with false
    by (symmetry; apply Z.eqb_neq; lia).
  cbn [map decodeLoop]. rewrite gtb_false by lia.
  unfold isDecodable, isWordTag in Hd.
  apply orb_false_iff in Hd. destruct Hd as [Hd Hstr].
  apply orb_false_iff in Hd. destruct Hd as [Hd Hbool].
  apply orb_false_iff in Hd. destruct Hd as [Haddr Huint].
  unfold decodeValue. rewrite Haddr, Huint, Hbool, Hstr. reflexivity.
Qed.

Lemma undecodable_types_witness :
  encodeParameters [ {| Name := "data"; Type_ := "bytes" |} ]
    [ Bytes [x01; x02] ]
  = Ok (bigEndian 32 32 ++ bigEndian 32 2 ++ [x01; x02] ++ make 30) /\
  isDecodable "bytes" = false /\
  DecodeFunctionResult ["bytes"%string]
    (bigEndian 32 32 ++ bigEndian 32 2 ++ [x01; x02] ++ make 30)
  = Err (FailedToDecodeType "bytes" (UnsupportedDecodeType "bytes")).
Proof.
  assert (H : encodeParameters [ {| Name := "data"; Type_ := "bytes" |} ]
                [ Bytes [x01; x02] ]
              = Ok (bigEndian 32 32 ++ bigEndian 32 2 ++ [x01; x02]
                    ++ make 30)) by (vm_compute; reflexivity).
  assert (Hd : isDecodable "bytes" = false) by reflexivity.
  split; [exact H|]. split; [exact Hd|].
  exact (undecodable_types {| Name := "data"; Type_ := "bytes" |} []
           (Bytes [x01; x02]) [] _ H Hd).
Defined.

End Decoder.

(** ** The signature hash *)

Section SignatureHash.

Lemma xorByte_zero (b : byte) : xorByte x00 b = b.
Proof. destruct b; reflexivity. Qed.

Lemma xorAt_app (pre : list byte) (h b : byte) (rest : list byte) :
  xorAt (List.length pre) b (pre ++ h :: rest) = pre ++ xorByte h b :: rest.
Proof.
  induction pre as [|p pre IH]; simpl.
  - reflexivity.
  - rewrite IH. reflexivity.
Qed.

Lemma make_S (n : nat) : make (S n) = x00 :: make n.
Proof. reflexivity. Qed.

Lemma keccakLoop_short :
  forall (data pre : list byte),
    (List.length pre + List.length data <= 32)%nat ->
    keccakLoop (List.length pre) data
      (pre ++ make (32 - List.length pre))
    = pre ++ data ++ make (32 - List.length pre - List.length data).
Proof.
  induction data as [|b data IH]; intros pre Hlen.
  - simpl. rewrite Nat.sub_0_r. reflexivity.
  - simpl in Hlen. cbn [keccakLoop].
    rewrite Nat.mod_small by lia.
    replace (32 - List.length pre)%nat
      with (S (32 - List.length pre - 1)) by lia.
    rewrite make_S, xorAt_app, xorByte_zero.
    replace (pre ++ b :: make (32 - List.length pre - 1))
      with ((pre ++ [b]) ++ make (32 - List.length (pre ++ [b])))
      by (rewrite length_app, <- app_assoc; cbn [List.length app];
          do 3 f_equal; lia).
    replace (S (List.length pre)) with (List.length (pre ++ [b]))
      by (rewrite length_app; cbn [List.length]; lia).
    rewrite IH by (rewrite length_app; cbn [List.length]; lia).
    rewrite length_app, <- app_assoc. cbn [List.length app].
    do 4 f_equal. lia.
Qed.

Lemma Keccak256_fold (data : list byte) :
  String.length (Keccak256 data) = 64%nat /\
  ((List.length data <= 32)%nat ->
   Keccak256 data = EncodeToString (data ++ make (32 - List.length data))).
Proof.
  unfold Keccak256. split.
  - rewrite length_EncodeToString, length_keccakLoop, length_make.
    reflexivity.
  - intros Hlen.
    pose proof (keccakLoop_short data [] ltac:(simpl; lia)) as H.
    cbn [List.length app] in H. rewrite !Nat.sub_0_r in H.
    rewrite H. reflexivity.
Qed.

(** X17.  [Keccak256] always returns 64 hexadecimal digits, and for an input
    of at most 32 bytes they spell the input itself, padded with zero
    bytes: nothing is hashed. *)
Theorem Keccak256_short (data : list byte) :
  String.length (Keccak256 data) = 64%nat /\
  ((List.length data <= 32)%nat ->
   Keccak256 data = EncodeToString (data ++ make (32 - List.length data))).
Proof. exact (Keccak256_fold data). Qed.

Lemma Keccak256_short_witness :
  (List.length [x61; x62] <= 32)%nat /\
  Keccak256 [x61; x62]
  = EncodeToString ([x61; x62] ++ make (32 - List.length [x61; x62])).
Proof.
  assert (H : (List.length [x61; x62] <= 32)%nat) by (simpl; lia).
  split; [exact H|]. exact (proj2 (Keccak256_short [x61; x62]) H).
Defined.

Lemma length_list_byte_of_string (s : string) :
  List.length (list_byte_of_string s) = String.length s.
Proof.
  induction s as [|c s IH]; simpl.
  - reflexivity.
  - unfold list_byte_of_string in *. simpl. rewrite IH. reflexivity.
Qed.

Lemma list_byte_of_string_app (s1 s2 : string) :
  list_byte_of_string (s1 ++ s2)
  = list_byte_of_string s1 ++ list_byte_of_string s2.
Proof.
  unfold list_byte_of_string.
  induction s1 as [|c s1 IH]; simpl.
  - reflexivity.
  - rewrite IH. reflexivity.
Qed.

Lemma firstn_4_app (a b : list byte) :
  (4 <= List.length a)%nat -> firstn 4 (a ++ b) = firstn 4 a.
Proof.
  intros H. rewrite firstn_app.
  replace (4 - List.length a)%nat with 0%nat by lia.
  simpl. apply app_nil_r.
Qed.

(** X18.  The selector of a call whose signature has at most 32 bytes and
    whose function name has at least four is the first four characters
    of the function name: functions whose names start alike share their
    selector. *)
Theorem selector_is_name_prefix (funcName : string)
  (params : list ABIParam) (values : list value) (call : list byte) :
  (4 <= String.length funcName)%nat ->
  (String.length (createFunctionSignature funcName params) <= 32)%nat ->
  EncodeFunctionCall funcName params values = Ok call ->
  firstn 4 call = firstn 4 (list_byte_of_string funcName).
Proof.
  intros Hname Hsig H. unfold EncodeFunctionCall in H.
  assert (Hsel : DecodeString (selectorOf funcName params)
                 = inr (firstn 4 (list_byte_of_string funcName))).
  { unfold selectorOf.
    set (sig := createFunctionSignature funcName params) in *.
    destruct (Keccak256_fold (list_byte_of_string sig)) as [_ Hk].
    rewrite Hk by (rewrite length_list_byte_of_string; exact Hsig).
    rewrite substring_8_EncodeToString
      by (rewrite length_app, length_list_byte_of_string, length_make; lia).
    rewrite DecodeString_EncodeToString. f_equal.
    unfold sig, createFunctionSignature.
    rewrite list_byte_of_string_app, <- app_assoc.
    rewrite firstn_4_app by (rewrite length_list_byte_of_string; exact Hname).
    reflexivity. }
  rewrite Hsel in H. cbn [bind bindWrap] in H.
  destruct (encodeParameters params values) as [args| |]; try discriminate.
  cbn [bindWrap] in H. apply Ok_inj in H. subst call.
  rewrite firstn_4_app
    by (rewrite length_firstn, length_list_byte_of_string; lia).
  rewrite firstn_firstn. reflexivity.
Qed.

Lemma selector_is_name_prefix_witness :
  (4 <= String.length "transfer")%nat /\
  (String.length (createFunctionSignature "transfer" transferParams)
   <= 32)%nat /\
  firstn 4 ([x74; x72; x61; x6e] ++ (make 31 ++ [x01])
            ++ bigEndian 32 1000000)
  = firstn 4 (list_byte_of_string "transfer").
Proof.
  assert (H1 : (4 <= String.length "transfer")%nat) by (simpl; lia).
  assert (H2 : (String.length
                  (createFunctionSignature "transfer" transferParams)
                <= 32)%nat) by (vm_compute; lia).
  split; [exact H1|]. split; [exact H2|].
  apply (selector_is_name_prefix "transfer" transferParams transferValues
           _ H1 H2).
  vm_compute. reflexivity.
Defined.

End SignatureHash.

(** ** Gas, fees and keys *)

Section GasAndKeys.

Lemma inr_inj {A B : Type} (a b : B) : @inr A B a = inr b -> a = b.
Proof. intros H. injection H as H. exact H. Qed.

Lemma gas_fold (bs : list byte) :
  forall acc : Z,
    fold_left (fun gas b => if Byte.eqb b x00 then gas + 4 else gas + 16)
      bs acc
    = acc + 4 * zeroBytes bs + 16 * (len bs - zeroBytes bs).
Proof.
  unfold zeroBytes, len.
  induction bs as [|b bs IH]; intros acc; cbn [fold_left filter].
  - cbn [List.length]. lia.
  - rewrite IH. destruct (Byte.eqb b x00); cbn [List.length]; lia.
Qed.

Lemma EncodeToString_empty (bs : list byte) :
  String.eqb (EncodeToString bs) "" = true -> bs = [].
Proof. destruct bs; [reflexivity | discriminate]. Qed.

Lemma EstimateGas_decoded (to from data : string) (value : option Z)
  (bs : list byte) :
  DecodeString (TrimPrefix data "0x") = inr bs ->
  (data = ""%string -> bs = []) ->
  EstimateGas to from data value = inr (dataGasOf bs).
Proof.
  intros Hd Hempty. unfold EstimateGas.
  destruct (String.eqb_spec data "") as [E|E].
  - rewrite (Hempty E). cbn [andb negb].
    destruct value as [v|]; [destruct (0 <? v)|]; reflexivity.
  - cbn [andb negb]. rewrite Hd. cbv zeta. rewrite gas_fold.
    unfold dataGasOf. f_equal. lia.
Qed.

Lemma EstimateGas_dataGas (to from : string) (value : option Z)
  (bs : list byte) :
  EstimateGas to from (EncodeToString bs) value = inr (dataGasOf bs) /\
  EstimateGas to from (String "0" (String "x" (EncodeToString bs))) value
  = inr (dataGasOf bs) /\
  21000 + 20 * len bs <= dataGasOf bs <= 21000 + 32 * len bs.
Proof.
  split; [|split].
  - apply EstimateGas_decoded.
    + unfold TrimPrefix. rewrite EncodeToString_no_0x.
      apply DecodeString_EncodeToString.
    + intros E. apply EncodeToString_empty. rewrite E. reflexivity.
  - apply EstimateGas_decoded.
    + rewrite TrimPrefix_0x_cons. apply DecodeString_EncodeToString.
    + discriminate.
  - unfold dataGasOf, zeroBytes, len.
    pose proof (filter_length_le (fun b => Byte.eqb b x00) bs). lia.
Qed.

(** X19.  [EstimateGas] on the hexadecimal text of a byte string, with or
    without the prefix "0x", is 21000 plus 20 for each zero byte and 32
    for each other byte, whatever the addresses and the value; it lies
    between [21000 + 20 n] and [21000 + 32 n] for [n] bytes. *)
Theorem EstimateGas_data (to from : string) (value : option Z)
  (bs : list byte) :
  EstimateGas to from (EncodeToString bs) value = inr (dataGasOf bs) /\
  EstimateGas to from (String "0" (String "x" (EncodeToString bs))) value
  = inr (dataGasOf bs) /\
  21000 + 20 * len bs <= dataGasOf bs <= 21000 + 32 * len bs.
Proof. exact (EstimateGas_dataGas to from value bs). Qed.

(** Data that is not hexadecimal text makes [EstimateGas] fail, and
    nothing else does. *)
Theorem EstimateGas_error (to from data : string) (value : option Z) :
  (exists e, EstimateGas to from data value = inl e) <->
  data <> ""%string /\
  (Nat.even (String.length (TrimPrefix data "0x")) = false \/
   allHex (TrimPrefix data "0x") = false).
Proof.
  pose proof (DecodeString_ok_iff _ (TrimPrefix data "0x") (Nat.le_refl _))
    as Hiff.
  unfold EstimateGas.
  destruct (String.eqb_spec data "") as [E|E]; cbn [andb negb].
  - split.
    + intros [e H].
      destruct value as [v|]; [destruct (0 <? v)|]; discriminate.
    + intros [H _]. congruence.
  - destruct (DecodeString (TrimPrefix data "0x")) as [e|bs] eqn:Hd.
    + split; [|eauto]. intros _. split; [exact E|].
      destruct (Nat.even _) eqn:He; [|auto].
      destruct (allHex _) eqn:Hh; [|auto].
      destruct (proj2 Hiff (conj eq_refl eq_refl)) as [bs H]. discriminate.
    + split; [intros [e H]; discriminate|].
      intros [_ H].
      destruct (proj1 Hiff (ex_intro _ bs eq_refl)) as [He Hh].
      destruct H; congruence.
Qed.

(** X20.  A transaction made by [CreateTransaction] carries the gas
    [EstimateGas] charges for its data and the suggested gas price of
    20 gwei, and its fee is their product. *)
Theorem CreateTransaction_fee (to : string) (value : option Z)
  (data : list byte) :
  len data < 2 ^ 57 ->
  Gas (CreateTransaction to value data) = dataGasOf data /\
  CalculateFee (CreateTransaction to value data)
  = Some (dataGasOf data * 20000000000).
Proof.
  intros Hlen.
  destruct (EstimateGas_dataGas to "" value data) as (Hg & _ & Hlo & Hhi).
  assert (HG : Gas (CreateTransaction to value data) = dataGasOf data).
  { unfold CreateTransaction. cbn [Gas]. rewrite Hg. reflexivity. }
  split; [exact HG|].
  unfold CalculateFee. rewrite HG.
  change (GasPrice (CreateTransaction to value data))
    with (Some SuggestGasPrice).
  pose proof (len_nonneg data). pose proof two_pow_63 as H63.
  assert (H57 : 2 ^ 57 = 144115188075855872) by reflexivity.
  rewrite wrap64_small by lia. reflexivity.
Qed.

Lemma CreateTransaction_fee_witness :
  len [xa9; x05; x00; x00] < 2 ^ 57 /\
  Gas (CreateTransaction "0x01" None [xa9; x05; x00; x00])
  = dataGasOf [xa9; x05; x00; x00] /\
  CalculateFee (CreateTransaction "0x01" None [xa9; x05; x00; x00])
  = Some (dataGasOf [xa9; x05; x00; x00] * 20000000000).
Proof.
  assert (H : len [xa9; x05; x00; x00] < 2 ^ 57)
    by (vm_compute; reflexivity).
  split; [exact H|].
  exact (CreateTransaction_fee "0x01" None [xa9; x05; x00; x00] H).
Defined.

Lemma stripped_key_length (privateKey : string) (bs : list byte) :
  DecodeString (stripKeyPrefix privateKey) = inr bs ->
  (String.length (stripKeyPrefix privateKey) =? 64)%nat
  = (List.length bs =? 32)%nat.
Proof.
  intros H.
  pose proof (DecodeString_length _ _ _ (Nat.le_refl _) H) as Hl.
  rewrite Hl.
  destruct (List.length bs =? 32)%nat eqn:E.
  - apply Nat.eqb_eq in E. apply Nat.eqb_eq. lia.
  - apply Nat.eqb_neq in E. apply Nat.eqb_neq. lia.
Qed.

(** X22.  [PrivateKeyToAddress] succeeds exactly on the keys
    [ValidatePrivateKey] accepts, and the address it derives passes
    [ValidateAddress]. *)
Theorem PrivateKeyToAddress_valid (privateKey : string) :
  ((exists address, PrivateKeyToAddress privateKey = inr address) <->
   ValidatePrivateKey privateKey = true) /\
  (forall address,
      PrivateKeyToAddress privateKey = inr address ->
      ValidateAddress address = true).
Proof.
  unfold PrivateKeyToAddress, ValidatePrivateKey.
  destruct (DecodeString (stripKeyPrefix privateKey)) as [e|bs] eqn:Hd.
  - split.
    + split; [intros [a H]; discriminate|].
      destruct (negb _); discriminate.
    + discriminate.
  - rewrite (stripped_key_length _ _ Hd).
    destruct (List.length bs =? 32)%nat; cbn [negb].
    + split; [split; eauto|].
      intros address H. apply inr_inj in H. subst address.
      apply ValidateAddress_EncodeToString.
      rewrite length_map, length_seq. reflexivity.
    + split; [|discriminate].
      split; [intros [a H]; discriminate | discriminate].
Qed.

(** X21.  [ValidatePrivateKey] accepts exactly sixty-four hexadecimal digits,
    with or without the prefix "0x". *)
Theorem ValidatePrivateKey_iff (privateKey : string) :
  ValidatePrivateKey privateKey = true <->
  exists digits : string,
    (privateKey = digits \/ privateKey = String "0" (String "x" digits)) /\
    String.length digits = 64%nat /\ allHex digits = true.
Proof.
  assert (Hcheck : forall digits : string,
            (if negb (String.length digits =? 64)%nat then false
             else match DecodeString digits with
                  | inl _ => false
                  | inr _ => true
                  end) = true <->
            String.length digits = 64%nat /\ allHex digits = true).
  { intros digits.
    pose proof (DecodeString_ok_iff _ digits (Nat.le_refl _)) as Hiff.
    destruct (String.length digits =? 64)%nat eqn:E; cbn [negb].
    - apply Nat.eqb_eq in E. rewrite E in Hiff.
      destruct (DecodeString digits) as [e|bs].
      + split; [discriminate|]. intros [_ Hh].
        destruct (proj2 Hiff (conj eq_refl Hh)) as [bs H]. discriminate.
      + split; [|reflexivity]. intros _. split; [exact E|].
        apply (proj1 Hiff). eauto.
    - apply Nat.eqb_neq in E. split; [discriminate|]. intros [H _].
      congruence. }
  unfold ValidatePrivateKey, stripKeyPrefix.
  destruct (HasPrefix privateKey "0x") eqn:Hp.
  - rewrite Hcheck. pose proof (HasPrefix_0x _ Hp) as Hs. split.
    + intros [Hl Hh]. exists (substring 2 (String.length privateKey - 2)
                                privateKey). auto.
    + intros (digits & [E|E] & Hl & Hh).
      * subst digits. exfalso. rewrite Hs in Hh. cbn [allHex] in Hh.
        apply andb_true_iff in Hh. destruct Hh as [_ Hh].
        apply andb_true_iff in Hh. destruct Hh as [Hx _]. discriminate.
      * rewrite E. change (substring 2 _ (String "0" (String "x" digits)))
          with (substring 0 (String.length digits - 0) digits).
        rewrite Nat.sub_0_r, substring_all. auto.
  - rewrite Hcheck. split.
    + intros [Hl Hh]. exists privateKey. auto.
    + intros (digits & [E|E] & Hl & Hh).
      * subst. auto.
      * subst. rewrite HasPrefix_0x_cons in Hp. discriminate.
Qed.

Lemma PrivateKeyToAddress_valid_witness :
  ValidatePrivateKey GenerateRandomPrivateKey = true /\
  exists address : string,
    PrivateKeyToAddress GenerateRandomPrivateKey = inr address /\
    ValidateAddress address = true.
Proof.
  assert (Hv : ValidatePrivateKey GenerateRandomPrivateKey = true)
    by (vm_compute; reflexivity).
  split; [exact Hv|].
  destruct (PrivateKeyToAddress_valid GenerateRandomPrivateKey)
    as [Hiff Hvalid].
  destruct (proj2 Hiff Hv) as [address Ha].
  exists address. split; [exact Ha | exact (Hvalid address Ha)].
Defined.

End GasAndKeys.

(** ** Event filters *)

Section EventProperties.

Variable ToLower : string -> string.

Lemma anyLower_iff (target : string) (options : list string) :
  anyLower ToLower target options = true <->
  exists x, In x options /\ ToLower x = target.
Proof.
  induction options as [|x rest IH]; simpl.
  - split; [discriminate | intros (x & [] & _)].
  - destruct (String.eqb_spec (ToLower x) target) as [E|E].
    + split; [|reflexivity]. intros _. exists x. auto.
    + rewrite IH. split.
      * intros (y & Hy & He). exists y. auto.
      * intros (y & [Hy|Hy] & He); [subst; congruence | eauto].
Qed.

Lemma topicsMatch_iff (eventTopics : list string) :
  forall (filterTopics : list (list string)) (i : nat),
    topicsMatch ToLower i filterTopics eventTopics = true <->
    forall (k : nat) (options : list string),
      nth_error filterTopics k = Some options ->
      exists eventTopic,
        nth_error eventTopics (i + k) = Some eventTopic /\
        topicAccepted ToLower options eventTopic.
Proof.
  induction filterTopics as [|options rest IH]; intros i.
  - simpl. split; [|reflexivity]. intros _ k o Hk. destruct k; discriminate.
  - cbn [topicsMatch].
    destruct (nth_error eventTopics i) as [eventTopic|] eqn:Hi.
    + assert (Hhead : (if (0 <? List.length options)%nat
                       then negb (anyLower ToLower (ToLower eventTopic)
                                    options)
                       else false) = false <->
                      topicAccepted ToLower options eventTopic).
      { unfold topicAccepted. destruct options as [|o os].
        - simpl. split; auto.
        - cbn [List.length Nat.ltb Nat.leb]. rewrite negb_false_iff.
          rewrite anyLower_iff. split.
          + intros H. right. exact H.
          + intros [H|H]; [discriminate | exact H]. }
      assert (Hsplit :
                (forall k o, nth_error (options :: rest) k = Some o ->
                   exists t, nth_error eventTopics (i + k) = Some t /\
                             topicAccepted ToLower o t) <->
                topicAccepted ToLower options eventTopic /\
                (forall k o, nth_error rest k = Some o ->
                   exists t, nth_error eventTopics (S i + k) = Some t /\
                             topicAccepted ToLower o t)).
      { split.
        - intros H. split.
          + destruct (H 0%nat options eq_refl) as (t & Ht & Hacc).
            rewrite Nat.add_0_r, Hi in Ht. injection Ht as <-. exact Hacc.
          + intros k o Hk. destruct (H (S k) o Hk) as (t & Ht & Hacc).
            exists t. rewrite <- plus_n_Sm in Ht. auto.
        - intros [Hacc Hrest] [|k] o Hk; simpl in Hk.
          + injection Hk as <-. exists eventTopic.
            rewrite Nat.add_0_r. auto.
          + destruct (Hrest k o Hk) as (t & Ht & Ha).
            exists t. rewrite <- plus_n_Sm. auto. }
      rewrite Hsplit, <- Hhead, <- IH.
      destruct (0 <? List.length options)%nat;
        [destruct (negb _)|]; intuition congruence.
    + split; [discriminate|]. intros H.
      destruct (H 0%nat options eq_refl) as (t & Ht & _).
      rewrite Nat.add_0_r, Hi in Ht. discriminate.
Qed.

Lemma eventMatchesFilter_spec (event : Event.t) (filter : EventFilter.t) :
  eventMatchesFilter ToLower event filter = true <->
  (EventFilter.Address filter = [] \/
   exists addr, In addr (EventFilter.Address filter) /\
                ToLower addr = ToLower (Event.Address event)) /\
  (forall (k : nat) (options : list string),
      nth_error (EventFilter.Topics filter) k = Some options ->
      exists eventTopic,
        nth_error (Event.Topics event) k = Some eventTopic /\
        (options = [] \/
         exists topic, In topic options /\
                       ToLower topic = ToLower eventTopic)).
Proof.
  unfold eventMatchesFilter.
  pose proof (topicsMatch_iff (Event.Topics event)
                (EventFilter.Topics filter) 0) as Ht.
  unfold topicAccepted in Ht. cbn [Nat.add] in Ht.
  pose proof (anyLower_iff (ToLower (Event.Address event))
                (EventFilter.Address filter)) as Ha.
  destruct (EventFilter.Address filter) as [|a rest] eqn:Haddr.
  - cbn [List.length Nat.ltb Nat.leb andb]. rewrite Ht.
    split; [intros H; split; [left; reflexivity | exact H] | intros [_ H]; exact H].
  - cbn [List.length Nat.ltb Nat.leb andb].
    destruct (anyLower ToLower (ToLower (Event.Address event)) (a :: rest))
      eqn:Hany; cbn [negb].
    + rewrite Ht. split; [|intros [_ H]; exact H].
      intros H. split; [|exact H]. right. apply Ha. reflexivity.
    + split; [discriminate|]. intros [[H|H] _]; [discriminate|].
      apply Ha in H. discriminate.
Qed.

(** X23.  [eventMatchesFilter] holds exactly when the filter has no address
    or one of its addresses equals the address of the event up to
    [ToLower], and the event has a topic at every position of the
    filter's topics that equals one of the options there up to
    [ToLower], or the options there are empty. *)
Theorem eventMatchesFilter_iff (event : Event.t) (filter : EventFilter.t) :
  eventMatchesFilter ToLower event filter = true <->
  (EventFilter.Address filter = [] \/
   exists addr, In addr (EventFilter.Address filter) /\
                ToLower addr = ToLower (Event.Address event)) /\
  (forall (k : nat) (options : list string),
      nth_error (EventFilter.Topics filter) k = Some options ->
      exists eventTopic,
        nth_error (Event.Topics event) k = Some eventTopic /\
        (options = [] \/
         exists topic, In topic options /\
                       ToLower topic = ToLower eventTopic)).
Proof. exact (eventMatchesFilter_spec event filter). Qed.

Lemma length_appendAt (value : string) (topics : list (list string)) :
  forall i : nat,
    List.length (appendAt i value topics) = List.length topics.
Proof.
  induction topics as [|o rest IH]; intros [|i]; simpl; auto.
Qed.

Lemma nth_appendAt (value : string) (topics : list (list string)) :
  forall i k : nat,
    (i < List.length topics)%nat ->
    nth k (appendAt i value topics) []
    = if (k =? i)%nat then nth k topics [] ++ [value] else nth k topics [].
Proof.
  induction topics as [|o rest IH]; intros [|i] [|k] Hi; simpl in *;
    try lia; try reflexivity.
  apply IH. lia.
Qed.

(** X24.  [AddIndexedParameter] with a negative index panics.  Otherwise it
    leaves the addresses alone, makes the topics at least [index + 1]
    positions long, appends the value to the options at position
    [index] and changes no other position (new positions have no
    options).  [AddTopic] is [AddIndexedParameter] at position 0. *)
Theorem AddIndexedParameter_spec (f : EventFilter.t) (index : Z)
  (value : string) :
  (index < 0 -> AddIndexedParameter f index value = Panic IndexOutOfRange) /\
  (0 <= index ->
   exists f' : EventFilter.t,
     AddIndexedParameter f index value = Ok f' /\
     EventFilter.Address f' = EventFilter.Address f /\
     len (EventFilter.Topics f')
     = Z.max (len (EventFilter.Topics f)) (index + 1) /\
     forall k : nat,
       nth k (EventFilter.Topics f') []
       = if (k =? Z.to_nat index)%nat
         then nth k (EventFilter.Topics f) [] ++ [value]
         else nth k (EventFilter.Topics f) []) /\
  AddIndexedParameter f 0 value = Ok (AddTopic f value).
Proof.
  unfold AddIndexedParameter. split; [|split].
  - intros H. rewrite (proj2 (Z.ltb_lt index 0) H). reflexivity.
  - intros H. rewrite (proj2 (Z.ltb_ge index 0) H).
    eexists. split; [reflexivity|]. split; [reflexivity|].
    cbn [withTopics EventFilter.Topics].
    set (topics := EventFilter.Topics f).
    set (grown := topics ++ repeat [] (Z.to_nat (index + 1 - len topics))).
    assert (Hlen : List.length grown
                   = Nat.max (List.length topics) (Z.to_nat (index + 1))).
    { unfold grown, len. rewrite length_app, repeat_length. lia. }
    assert (Hnth : forall k, nth k grown [] = nth k topics []).
    { intros k. unfold grown.
      destruct (Nat.lt_ge_cases k (List.length topics)) as [Hk|Hk].
      - apply app_nth1. exact Hk.
      - rewrite app_nth2 by exact Hk. rewrite (nth_overflow topics) by exact Hk.
        apply nth_repeat. }
    split.
    + unfold len. rewrite length_appendAt, Hlen. lia.
    + intros k. rewrite nth_appendAt by lia. rewrite !Hnth. reflexivity.
  - cbn [Z.ltb Z.compare]. f_equal. unfold AddTopic.
    change (Z.to_nat 0) with 0%nat. do 2 f_equal.
    destruct (EventFilter.Topics f) as [|o rest].
    + reflexivity.
    + cbn [List.length Nat.eqb].
      replace (Z.to_nat (0 + 1 - len (o :: rest))) with 0%nat
        by (unfold len; simpl List.length; lia).
      simpl. rewrite app_nil_r. reflexivity.
Qed.

(** X25.  A filter made of one indexed parameter matches exactly the events
    that have a topic at that position equal to the value up to
    [ToLower]; events with fewer topics never match. *)
Theorem indexed_filter_matches (index : Z) (value : string) (f : EventFilter.t) :
  AddIndexedParameter NewEventFilter index value = Ok f ->
  forall event : Event.t,
    eventMatchesFilter ToLower event f = true <->
    exists eventTopic,
      nth_error (Event.Topics event) (Z.to_nat index) = Some eventTopic /\
      ToLower value = ToLower eventTopic.
Proof.
  unfold AddIndexedParameter. destruct (index <? 0) eqn:E; [discriminate|].
  apply Z.ltb_ge in E. intros H. apply Ok_inj in H. subst f.
  intros event. rewrite eventMatchesFilter_spec.
  cbn [withTopics NewEventFilter EventFilter.Address EventFilter.Topics].
  change (len (@nil (list string))) with 0.
  replace (Z.to_nat (index + 1 - 0)) with (S (Z.to_nat index)) by lia.
  set (n := Z.to_nat index).
  assert (Htopics : appendAt n value ([] ++ repeat [] (S n))
                    = repeat [] n ++ [[value]]).
  { simpl app. clear. induction n as [|n IH].
    - reflexivity.
    - simpl in IH |- *. rewrite IH. reflexivity. }
  rewrite Htopics. split.
  - intros [_ H].
    destruct (H n [value]) as (t & Ht & Hacc).
    { rewrite nth_error_app2 by (rewrite repeat_length; lia).
      rewrite repeat_length, Nat.sub_diag. reflexivity. }
    exists t. split; [exact Ht|].
    destruct Hacc as [Hacc|(topic & [Hin|[]] & He)];
      [discriminate | subst; exact He].
  - intros (t & Ht & He). split; [left; reflexivity|].
    intros k options Hk.
    destruct (Nat.lt_ge_cases k n) as [Hlt|Hge].
    + rewrite nth_error_app1 in Hk by (rewrite repeat_length; lia).
      apply nth_error_In, repeat_spec in Hk. subst options.
      destruct (nth_error (Event.Topics event) k) as [tk|] eqn:Ek.
      * exists tk. auto.
      * apply nth_error_None in Ek.
        assert (n < List.length (Event.Topics event))%nat
          by (apply nth_error_Some; congruence). lia.
    + rewrite nth_error_app2 in Hk by (rewrite repeat_length; lia).
      rewrite repeat_length in Hk.
      destruct (k - n)%nat as [|d] eqn:Ed.
      * simpl in Hk. injection Hk as <-.
        replace k with n by lia. exists t. split; [exact Ht|].
        right. exists value. split; [left; reflexivity | exact He].
      * simpl in Hk. destruct d; discriminate.
Qed.

End EventProperties.

Lemma AddIndexedParameter_spec_witness :
  0 <= 2 /\
  exists f' : EventFilter.t,
    AddIndexedParameter NewEventFilter 2 "0xab" = Ok f' /\
    EventFilter.Address f' = EventFilter.Address NewEventFilter /\
    len (EventFilter.Topics f')
    = Z.max (len (EventFilter.Topics NewEventFilter)) (2 + 1) /\
    forall k : nat,
      nth k (EventFilter.Topics f') []
      = if (k =? Z.to_nat 2)%nat
        then nth k (EventFilter.Topics NewEventFilter) [] ++ ["0xab"%string]
        else nth k (EventFilter.Topics NewEventFilter) [].
Proof.
  assert (H : 0 <= 2) by lia.
  split; [exact H|].
  exact (proj1 (proj2 (AddIndexedParameter_spec NewEventFilter 2 "0xab")) H).
Defined.

Lemma indexed_filter_matches_witness :
  AddIndexedParameter NewEventFilter 1 "0xAB"
  = Ok (withTopics NewEventFilter [[]; ["0xAB"%string]]) /\
  eventMatchesFilter lowerCase
    (eventAt "0x00" ["0xddf2"; "0xab"]%string)
    (withTopics NewEventFilter [[]; ["0xAB"%string]]) = true.
Proof.
  assert (H : AddIndexedParameter NewEventFilter 1 "0xAB"
              = Ok (withTopics NewEventFilter [[]; ["0xAB"%string]]))
    by reflexivity.
  split; [exact H|].
  apply (proj2 (indexed_filter_matches lowerCase 1 "0xAB" _ H
                  (eventAt "0x00" ["0xddf2"; "0xab"]%string))).
  exists "0xab"%string. split; reflexivity.
Defined.

(** ** Addresses of a filter *)

Section FilterAddresses.

Variable ToLower : string -> string.

(** On the text of a valid address, which is ASCII, [strings.ToLower]
    lowers the letters A to Z. *)
Hypothesis ToLower_address :
  forall s : string, ValidateAddress s = true -> ToLower s = lowerCase s.

Lemma lowerChar_hex (c : ascii) :
  isHexDigit c = true ->
  isHexDigit (lowerChar c) = true /\ lowerChar (lowerChar c) = lowerChar c.
Proof.
  destruct c as [[] [] [] [] [] [] [] []]; vm_compute; intros H;
    try discriminate H; split; reflexivity.
Qed.

Lemma lowerCase_hex (s : string) :
  allHex s = true ->
  allHex (lowerCase s) = true /\ lowerCase (lowerCase s) = lowerCase s /\
  String.length (lowerCase s) = String.length s.
Proof.
  induction s as [|c s IH]; cbn [allHex lowerCase String.length].
  - auto.
  - intros H. apply andb_true_iff in H. destruct H as [Hc Hs].
    destruct (lowerChar_hex c Hc) as [H1 H2].
    destruct (IH Hs) as (H3 & H4 & H5).
    rewrite H1, H2, H3, H4, H5. auto.
Qed.

Lemma lowerCase_address (s : string) :
  ValidateAddress s = true ->
  ValidateAddress (lowerCase s) = true /\
  lowerCase (lowerCase s) = lowerCase s.
Proof.
  intros H. apply ValidateAddress_shape in H.
  destruct H as (digits & -> & Hlen & Hhex).
  destruct (lowerCase_hex digits Hhex) as (H1 & H2 & H3).
  change (lowerCase (String "0" (String "x" digits)))
    with (String "0" (String "x" (lowerCase digits))).
  split.
  - apply ValidateAddress_shape. exists (lowerCase digits).
    split; [reflexivity|]. split; [congruence | exact H1].
  - change (lowerCase (String "0" (String "x" (lowerCase digits))))
      with (String "0" (String "x" (lowerCase (lowerCase digits)))).
    rewrite H2. reflexivity.
Qed.

(** X26.  [AddAddress] leaves the filter as it is when the address is not
    valid, and otherwise appends the address in lower case; so every
    address of a filter built from [NewEventFilter] with [AddAddress]
    is valid and in lower case, and a filter with one address matches
    exactly the events whose address is that address up to case. *)
Theorem AddAddress_spec (f : EventFilter.t) (address : string) :
  (ValidateAddress address = false -> AddAddress ToLower f address = f) /\
  (ValidateAddress address = true ->
   EventFilter.Address (AddAddress ToLower f address)
   = EventFilter.Address f ++ [lowerCase address] /\
   EventFilter.Topics (AddAddress ToLower f address) = EventFilter.Topics f) /\
  (Forall (fun a => ValidateAddress a = true /\ lowerCase a = a)
     (EventFilter.Address f) ->
   Forall (fun a => ValidateAddress a = true /\ lowerCase a = a)
     (EventFilter.Address (AddAddress ToLower f address))) /\
  (ValidateAddress address = true ->
   forall event : Event.t,
     eventMatchesFilter ToLower event
       (AddAddress ToLower NewEventFilter address) = true <->
     ToLower (Event.Address event) = lowerCase address).
Proof.
  unfold AddAddress.
  destruct (ValidateAddress address) eqn:Hv.
  - rewrite (ToLower_address address Hv).
    destruct (lowerCase_address address Hv) as [Hvl Hidem].
    split; [discriminate|]. split; [auto|]. split.
    + intros HF. cbn [withAddress EventFilter.Address].
      apply Forall_app. split; [exact HF|].
      constructor; [auto | constructor].
    + intros _ event. rewrite eventMatchesFilter_spec.
      cbn [withAddress NewEventFilter EventFilter.Address
             EventFilter.Topics app].
      split.
      * intros [[H|(addr & [Hin|[]] & He)] _]; [discriminate|].
        subst addr. rewrite (ToLower_address _ Hvl), Hidem in He.
        symmetry. exact He.
      * intros He. split.
        -- right. exists (lowerCase address). split; [left; reflexivity|].
           rewrite (ToLower_address _ Hvl), Hidem. symmetry. exact He.
        -- intros k options Hk. destruct k; discriminate.
  - split; [reflexivity|]. split; [discriminate|]. split; [auto|].
    discriminate.
Qed.

End FilterAddresses.

Lemma AddAddress_spec_witness :
  (forall s : string, ValidateAddress s = true -> lowerCase s = lowerCase s) /\
  ValidateAddress "0x00000000000000000000000000000000000000AB" = true /\
  EventFilter.Address
    (AddAddress lowerCase NewEventFilter
       "0x00000000000000000000000000000000000000AB")
  = EventFilter.Address NewEventFilter
    ++ [lowerCase "0x00000000000000000000000000000000000000AB"].
Proof.
  assert (H : forall s : string,
            ValidateAddress s = true -> lowerCase s = lowerCase s)
    by reflexivity.
  assert (Hv : ValidateAddress "0x00000000000000000000000000000000000000AB"
               = true) by (vm_compute; reflexivity).
  split; [exact H|]. split; [exact Hv|].
  exact (proj1 (proj1 (proj2 (AddAddress_spec lowerCase H NewEventFilter
                 "0x00000000000000000000000000000000000000AB")) Hv)).
Defined.

(** ** Amounts as decimal text *)

Section Units.

Lemma digitValue_digitChar (d : Z) :
  0 <= d < 10 -> digitValue (digitChar d) = Some d.
Proof.
  intros H.
  assert (Hc : d = 0 \/ d = 1 \/ d = 2 \/ d = 3 \/ d = 4 \/ d = 5 \/ d = 6
               \/ d = 7 \/ d = 8 \/ d = 9) by lia.
  repeat (destruct Hc as [->|Hc]; [reflexivity|]). subst. reflexivity.
Qed.

Lemma parseDigits_app (s1 s2 : string) :
  forall acc : Z,
    parseDigits acc (s1 ++ s2)
    = match parseDigits acc s1 with
      | Some a => parseDigits a s2
      | None => None
      end.
Proof.
  induction s1 as [|c s1 IH]; intros acc; simpl.
  - reflexivity.
  - destruct (digitValue c); [apply IH | reflexivity].
Qed.

Lemma parseDigits_shift (s : string) :
  forall (acc v : Z),
    parseDigits 0 s = Some v ->
    parseDigits acc s = Some (acc * 10 ^ Z.of_nat (String.length s) + v).
Proof.
  assert (Hgen : forall (a b : Z) (v : Z),
            parseDigits a s = Some v ->
            parseDigits (a + b) s
            = Some (v + b * 10 ^ Z.of_nat (String.length s))).
  { induction s as [|c s IH]; intros a b v Hv;
      cbn [parseDigits String.length] in *.
    - injection Hv as <-. f_equal. change (10 ^ Z.of_nat 0) with 1. lia.
    - destruct (digitValue c) as [d|]; [|discriminate].
      replace ((a + b) * 10 + d) with ((a * 10 + d) + b * 10) by lia.
      rewrite (IH _ (b * 10) v Hv). f_equal.
      rewrite Nat2Z.inj_succ, Z.pow_succ_r by lia. lia. }
  intros acc v Hv. rewrite <- (Z.add_0_l acc).
  rewrite (Hgen 0 acc v Hv). f_equal. lia.
Qed.

Lemma allDigits_app (s1 s2 : string) :
  allDigits (s1 ++ s2) = allDigits s1 && allDigits s2.
Proof.
  induction s1 as [|c s1 IH]; simpl.
  - reflexivity.
  - destruct (digitValue c); [exact IH | reflexivity].
Qed.

Lemma length_append (s1 s2 : string) :
  String.length (s1 ++ s2) = (String.length s1 + String.length s2)%nat.
Proof. induction s1 as [|c s1 IH]; simpl; [reflexivity | rewrite IH; reflexivity]. Qed.

Lemma append_assoc (s1 s2 s3 : string) :
  ((s1 ++ s2) ++ s3 = s1 ++ (s2 ++ s3))%string.
Proof. induction s1 as [|c s1 IH]; simpl; [reflexivity | rewrite IH; reflexivity]. Qed.

Lemma append_nil_r (s : string) : (s ++ "" = s)%string.
Proof. induction s as [|c s IH]; simpl; [reflexivity | rewrite IH; reflexivity]. Qed.

(** The digits of a number spell it, are digits, and are as few as the
    number needs. *)
Lemma digitsFuel_spec :
  forall (fuel : nat) (n : Z),
    0 <= n < 2 ^ Z.of_nat fuel ->
    parseDigits 0 (digitsFuel fuel n) = Some n /\
    allDigits (digitsFuel fuel n) = true /\
    (0 < n -> digitsFuel fuel n <> EmptyString) /\
    forall d : nat, n < 10 ^ Z.of_nat d ->
                    (String.length (digitsFuel fuel n) <= d)%nat.
Proof.
  induction fuel as [|k IH]; intros n Hn.
  - change (2 ^ Z.of_nat 0) with 1 in Hn. assert (n = 0) by lia. subst.
    simpl. repeat split; try lia.
  - cbn [digitsFuel]. destruct (n <=? 0) eqn:E.
    + apply Z.leb_le in E. assert (n = 0) by lia. subst.
      simpl. repeat split; try lia.
    + apply Z.leb_gt in E.
      rewrite Nat2Z.inj_succ, Z.pow_succ_r in Hn by lia.
      pose proof (Z.div_mod n 10 ltac:(lia)) as Hdm.
      pose proof (Z.mod_pos_bound n 10 ltac:(lia)) as Hm.
      assert (Hq : 0 <= n / 10 < 2 ^ Z.of_nat k).
      { split; [apply Z.div_pos; lia|].
        apply Z.div_lt_upper_bound; lia. }
      destruct (IH (n / 10) Hq) as (Hp & Hall & _ & Hlen).
      split; [|split; [|split]].
      * rewrite parseDigits_app, Hp. simpl.
        rewrite (digitValue_digitChar _ Hm). f_equal. lia.
      * rewrite allDigits_app, Hall. simpl.
        rewrite (digitValue_digitChar _ Hm). reflexivity.
      * intros _ Hnil.
        apply (f_equal String.length) in Hnil.
        rewrite length_append in Hnil. simpl in Hnil. lia.
      * intros d Hd. rewrite length_append. simpl.
        destruct d as [|d].
        -- change (10 ^ Z.of_nat 0) with 1 in Hd. lia.
        -- rewrite Nat2Z.inj_succ, Z.pow_succ_r in Hd by lia.
           assert (n / 10 < 10 ^ Z.of_nat d)
             by (apply Z.div_lt_upper_bound; lia).
           specialize (Hlen d ltac:(assumption)). lia.
Qed.

Lemma digits_spec (n : Z) :
  0 < n ->
  parseDigits 0 (digits n) = Some n /\
  allDigits (digits n) = true /\
  digits n <> EmptyString /\
  forall d : nat, n < 10 ^ Z.of_nat d -> (String.length (digits n) <= d)%nat.
Proof.
  intros Hn. unfold digits.
  assert (Hfuel : 0 <= n < 2 ^ Z.of_nat (S (Z.to_nat (Z.log2 n)))).
  { split; [lia|].
    rewrite Nat2Z.inj_succ, Z2Nat.id by apply Z.log2_nonneg.
    apply Z.log2_spec. exact Hn. }
  destruct (digitsFuel_spec _ n Hfuel) as (H1 & H2 & H3 & H4).
  auto.
Qed.

(** The text of a non-negative number: its value, and only digits. *)
Lemma bigString_nonneg (x : Z) :
  0 <= x ->
  parseDigits 0 (bigString x) = Some x /\
  allDigits (bigString x) = true /\
  bigString x <> EmptyString.
Proof.
  intros Hx. unfold bigString.
  destruct (x =? 0) eqn:E0.
  - apply Z.eqb_eq in E0. subst. repeat split. discriminate.
  - apply Z.eqb_neq in E0.
    replace (x <? 0) with false by (symmetry; apply Z.ltb_ge; lia).
    destruct (digits_spec x ltac:(lia)) as (H1 & H2 & H3 & _). auto.
Qed.

Lemma SetString10_digits (s : string) (v : Z) :
  s <> EmptyString -> allDigits s = true ->
  parseDigits 0 s = Some v -> SetString10 s = Some v.
Proof.
  intros Hne Hall Hv. destruct s as [|c rest]; [congruence|].
  unfold SetString10.
  assert (Hc : Ascii.eqb c "-" = false /\ Ascii.eqb c "+" = false).
  { simpl in Hall. destruct (digitValue c) eqn:Ed; [|discriminate].
    split; destruct (Ascii.eqb_spec c "-"), (Ascii.eqb_spec c "+");
      subst; try reflexivity; discriminate. }
  destruct Hc as [-> ->]. exact Hv.
Qed.

Lemma zeros_spec (n : nat) :
  allDigits (zeros n) = true /\ String.length (zeros n) = n /\
  forall acc : Z,
    parseDigits acc (zeros n) = Some (acc * 10 ^ Z.of_nat n).
Proof.
  induction n as [|n (IH1 & IH2 & IH3)].
  - simpl. repeat split. intros. f_equal. lia.
  - cbn [zeros allDigits String.length parseDigits].
    change (digitValue "0") with (Some 0).
    split; [exact IH1|]. split; [rewrite IH2; reflexivity|].
    intros acc. rewrite IH3. f_equal.
    rewrite Nat2Z.inj_succ, Z.pow_succ_r by lia. lia.
Qed.

Lemma digit_not_dot (c : ascii) (d : Z) :
  digitValue c = Some d -> Ascii.eqb c "." = false.
Proof.
  intros H. destruct (Ascii.eqb_spec c "."); [|reflexivity].
  subst. discriminate.
Qed.

Lemma Split_digits (s : string) :
  allDigits s = true -> Split s "." = [s].
Proof.
  induction s as [|c s IH]; simpl.
  - reflexivity.
  - destruct (digitValue c) as [d|] eqn:Ed; [|discriminate].
    intros H. rewrite (digit_not_dot _ _ Ed), (IH H). reflexivity.
Qed.

Lemma Split_dot (s1 s2 : string) :
  allDigits s1 = true -> allDigits s2 = true ->
  Split (s1 ++ String "." s2) "." = [s1; s2].
Proof.
  intros H1 H2. induction s1 as [|c s1 IH]; simpl.
  - rewrite (Split_digits _ H2). reflexivity.
  - simpl in H1. destruct (digitValue c) as [d|] eqn:Ed; [|discriminate].
    rewrite (digit_not_dot _ _ Ed), (IH H1). reflexivity.
Qed.

(** [TrimRight] cuts a run of the character at the end and nothing
    else. *)
Lemma TrimRight_zeros (s : string) :
  exists k : nat,
    (s = TrimRight s "0" ++ zeros k)%string /\
    (allDigits s = true -> allDigits (TrimRight s "0") = true) /\
    (String.length (TrimRight s "0") <= String.length s)%nat.
Proof.
  induction s as [|a rest (k & Hk & Hall & Hlen)].
  - exists 0%nat. simpl. auto.
  - cbn [TrimRight].
    destruct (TrimRight rest "0") as [|b t] eqn:Et.
    + destruct (Ascii.eqb_spec a "0") as [->|Ha].
      * exists (S k). simpl in Hk |- *. rewrite <- Hk.
        split; [reflexivity|]. split; [reflexivity | lia].
      * exists k. simpl in Hk |- *. rewrite <- Hk.
        split; [reflexivity|]. split; [|lia].
        destruct (digitValue a); auto.
    + exists k. simpl in Hk |- *. rewrite <- Hk.
      split; [reflexivity|]. split.
      * cbn [allDigits]. destruct (digitValue a); [exact Hall | discriminate].
      * cbn [String.length] in *. lia.
Qed.

End Units.

Section UnitsParsing.

Lemma parseDigits_allDigits (s : string) :
  forall (acc v : Z), parseDigits acc s = Some v -> allDigits s = true.
Proof.
  induction s as [|c s IH]; intros acc v H; simpl in *.
  - reflexivity.
  - destruct (digitValue c); [eapply IH; eauto | discriminate].
Qed.

Lemma digitValue_range (c : ascii) (d : Z) :
  digitValue c = Some d -> 0 <= d < 10.
Proof.
  unfold digitValue.
  destruct ((48 <=? N_of_ascii c)%N && (N_of_ascii c <=? 57)%N) eqn:E;
    [|discriminate].
  apply andb_true_iff in E. destruct E as [E1 E2].
  apply N.leb_le in E1, E2. intros H. injection H as <-. lia.
Qed.

Lemma parseDigits_bounds (s : string) :
  forall v : Z,
    parseDigits 0 s = Some v -> 0 <= v < 10 ^ Z.of_nat (String.length s).
Proof.
  induction s as [|c s IH]; intros v Hv.
  - simpl in Hv. injection Hv as <-. simpl. lia.
  - cbn [parseDigits] in Hv. destruct (digitValue c) as [d|] eqn:Ed;
      [|discriminate].
    pose proof (digitValue_range _ _ Ed) as Hd.
    pose proof (parseDigits_allDigits _ _ _ Hv) as Hall.
    assert (Hex : exists w, parseDigits 0 s = Some w).
    { clear -Hall. generalize 0.
      induction s as [|a s IHs]; intros acc; simpl in *; [eauto|].
      destruct (digitValue a); [auto | discriminate]. }
    destruct Hex as [w Hw].
    rewrite (parseDigits_shift s (0 * 10 + d) w Hw) in Hv.
    injection Hv as <-.
    assert (Hb : 0 <= w < 10 ^ Z.of_nat (String.length s))
      by (apply IH; exact Hw).
    cbn [String.length]. rewrite Nat2Z.inj_succ, Z.pow_succ_r by lia.
    nia.
Qed.

Lemma substring_prefix (s : string) :
  forall n : nat,
    (n <= String.length s)%nat ->
    exists rest : string,
      (s = substring 0 n s ++ rest)%string /\
      String.length (substring 0 n s) = n /\
      String.length rest = (String.length s - n)%nat.
Proof.
  induction s as [|c s IH]; intros [|n] Hn; simpl in Hn |- *.
  - exists EmptyString. auto.
  - lia.
  - exists (String c s). auto.
  - destruct (IH n ltac:(lia)) as (rest & H1 & H2 & H3).
    exists rest. rewrite <- H1, H2. auto.
Qed.

(** The value of the first [n] digits of a text is the value of the
    text without its last digits. *)
Lemma parseDigits_prefix (s : string) (n : nat) (v : Z) :
  (n <= String.length s)%nat ->
  parseDigits 0 s = Some v ->
  parseDigits 0 (substring 0 n s)
  = Some (v / 10 ^ Z.of_nat (String.length s - n)).
Proof.
  intros Hn Hv.
  destruct (substring_prefix s n Hn) as (rest & Hs & Hlen & Hrest).
  pose proof (parseDigits_allDigits _ _ _ Hv) as Hall.
  rewrite Hs, allDigits_app in Hall.
  apply andb_true_iff in Hall. destruct Hall as [Hall1 Hall2].
  assert (Hex : forall t, allDigits t = true ->
                          exists w, parseDigits 0 t = Some w).
  { intros t. generalize 0.
    induction t as [|a t IHt]; intros acc Ht; simpl in *; [eauto|].
    destruct (digitValue a); [auto | discriminate]. }
  destruct (Hex _ Hall1) as [p Hp]. destruct (Hex _ Hall2) as [r Hr].
  rewrite Hs, parseDigits_app, Hp in Hv.
  rewrite (parseDigits_shift rest p r Hr) in Hv. injection Hv as <-.
  pose proof (parseDigits_bounds _ _ Hr) as Hb.
  rewrite Hp, <- Hrest. f_equal.
  apply (Z.div_unique_pos _ _ p r); lia.
Qed.

Lemma fractionDigits_value (f : string) (decimals F : Z) :
  0 <= decimals -> parseDigits 0 f = Some F ->
  parseDigits 0 (fractionDigits f decimals)
  = Some (F * 10 ^ decimals / 10 ^ Z.of_nat (String.length f)) /\
  Z.of_nat (String.length (fractionDigits f decimals)) = decimals.
Proof.
  intros Hd HF. unfold fractionDigits.
  destruct (Z.of_nat (String.length f) >? decimals) eqn:E.
  - rewrite Z.gtb_ltb in E. apply Z.ltb_lt in E.
    assert (Hn : (Z.to_nat decimals <= String.length f)%nat) by lia.
    destruct (substring_prefix f _ Hn) as (rest & _ & Hlen & _).
    rewrite Hlen. replace (Z.to_nat (decimals - Z.of_nat (Z.to_nat decimals)))
      with 0%nat by lia.
    cbn [zeros]. rewrite append_nil_r, Hlen.
    split; [|lia].
    rewrite (parseDigits_prefix f _ F Hn HF). f_equal.
    replace (Z.of_nat (String.length f))
      with (Z.of_nat (String.length f - Z.to_nat decimals) + decimals) by lia.
    rewrite Z.pow_add_r by lia.
    rewrite Z.div_mul_cancel_r; [reflexivity | | ];
      apply Z.pow_nonzero; lia.
  - rewrite Z.gtb_ltb in E. apply Z.ltb_ge in E.
    destruct (zeros_spec (Z.to_nat (decimals - Z.of_nat (String.length f))))
      as (_ & Hzl & Hzv).
    rewrite length_append, Hzl. split; [|lia].
    rewrite parseDigits_app, HF, Hzv. f_equal.
    replace decimals
      with (Z.of_nat (Z.to_nat (decimals - Z.of_nat (String.length f)))
            + Z.of_nat (String.length f)) at 2 by lia.
    rewrite Z.pow_add_r, Z.mul_assoc by lia.
    rewrite Z.div_mul; [reflexivity|]. apply Z.pow_nonzero; lia.
Qed.

Lemma ParseUnits_parts (i f : string) (decimals I F : Z) (dotted : bool) :
  0 <= decimals -> i <> EmptyString ->
  parseDigits 0 i = Some I -> parseDigits 0 f = Some F ->
  Split (if dotted then i ++ String "." f else i)%string "."
  = (if dotted then [i; f] else [i]) ->
  (dotted = false -> f = EmptyString) ->
  ParseUnits (if dotted then i ++ String "." f else i)%string decimals
  = Parsed (I * 10 ^ decimals
            + F * 10 ^ decimals / 10 ^ Z.of_nat (String.length f)).
Proof.
  intros Hd Hne HI HF Hsplit Hf. unfold ParseUnits. rewrite Hsplit.
  assert (Hshape :
            (if (2 <? List.length (if dotted then [i; f] else [i]))%nat
             then true else false) = false /\
            nth 0 (if dotted then [i; f] else [i]) EmptyString = i /\
            (if (List.length (if dotted then [i; f] else [i]) =? 2)%nat
             then nth 1 (if dotted then [i; f] else [i]) EmptyString
             else EmptyString) = f).
  { destruct dotted; simpl; [auto|]. rewrite Hf by reflexivity. auto. }
  destruct Hshape as (H1 & H2 & H3).
  destruct (2 <? List.length (if dotted then [i; f] else [i]))%nat;
    [discriminate|].
  rewrite H2, H3.
  replace (decimals <? 0) with false by (symmetry; apply Z.ltb_ge; lia).
  rewrite andb_false_r.
  change ((if Z.of_nat (String.length f) >? decimals
           then substring 0 (Z.to_nat decimals) f else f)
          ++ zeros (Z.to_nat
                      (decimals
                       - Z.of_nat
                           (String.length
                              (if Z.of_nat (String.length f) >? decimals
                               then substring 0 (Z.to_nat decimals) f
                               else f)))))%string
    with (fractionDigits f decimals).
  destruct (fractionDigits_value f decimals F Hd HF) as [Hv Hlen].
  assert (Hfull : parseDigits 0 (i ++ fractionDigits f decimals)
                  = Some (I * 10 ^ decimals
                          + F * 10 ^ decimals
                            / 10 ^ Z.of_nat (String.length f))).
  { rewrite parseDigits_app, HI.
    rewrite (parseDigits_shift _ I _ Hv), Hlen. reflexivity. }
  assert (Hfne : (i ++ fractionDigits f decimals)%string <> EmptyString)
    by (destruct i; [congruence | discriminate]).
  rewrite (SetString10_digits _ _ Hfne
             (parseDigits_allDigits _ _ _ Hfull) Hfull).
  reflexivity.
Qed.

Lemma ParseUnits_digits (i f : string) (decimals I F : Z) :
  0 <= decimals -> i <> EmptyString ->
  parseDigits 0 i = Some I -> parseDigits 0 f = Some F ->
  ParseUnits (i ++ String "." f) decimals
  = Parsed (I * 10 ^ decimals
            + F * 10 ^ decimals / 10 ^ Z.of_nat (String.length f)).
Proof.
  intros Hd Hne HI HF.
  apply (ParseUnits_parts i f decimals I F true Hd Hne HI HF).
  - apply Split_dot; eapply parseDigits_allDigits; eauto.
  - discriminate.
Qed.

(** X27.  [ParseUnits] on a decimal text with a fractional part: the integer
    digits are scaled by [10^decimals]; the fractional digits beyond
    [decimals] are cut off, never rounded. *)
Theorem ParseUnits_decimal (i f : string) (decimals I F : Z) :
  0 <= decimals -> i <> EmptyString ->
  parseDigits 0 i = Some I -> parseDigits 0 f = Some F ->
  ParseUnits (i ++ String "." f) decimals
  = Parsed (I * 10 ^ decimals
            + F * 10 ^ decimals / 10 ^ Z.of_nat (String.length f)).
Proof. exact (ParseUnits_digits i f decimals I F). Qed.

Lemma ParseUnits_decimal_witness :
  0 <= 2 /\ "12"%string <> EmptyString /\
  parseDigits 0 "12" = Some 12 /\ parseDigits 0 "3456" = Some 3456 /\
  ParseUnits "12.3456" 2
  = Parsed (12 * 10 ^ 2 + 3456 * 10 ^ 2 / 10 ^ Z.of_nat (String.length "3456")).
Proof.
  assert (H0 : 0 <= 2) by lia.
  assert (H1 : "12"%string <> EmptyString) by discriminate.
  assert (H2 : parseDigits 0 "12" = Some 12) by reflexivity.
  assert (H3 : parseDigits 0 "3456" = Some 3456) by reflexivity.
  split; [exact H0|]. split; [exact H1|]. split; [exact H2|].
  split; [exact H3|].
  exact (ParseUnits_decimal "12" "3456" 2 12 3456 H0 H1 H2 H3).
Defined.

Lemma ParseUnits_whole (i : string) (decimals I : Z) :
  0 <= decimals -> i <> EmptyString -> parseDigits 0 i = Some I ->
  ParseUnits i decimals = Parsed (I * 10 ^ decimals).
Proof.
  intros Hd Hne HI.
  rewrite (ParseUnits_parts i EmptyString decimals I 0 false Hd Hne HI
             eq_refl).
  - f_equal. cbn [String.length]. change (10 ^ Z.of_nat 0) with 1.
    rewrite Z.mul_0_l, Z.div_0_l by lia. lia.
  - apply Split_digits. eapply parseDigits_allDigits; eauto.
  - reflexivity.
Qed.

Lemma units_divisor (decimals : Z) :
  0 <= decimals ->
  (if decimals <=? 0 then 1 else 10 ^ decimals) = 10 ^ decimals.
Proof.
  intros Hd. destruct (decimals <=? 0) eqn:E; [|reflexivity].
  apply Z.leb_le in E. assert (decimals = 0) by lia. subst. reflexivity.
Qed.

Lemma units_round_trip (amount decimals : Z) :
  0 <= amount -> 0 <= decimals ->
  ParseUnits (FormatUnits amount decimals) decimals = Parsed amount.
Proof.
  intros Ha Hd. unfold FormatUnits.
  rewrite (units_divisor decimals Hd).
  assert (HD : 0 < 10 ^ decimals) by (apply Z.pow_pos_nonneg; lia).
  pose proof (Z.div_mod amount (10 ^ decimals) ltac:(lia)) as Hdm.
  pose proof (Z.mod_pos_bound amount (10 ^ decimals) HD) as Hr.
  assert (Hq : 0 <= amount / 10 ^ decimals) by (apply Z.div_pos; lia).
  destruct (bigString_nonneg _ Hq) as (HI & _ & Hne).
  set (q := amount / 10 ^ decimals) in *.
  set (r := amount mod 10 ^ decimals) in *.
  destruct (r =? 0) eqn:Er.
  - apply Z.eqb_eq in Er.
    rewrite (ParseUnits_whole _ decimals q Hd Hne HI). f_equal. lia.
  - apply Z.eqb_neq in Er.
    destruct (bigString_nonneg r ltac:(lia)) as (Hrv & Hrall & _).
    assert (Hrlen : Z.of_nat (String.length (bigString r)) <= decimals).
    { unfold bigString.
      replace (r =? 0) with false by (symmetry; apply Z.eqb_neq; lia).
      replace (r <? 0) with false by (symmetry; apply Z.ltb_ge; lia).
      destruct (digits_spec r ltac:(lia)) as (_ & _ & _ & Hlen).
      specialize (Hlen (Z.to_nat decimals)).
      rewrite Z2Nat.id in Hlen by lia. specialize (Hlen ltac:(lia)). lia. }
    set (padded := (zeros (Z.to_nat (decimals
                                      - Z.of_nat (String.length (bigString r))))
                    ++ bigString r)%string).
    destruct (zeros_spec (Z.to_nat (decimals
                                    - Z.of_nat (String.length (bigString r)))))
      as (Hzall & Hzlen & Hzv).
    assert (Hpv : parseDigits 0 padded = Some r).
    { unfold padded. rewrite parseDigits_app, Hzv.
      rewrite (parseDigits_shift _ _ _ Hrv). reflexivity. }
    assert (Hplen : Z.of_nat (String.length padded) = decimals)
      by (unfold padded; rewrite length_append, Hzlen; lia).
    destruct (TrimRight_zeros padded) as (k & Hk & Htall & Htlen).
    set (trimmed := TrimRight padded "0") in *.
    pose proof (parseDigits_allDigits _ _ _ Hpv) as Hpall.
    specialize (Htall Hpall).
    assert (Hex : exists T, parseDigits 0 trimmed = Some T).
    { clear -Htall. revert Htall. generalize trimmed. intros t. generalize 0.
      induction t as [|a t IHt]; intros acc Ht; simpl in *; [eauto|].
      destruct (digitValue a); [auto | discriminate]. }
    destruct Hex as [T HT].
    destruct (zeros_spec k) as (_ & Hklen & Hkv).
    assert (HrT : r = T * 10 ^ Z.of_nat k).
    { rewrite Hk, parseDigits_app, HT, Hkv in Hpv. congruence. }
    assert (Hdk : decimals = Z.of_nat (String.length trimmed) + Z.of_nat k).
    { rewrite <- Hplen, Hk, length_append, Hklen. lia. }
    assert (Htne : String.eqb trimmed "" = false).
    { destruct (String.eqb_spec trimmed ""); [|reflexivity].
      exfalso. rewrite e in HT. simpl in HT. injection HT as <-. lia. }
    rewrite Htne.
    change (bigString q ++ "." ++ trimmed)%string
      with (bigString q ++ String "." trimmed)%string.
    rewrite (ParseUnits_digits _ _ decimals q T Hd Hne HI HT). f_equal.
    rewrite Hdk at 2. rewrite Z.pow_add_r by lia.
    rewrite (Z.mul_comm (10 ^ Z.of_nat (String.length trimmed))).
    rewrite Z.mul_assoc, Z.div_mul by (apply Z.pow_nonzero; lia).
    lia.
Qed.

(** X29.  Formatting a non-negative amount and parsing the text again, with
    the same number of decimals, gives the amount back. *)
Theorem ParseUnits_FormatUnits (amount decimals : Z) :
  0 <= amount -> 0 <= decimals ->
  ParseUnits (FormatUnits amount decimals) decimals = Parsed amount.
Proof. exact (units_round_trip amount decimals). Qed.

Lemma ParseUnits_FormatUnits_witness :
  0 <= 1500000 /\ 0 <= 6 /\
  FormatUnits 1500000 6 = "1.5"%string /\
  ParseUnits (FormatUnits 1500000 6) 6 = Parsed 1500000.
Proof.
  assert (H0 : 0 <= 1500000) by lia.
  assert (H1 : 0 <= 6) by lia.
  split; [exact H0|]. split; [exact H1|]. split; [vm_compute; reflexivity|].
  exact (ParseUnits_FormatUnits 1500000 6 H0 H1).
Defined.

(** A minus sign in front of a text that starts with a digit negates
    what [ParseUnits] reads, and changes nothing else. *)
Lemma ParseUnits_minus (c : ascii) (s : string) (decimals : Z) :
  digitValue c <> None ->
  ParseUnits (String "-" (String c s)) decimals
  = match ParseUnits (String c s) decimals with
    | Parsed v => Parsed (- v)
    | other => other
    end.
Proof.
  intros Hc.
  assert (Hdot : Ascii.eqb c "." = false).
  { destruct (Ascii.eqb_spec c "."); [|reflexivity]. subst c.
    exfalso. apply Hc. reflexivity. }
  assert (Hminus : Ascii.eqb c "-" = false).
  { destruct (Ascii.eqb_spec c "-"); [|reflexivity]. subst c.
    exfalso. apply Hc. reflexivity. }
  assert (Hplus : Ascii.eqb c "+" = false).
  { destruct (Ascii.eqb_spec c "+"); [|reflexivity]. subst c.
    exfalso. apply Hc. reflexivity. }
  assert (Hsplit : exists first others,
             Split (String c s) "." = String c first :: others /\
             Split (String "-" (String c s)) "."
             = String "-" (String c first) :: others).
  { cbn [Split]. rewrite Hdot.
    change (Ascii.eqb "-" ".") with false. cbv iota.
    destruct (Split s ".") as [|first others]; eauto. }
  destruct Hsplit as (first & others & H1 & H2).
  unfold ParseUnits. rewrite H1, H2.
  cbn [List.length nth].
  destruct (2 <? S (List.length others))%nat; [reflexivity|].
  set (fractionalPart :=
         if (S (List.length others) =? 2)%nat
         then nth 0 others EmptyString else EmptyString).
  destruct (_ && _); [reflexivity|].
  set (padded := (_ ++ zeros _)%string).
  change (String "-" (String c first) ++ padded)%string
    with (String "-" (String c (first ++ padded))).
  change (String c first ++ padded)%string
    with (String c (first ++ padded)).
  unfold SetString10. change (Ascii.eqb "-" "-") with true. cbv iota.
  rewrite Hminus, Hplus.
  destruct (parseDigits 0 (String c (first ++ padded))); reflexivity.
Qed.

(** X30.  A negative amount that is no multiple of [10^decimals] does not
    come back: the formatted text carries the floored quotient and the
    non-negative remainder, which [ParseUnits] reads as a magnitude. *)
Theorem FormatUnits_negative (amount decimals : Z) :
  amount < 0 -> 0 <= decimals -> amount mod 10 ^ decimals <> 0 ->
  ParseUnits (FormatUnits amount decimals) decimals
  = Parsed (amount - 2 * (amount mod 10 ^ decimals)).
Proof.
  intros Ha Hd Hr.
  assert (HD : 0 < 10 ^ decimals) by (apply Z.pow_pos_nonneg; lia).
  pose proof (Z.div_mod amount (10 ^ decimals) ltac:(lia)) as Hdm.
  pose proof (Z.mod_pos_bound amount (10 ^ decimals) HD) as Hrb.
  set (q := amount / 10 ^ decimals) in *.
  set (r := amount mod 10 ^ decimals) in *.
  assert (Hq : q < 0) by nia.
  set (mirror := 2 * r - amount).
  assert (Hmq : mirror / 10 ^ decimals = - q)
    by (symmetry; apply (Z.div_unique_pos _ _ (- q) r); unfold mirror; lia).
  assert (Hmr : mirror mod 10 ^ decimals = r)
    by (symmetry; apply (Z.mod_unique_pos _ _ (- q) r); unfold mirror; lia).
  assert (Hshape : FormatUnits amount decimals
                   = String "-" (FormatUnits mirror decimals)).
  { unfold FormatUnits. rewrite (units_divisor decimals Hd).
    rewrite Hmq, Hmr. fold q r.
    assert (Hbq : bigString q = String "-" (bigString (- q))).
    { unfold bigString.
      replace (q =? 0) with false by (symmetry; apply Z.eqb_neq; lia).
      replace (q <? 0) with true by (symmetry; apply Z.ltb_lt; lia).
      replace (- q =? 0) with false by (symmetry; apply Z.eqb_neq; lia).
      replace (- q <? 0) with false by (symmetry; apply Z.ltb_ge; lia).
      reflexivity. }
    rewrite Hbq.
    destruct (r =? 0); [reflexivity|].
    destruct (String.eqb _ ""); reflexivity. }
  assert (Hdigit : exists c s, FormatUnits mirror decimals = String c s /\
                               digitValue c <> None).
  { destruct (bigString_nonneg (- q) ltac:(lia)) as (_ & Hall & Hne).
    unfold FormatUnits. rewrite (units_divisor decimals Hd), Hmq.
    destruct (bigString (- q)) as [|c s]; [congruence|].
    cbn [allDigits] in Hall.
    assert (Hc : digitValue c <> None)
      by (destruct (digitValue c); [discriminate | discriminate]).
    destruct (_ =? 0); [eauto|].
    destruct (String.eqb _ ""); [eauto|].
    cbn [append]. eauto. }
  destruct Hdigit as (c & s & Hcs & Hc).
  rewrite Hshape, Hcs, (ParseUnits_minus c s decimals Hc), <- Hcs.
  rewrite (units_round_trip mirror decimals ltac:(unfold mirror; lia) Hd).
  f_equal. unfold mirror. lia.
Qed.

Lemma FormatUnits_negative_witness :
  -15 < 0 /\ 0 <= 1 /\ (-15) mod 10 ^ 1 <> 0 /\
  FormatUnits (-15) 1 = "-2.5"%string /\
  ParseUnits (FormatUnits (-15) 1) 1 = Parsed (-15 - 2 * ((-15) mod 10 ^ 1)).
Proof.
  assert (H0 : -15 < 0) by lia.
  assert (H1 : 0 <= 1) by lia.
  assert (H2 : (-15) mod 10 ^ 1 <> 0) by (vm_compute; discriminate).
  split; [exact H0|]. split; [exact H1|]. split; [exact H2|].
  split; [vm_compute; reflexivity|].
  exact (FormatUnits_negative (-15) 1 H0 H1 H2).
Defined.

End UnitsParsing.

Section UnitsFailures.

Lemma length_Split (s : string) (sep : ascii) :
  List.length (Split s sep) = S (countChar sep s).
Proof.
  induction s as [|a rest IH]; cbn [Split countChar]; [reflexivity|].
  destruct (Ascii.eqb a sep).
  - cbn [List.length]. rewrite IH. reflexivity.
  - destruct (Split rest sep) as [|first others]; [discriminate|].
    exact IH.
Qed.

(** X28.  [ParseUnits] rejects a text as having an invalid format exactly
    when it has more than one ".", and it panics exactly when the text
    has at most one "." and [decimals] is negative: the fractional part
    is then longer than [decimals] and is sliced at a negative bound. *)
Theorem ParseUnits_failures (amount : string) (decimals : Z) :
  (ParseUnits amount decimals = ParseError InvalidAmountFormat <->
   (2 <= countChar "." amount)%nat) /\
  (forall p : panic,
      ParseUnits amount decimals = ParsePanic p <->
      p = SliceBoundsOutOfRange /\
      (countChar "." amount <= 1)%nat /\ decimals < 0).
Proof.
  unfold ParseUnits. rewrite !length_Split.
  destruct (2 <? S (countChar "." amount))%nat eqn:E.
  - apply Nat.ltb_lt in E. split.
    + split; [lia | reflexivity].
    + intros p. split; [discriminate | lia].
  - apply Nat.ltb_ge in E.
    set (fractionalPart :=
           if (S (countChar "." amount) =? 2)%nat
           then nth 1 (Split amount ".") EmptyString else EmptyString).
    destruct (decimals <? 0) eqn:Ed.
    + apply Z.ltb_lt in Ed.
      replace (Z.of_nat (String.length fractionalPart) >? decimals)
        with true by (symmetry; rewrite Z.gtb_ltb; apply Z.ltb_lt; lia).
      cbn [andb]. split.
      * split; [discriminate | lia].
      * intros p. split.
        -- intros H. injection H as <-. split; [reflexivity | lia].
        -- intros (-> & _). reflexivity.
    + apply Z.ltb_ge in Ed. rewrite andb_false_r.
      destruct (SetString10 _); split;
        try (split; [discriminate | lia]);
        intros p; (split; [discriminate | lia]).
Qed.

End UnitsFailures.
